(** * liq.js: in-page translation -- a shallow embedding and its properties

    The development follows [src/liq.js]: the [Translator] class with its
    text extraction, the two-tier translation cache in front of the remote
    translation service, the batched page mutation, the restore path, and
    the handler that sets the translator up when the page is loaded.

    Modelling conventions.
    - A JavaScript string is a [string]; each character stands for one
      UTF-16 code unit in the range 0..255.
    - DOM text nodes are references ([NodeRef]); their mutable
      [textContent] lives in a store, so that the node-keyed [Map] of the
      translator and the document share the same nodes.
    - The browser environment (remote service, response timing) is a
      parameter [Env]; [localStorage] is a finite map whose accesses do not
      throw.
    - Observable effects (console output, storage reads and writes, network
      requests, timer pauses) are appended to an event log kept in the
      state, newest event first. *)

From Stdlib Require Import ZArith Ascii String List Permutation.
From stdpp Require Import gmap strings list fin_maps pretty sorting.

Open Scope string_scope.

(** ** JavaScript strings *)

Module JsString.

Definition code (c : ascii) : nat := nat_of_ascii c.

(** White space and line terminators removed by [String.prototype.trim]
    (those below code unit 256). *)
Definition is_space (c : ascii) : bool :=
  let n := code c in
  ((9 <=? n)%nat && (n <=? 13)%nat) || (n =? 32)%nat || (n =? 160)%nat.

(** [\d] *)
Definition is_digit (c : ascii) : bool :=
  let n := code c in (48 <=? n)%nat && (n <=? 57)%nat.

Fixpoint trimStart (s : string) : string :=
  match s with
  | "" => ""
  | String c s' => if is_space c then trimStart s' else s
  end.

Fixpoint trimEnd (s : string) : string :=
  match s with
  | "" => ""
  | String c s' =>
      match trimEnd s' with
      | "" => if is_space c then "" else String c ""
      | t => String c t
      end
  end.

Definition trim (s : string) : string := trimEnd (trimStart s).

(** Truthiness of a string: only the empty string is falsy. *)
Definition truthy (s : string) : bool :=
  match s with "" => false | _ => true end.

(** [/^\d+$/.test(s)] *)
Fixpoint all_digits (s : string) : bool :=
  match s with
  | "" => true
  | String c s' => is_digit c && all_digits s'
  end.

Definition is_numeric (s : string) : bool := truthy s && all_digits s.

(** Case folding of the regular expression flag [i] on the letters of the
    pattern: an input code unit matches a pattern letter when it is that
    letter in either case. *)
Definition fold_case (c : ascii) : ascii :=
  let n := code c in
  if (65 <=? n)%nat && (n <=? 90)%nat then ascii_of_nat (n + 32) else c.

Fixpoint starts_with_ci (pat s : string) : bool :=
  match pat, s with
  | "", _ => true
  | String _ _, "" => false
  | String p pat', String c s' =>
      if decide (fold_case c = p) then starts_with_ci pat' s' else false
  end.

(** [/^(http|www\.|@)/i.test(s)] *)
Definition is_url_like (s : string) : bool :=
  starts_with_ci "http" s || starts_with_ci "www." s || starts_with_ci "@" s.

(** [String.prototype.toLowerCase] on code units below 256. *)
Definition lower_char (c : ascii) : ascii :=
  let n := code c in
  if ((65 <=? n)%nat && (n <=? 90)%nat)
     || ((192 <=? n)%nat && (n <=? 222)%nat && negb (n =? 215)%nat)
  then ascii_of_nat (n + 32) else c.

Fixpoint toLowerCase (s : string) : string :=
  match s with
  | "" => ""
  | String c s' => String (lower_char c) (toLowerCase s')
  end.

Definition quote : ascii := ascii_of_nat 34.

(** [s.replace(/^"|"$/g, '')]: the pattern matches a quote at the very
    start and a quote at the very end; with the flag [g] both matches are
    removed, the second one being searched after the first. *)
Definition strip_leading_quote (s : string) : string :=
  match s with
  | String c s' => if decide (c = quote) then s' else s
  | "" => ""
  end.

Fixpoint strip_trailing_quote (s : string) : string :=
  match s with
  | "" => ""
  | String c "" => if decide (c = quote) then "" else s
  | String c s' => String c (strip_trailing_quote s')
  end.

Definition strip_quotes (s : string) : string :=
  strip_trailing_quote (strip_leading_quote s).

(** [encodeURIComponent]: unreserved characters are kept, every other
    code unit is written as the percent-escaped bytes of its UTF-8
    encoding (one byte below 128, two bytes from 128 to 255). *)
Definition is_unreserved (c : ascii) : bool :=
  let n := code c in
  ((65 <=? n)%nat && (n <=? 90)%nat) || ((97 <=? n)%nat && (n <=? 122)%nat)
  || is_digit c
  || bool_decide (c ∈ ["-"; "_"; "."; "!"; "~"; "*"; "'"; "("; ")"]%char).

Definition hex_digit (n : nat) : ascii :=
  if (n <? 10)%nat then ascii_of_nat (48 + n) else ascii_of_nat (55 + n).

Definition percent (byte : nat) : string :=
  String "%"%char (String (hex_digit (byte / 16)) (String (hex_digit (byte mod 16)) "")).

Definition encode_unit (c : ascii) : string :=
  if is_unreserved c then String c ""
  else
    let n := code c in
    if (n <? 128)%nat then percent n
    else percent (192 + n / 64) +:+ percent (128 + n mod 64).

Fixpoint encodeURIComponent (s : string) : string :=
  match s with
  | "" => ""
  | String c s' => encode_unit c +:+ encodeURIComponent s'
  end.

End JsString.

(** ** The document *)

Abbreviation NodeRef := nat (only parsing).

(** The part of the DOM tree the tree walker sees: text nodes (by
    reference), other character data, and elements with their tag name and
    whether they carry the attribute [data-no-translate]. *)
#[warnings="-register-all"]
Inductive Node :=
| TextNode (ref : NodeRef)
| CommentNode
| Element (tagName : string) (noTranslate : bool) (children : list Node).

(** [document.documentElement] and [document.body]. *)
Record Document := {
  htmlNoTranslate : bool;
  bodyNoTranslate : bool;
  bodyChildren : list Node
}.

(** ** The translator and the browser state *)

(** Values stored in [originalTexts]. *)
Record TextRecord := {
  id : string;
  original : string;
  parentTag : string
}.

(** Errors that reach a [catch] clause. *)
Inductive JsError :=
| ApiError (status : nat)      (* [new Error(`API error: ${response.status}`)] *)
| NetworkError                 (* [fetch] rejected *)
| SyntaxError                  (* [response.json()] rejected *)
| TypeError.                   (* property access on [null], call of a non-function *)

Inductive Event :=
| LogFound (size : nat)                         (* console.log, extractText *)
| LogSuccess (lang : string)                    (* console.log, translatePage *)
| ErrorFailed (e : JsError)                     (* console.error, translatePage *)
| WarnIssue (text : string)                     (* console.warn, line 138 *)
| WarnFailed (text : string) (e : JsError)      (* console.warn, line 150 *)
| GetItem (key : string)                        (* localStorage.getItem *)
| SetItem (key value : string)                  (* localStorage.setItem *)
| Fetch (url : string)                          (* fetch(url, ...) *)
| Sleep (ms : nat).                             (* setTimeout(resolve, ms) *)

#[global] Instance JsError_eq_dec : EqDecision JsError.
Proof. solve_decision. Defined.

#[global] Instance Event_eq_dec : EqDecision Event.
Proof. solve_decision. Defined.

Record World := {
  (* fields of the Translator instance *)
  originalTexts : list (NodeRef * TextRecord);
  cache : gmap string string;
  currentLang : string;
  isTranslating : bool;
  (* the page and the browser *)
  textContent : gmap NodeRef string;
  localStorage : gmap string string;
  htmlLang : string;
  loadingEl : option bool;     (* #translationLoading: is it displayed *)
  selectEl : option bool;      (* #languageSelect: is it disabled *)
  requests : nat;              (* number of fetch requests issued so far *)
  events : list Event
}.

Definition set_originalTexts (v : list (NodeRef * TextRecord)) (w : World) : World :=
  {| originalTexts := v; cache := cache w; currentLang := currentLang w;
     isTranslating := isTranslating w; textContent := textContent w;
     localStorage := localStorage w; htmlLang := htmlLang w;
     loadingEl := loadingEl w; selectEl := selectEl w;
     requests := requests w; events := events w |}.

Definition set_cache (v : gmap string string) (w : World) : World :=
  {| originalTexts := originalTexts w; cache := v; currentLang := currentLang w;
     isTranslating := isTranslating w; textContent := textContent w;
     localStorage := localStorage w; htmlLang := htmlLang w;
     loadingEl := loadingEl w; selectEl := selectEl w;
     requests := requests w; events := events w |}.

Definition set_currentLang (v : string) (w : World) : World :=
  {| originalTexts := originalTexts w; cache := cache w; currentLang := v;
     isTranslating := isTranslating w; textContent := textContent w;
     localStorage := localStorage w; htmlLang := htmlLang w;
     loadingEl := loadingEl w; selectEl := selectEl w;
     requests := requests w; events := events w |}.

Definition set_isTranslating (v : bool) (w : World) : World :=
  {| originalTexts := originalTexts w; cache := cache w; currentLang := currentLang w;
     isTranslating := v; textContent := textContent w;
     localStorage := localStorage w; htmlLang := htmlLang w;
     loadingEl := loadingEl w; selectEl := selectEl w;
     requests := requests w; events := events w |}.

Definition set_textContent (v : gmap NodeRef string) (w : World) : World :=
  {| originalTexts := originalTexts w; cache := cache w; currentLang := currentLang w;
     isTranslating := isTranslating w; textContent := v;
     localStorage := localStorage w; htmlLang := htmlLang w;
     loadingEl := loadingEl w; selectEl := selectEl w;
     requests := requests w; events := events w |}.

Definition set_localStorage (v : gmap string string) (w : World) : World :=
  {| originalTexts := originalTexts w; cache := cache w; currentLang := currentLang w;
     isTranslating := isTranslating w; textContent := textContent w;
     localStorage := v; htmlLang := htmlLang w;
     loadingEl := loadingEl w; selectEl := selectEl w;
     requests := requests w; events := events w |}.

Definition set_htmlLang (v : string) (w : World) : World :=
  {| originalTexts := originalTexts w; cache := cache w; currentLang := currentLang w;
     isTranslating := isTranslating w; textContent := textContent w;
     localStorage := localStorage w; htmlLang := v;
     loadingEl := loadingEl w; selectEl := selectEl w;
     requests := requests w; events := events w |}.

Definition set_indicators (l s : option bool) (w : World) : World :=
  {| originalTexts := originalTexts w; cache := cache w; currentLang := currentLang w;
     isTranslating := isTranslating w; textContent := textContent w;
     localStorage := localStorage w; htmlLang := htmlLang w;
     loadingEl := l; selectEl := s;
     requests := requests w; events := events w |}.

Definition set_requests (v : nat) (w : World) : World :=
  {| originalTexts := originalTexts w; cache := cache w; currentLang := currentLang w;
     isTranslating := isTranslating w; textContent := textContent w;
     localStorage := localStorage w; htmlLang := htmlLang w;
     loadingEl := loadingEl w; selectEl := selectEl w;
     requests := v; events := events w |}.

Definition emit (e : Event) (w : World) : World :=
  {| originalTexts := originalTexts w; cache := cache w; currentLang := currentLang w;
     isTranslating := isTranslating w; textContent := textContent w;
     localStorage := localStorage w; htmlLang := htmlLang w;
     loadingEl := loadingEl w; selectEl := selectEl w;
     requests := requests w; events := e :: events w |}.

(** [node.textContent] of a text node. *)
Definition text_of (w : World) (node : NodeRef) : string :=
  default "" (textContent w !! node).

(** [node.textContent = s] *)
Definition write_text (node : NodeRef) (s : string) (w : World) : World :=
  set_textContent (<[node := s]> (textContent w)) w.

(** The state a page load starts from: [new Translator()] (lines 5-11) on a
    page with the given text, storage and indicator elements. *)
Definition new_translator (texts : gmap NodeRef string) (storage : gmap string string)
    (lang : string) (loading select : option bool) : World :=
  {| originalTexts := []; cache := ∅; currentLang := "en"; isTranslating := false;
     textContent := texts; localStorage := storage; htmlLang := lang;
     loadingEl := loading; selectEl := select; requests := 0; events := [] |}.

(** The field [skipSelectors] set by the constructor (line 10). No method
    of the class reads it. *)
Definition skipSelectors : list string :=
  ["script"; "style"; "noscript"; "iframe"; "canvas"; "svg"].

(** ** The insertion-ordered [Map] keyed by node *)

Module NodeMap.

Definition t := list (NodeRef * TextRecord).

Fixpoint get (node : NodeRef) (m : t) : option TextRecord :=
  match m with
  | [] => None
  | (k, v) :: m' => if decide (k = node) then Some v else get node m'
  end.

Definition has (node : NodeRef) (m : t) : bool :=
  match get node m with Some _ => true | None => false end.

(** [Map.prototype.set]: an existing key keeps its position. *)
Fixpoint set (node : NodeRef) (v : TextRecord) (m : t) : t :=
  match m with
  | [] => [(node, v)]
  | (k, v') :: m' =>
      if decide (k = node) then (k, v) :: m' else (k, v') :: set node v m'
  end.

Definition keys (m : t) : list NodeRef := map fst m.

Definition size (m : t) : nat := length m.

End NodeMap.

(** ** Text extraction (lines 12-52) *)

(** The [acceptNode] filter of the tree walker. [parent] is the tag name of
    the parent element and [optedOut] tells whether
    [parent.closest('[data-no-translate]')] finds an element. A text node
    met by the walker always has a parent element. *)
Definition acceptNode (w : World) (parent : string) (optedOut : bool) (node : NodeRef) : bool :=
  if decide (JsString.toLowerCase parent = "option") then false
  else if optedOut then false
  else
    let text := JsString.trim (text_of w node) in
    if negb (JsString.truthy text) || (String.length text <? 2)%nat then false
    else if JsString.is_numeric text then false
    else if JsString.is_url_like text then false
    else true.

(** The nodes returned by successive [walker.nextNode()] calls below an
    element: document order, text nodes only ([NodeFilter.SHOW_TEXT]), each
    with the tag name of its parent element. *)
Fixpoint walk (w : World) (parent : string) (optedOut : bool) (n : Node)
    : list (NodeRef * string) :=
  match n with
  | TextNode ref => if acceptNode w parent optedOut ref then [(ref, parent)] else []
  | CommentNode => []
  | Element tag noTr kids =>
      (fix walk_children (ks : list Node) : list (NodeRef * string) :=
         match ks with
         | [] => []
         | k :: ks' => (walk w tag (optedOut || noTr) k ++ walk_children ks')%list
         end) kids
  end.

Definition walk_body (w : World) (doc : Document) : list (NodeRef * string) :=
  walk w "HTML" (htmlNoTranslate doc)
       (Element "BODY" (bodyNoTranslate doc) (bodyChildren doc)).

(** The [nodes.forEach((node, index) => ...)] loop. *)
Fixpoint record_nodes (w : World) (nodes : list (NodeRef * string)) (index : nat)
    (m : NodeMap.t) : NodeMap.t :=
  match nodes with
  | [] => m
  | (node, parent) :: rest =>
      let text := JsString.trim (text_of w node) in
      let m' :=
        if JsString.truthy text && negb (NodeMap.has node m)
        then NodeMap.set node
               {| id := "text_" +:+ pretty index; original := text;
                  parentTag := JsString.toLowerCase parent |} m
        else m in
      record_nodes w rest (S index) m'
  end.

Definition extractText (doc : Document) (w : World) : World :=
  let nodes := walk_body w doc in
  let m := record_nodes w nodes 0 (originalTexts w) in
  emit (LogFound (NodeMap.size m)) (set_originalTexts m w).

(** ** The remote service *)

(** The JavaScript values a decoded response can hold where the code looks. *)
Inductive JsVal :=
| JUndefined
| JNull
| JBool (b : bool)
| JNum (n : Z)
| JStr (s : string)
| JObject.

Definition js_truthy (v : JsVal) : bool :=
  match v with
  | JUndefined | JNull => false
  | JBool b => b
  | JNum n => negb (n =? 0)%Z
  | JStr s => JsString.truthy s
  | JObject => true
  end.

(** [v !== 200] *)
Definition not_200 (v : JsVal) : bool :=
  match v with
  | JNum n => negb (n =? 200)%Z
  | _ => true
  end.

(** What [await response.json()] gives: a rejection, the value [null], or a
    value [data] seen through [data.responseStatus] and
    [data.responseData?.translatedText] ([None] when [responseData] is
    [null] or [undefined]). *)
Inductive Body :=
| BodyInvalid
| BodyNull
| BodyData (responseStatus : JsVal) (responseData : option JsVal).

Record Response := {
  status : nat;
  body : Body
}.

(** [response.ok]: the status is in the range 200-299. *)
Definition response_ok (r : Response) : bool :=
  (200 <=? status r)%nat && (status r <=? 299)%nat.

Inductive FetchResult :=
| Rejected
| Resolved (r : Response).

(** The environment of a run: what the [n]-th request (counted from 0)
    for a URL is answered, and after which delay the answer arrives. *)
Record Env := {
  fetch : nat -> string -> FetchResult;
  latency : nat -> nat
}.

(** ** Computations: state and exceptions *)

Inductive Completion (A : Type) :=
| Normal (a : A)
| Throw (e : JsError).
Arguments Normal {A} a.
Arguments Throw {A} e.

Definition M (A : Type) : Type := World -> Completion A * World.

Definition ret {A} (a : A) : M A := fun w => (Normal a, w).

Definition bind {A B} (m : M A) (k : A -> M B) : M B :=
  fun w =>
    match m w with
    | (Normal a, w') => k a w'
    | (Throw e, w') => (Throw e, w')
    end.

Definition throw {A} (e : JsError) : M A := fun w => (Throw e, w).

Definition modify (f : World -> World) : M unit := fun w => (Normal tt, f w).

Notation "'let!' x := m 'in' k" := (bind m (fun x => k))
  (at level 10, x pattern, m at level 100, k at level 200).
Notation "m ;; k" := (bind m (fun _ => k))
  (at level 100, k at level 200, right associativity).

(** [try { m } catch (e) { handler e }] *)
Definition try_catch {A} (m : M A) (handler : JsError -> M A) : M A :=
  fun w =>
    match m w with
    | (Normal a, w') => (Normal a, w')
    | (Throw e, w') => handler e w'
    end.

(** [try { m } catch (e) { handler e } finally { final }]: the [finally]
    block runs in every case; the statement completes as the [try] or
    [catch] block did unless the [finally] block itself throws. *)
Definition try_catch_finally {A} (m : M A) (handler : JsError -> M A) (final : M unit) : M A :=
  fun w =>
    let (c, w1) := try_catch m handler w in
    match final w1 with
    | (Normal _, w2) => (c, w2)
    | (Throw e, w2) => (Throw e, w2)
    end.

Definition run {A} (m : M A) (w : World) : World := snd (m w).

(** ** Translation cache and client (lines 110-153) *)

Definition cacheKey (text targetLang : string) : string :=
  text +:+ "_" +:+ targetLang.

Definition localStorageKey (key : string) : string :=
  "translation_" +:+ key.

Definition request_url (text targetLang : string) : string :=
  "https://api.mymemory.translated.net/get?q=" +:+ JsString.encodeURIComponent text
  +:+ "&langpair=en|" +:+ targetLang.

(** Line 143. *)
Definition normalize (translated : string) : string :=
  JsString.trim (JsString.strip_quotes translated).

Definition setItem (key value : string) : M unit :=
  modify (fun w => emit (SetItem key value)
                     (set_localStorage (<[key := value]> (localStorage w)) w)).

(** How far a call gets before it first has to wait: a value found in one
    of the tiers, or a request sent to the service. *)
Inductive Lookup :=
| Hit (value : string)
| Miss (request : nat).

(** Lines 111-131: the part of [getCachedTranslation] that runs before the
    response is awaited. *)
Definition lookup_or_request (text targetLang : string) (w : World) : Lookup * World :=
  let key := cacheKey text targetLang in
  match cache w !! key with
  | Some v => (Hit v, w)
  | None =>
      let skey := localStorageKey key in
      let w1 := emit (GetItem skey) w in
      let request :=
        (Miss (requests w1),
         emit (Fetch (request_url text targetLang)) (set_requests (S (requests w1)) w1)) in
      match localStorage w1 !! skey with
      | Some cached =>
          if JsString.truthy cached
          then (Hit cached, set_cache (<[key := cached]> (cache w1)) w1)
          else request
      | None => request
      end
  end.

(** Lines 133-152: the rest of the [try] block once request [n] is
    answered, and the [catch] clause. *)
Definition handle_response (env : Env) (text targetLang : string) (n : nat) : M string :=
  let key := cacheKey text targetLang in
  try_catch
    (match fetch env n (request_url text targetLang) with
     | Rejected => throw NetworkError
     | Resolved response =>
         if negb (response_ok response) then throw (ApiError (status response))
         else
           match body response with
           | BodyInvalid => throw SyntaxError
           | BodyNull => throw TypeError
           | BodyData responseStatus responseData =>
               let translatedText := default JUndefined responseData in
               if not_200 responseStatus || negb (js_truthy translatedText)
               then modify (emit (WarnIssue text));; ret text
               else
                 match translatedText with
                 | JStr s =>
                     let translated := normalize s in
                     modify (fun w => set_cache (<[key := translated]> (cache w)) w);;
                     setItem (localStorageKey key) translated;;
                     ret translated
                 | _ => throw TypeError
                 end
           end
     end)
    (fun error => modify (emit (WarnFailed text error));; ret text).

Definition getCachedTranslation (env : Env) (text targetLang : string) : M string :=
  fun w =>
    match lookup_or_request text targetLang w with
    | (Hit v, w') => (Normal v, w')
    | (Miss n, w') => handle_response env text targetLang n w'
    end.

(** ** Page mutator (lines 53-109, 154-158) *)

(** Lines 99-101. *)
Definition apply_translation (node : NodeRef) (data : TextRecord) (translated : string)
    : M unit :=
  if JsString.truthy translated && negb (bool_decide (translated = original data))
  then modify (write_text node translated)
  else ret tt.

(** The callback of [batch.map] (lines 95-102) run on its own, from its
    call to the end. Its nodes are keys of [originalTexts], for which [get]
    finds a record; on [undefined] the property access would throw. *)
Definition translate_node (env : Env) (targetLang : string) (node : NodeRef) : M string :=
  fun w =>
    match NodeMap.get node (originalTexts w) with
    | None => (Throw TypeError, w)
    | Some data =>
        (let! translated := getCachedTranslation env (original data) targetLang in
         apply_translation node data translated;;
         ret translated) w
    end.

(** A callback that has run up to its first wait. *)
Record Task := {
  task_node : NodeRef;
  task_data : TextRecord;
  task_lookup : Lookup
}.

(** [batch.map(async (node) => ...)] calls the callbacks one after the
    other; each runs until it has to wait (lines 96-97 and 111-131). *)
Fixpoint start_all (targetLang : string) (batch : list NodeRef) : M (list Task) :=
  match batch with
  | [] => ret []
  | node :: rest =>
      fun w =>
        match NodeMap.get node (originalTexts w) with
        | None => (Throw TypeError, w)
        | Some data =>
            let (l, w') := lookup_or_request (original data) targetLang w in
            (let! tasks := start_all targetLang rest in
             ret ({| task_node := node; task_data := data; task_lookup := l |} :: tasks)) w'
        end
  end.

(** The rest of a callback: the translation it waited for (lines 133-152
    when a request was sent), then lines 99-101. The value it received is
    returned for the record. *)
Definition complete (env : Env) (targetLang : string) (t : Task) : M (NodeRef * string) :=
  let! translated :=
    match task_lookup t with
    | Hit v => ret v
    | Miss n => handle_response env (original (task_data t)) targetLang n
    end in
  apply_translation (task_node t) (task_data t) translated;;
  ret (task_node t, translated).

Fixpoint complete_all (env : Env) (targetLang : string) (ts : list Task)
    : M (list (NodeRef * string)) :=
  match ts with
  | [] => ret []
  | t :: ts' =>
      let! r := complete env targetLang t in
      let! rs := complete_all env targetLang ts' in
      ret (r :: rs)
  end.

(** When a waiting callback resumes: at once when its value came from a
    cache tier, otherwise when the response to its request arrives. *)
Definition arrival (env : Env) (t : Task) : nat :=
  match task_lookup t with
  | Hit _ => 0
  | Miss n => S (latency env n)
  end.

Definition arrives_before (env : Env) (t1 t2 : Task) : Prop :=
  arrival env t1 <= arrival env t2.

#[global] Instance arrives_before_dec env t1 t2 : Decision (arrives_before env t1 t2).
Proof. unfold arrives_before. apply _. Defined.

(** [await Promise.all(batch.map(...))]: all callbacks are started, then
    they resume in the order in which their translations become
    available. *)
Definition run_batch (env : Env) (targetLang : string) (batch : list NodeRef)
    : M (list (NodeRef * string)) :=
  let! tasks := start_all targetLang batch in
  complete_all env targetLang (merge_sort (arrives_before env) tasks).

Definition sleep (ms : nat) : M unit := modify (emit (Sleep ms)).

Definition batchSize : nat := 8.

(** [nodes.slice(i, j)] *)
Definition slice {A} (i j : nat) (l : list A) : list A := take (j - i) (drop i l).

(** The [for] loop of lines 91-108, with [i] its counter. Each turn
    consumes one unit of [fuel]; [translateToLanguage] provides as many as
    there are nodes, which the loop never exhausts. *)
Fixpoint translate_loop (env : Env) (targetLang : string) (nodes : list NodeRef)
    (fuel i : nat) : M (list (NodeRef * string)) :=
  if (i <? length nodes)%nat then
    match fuel with
    | O => ret []
    | S fuel' =>
        let batch := slice i (i + batchSize) nodes in
        let! r := run_batch env targetLang batch in
        (if (i + batchSize <? length nodes)%nat then sleep 300 else ret tt);;
        let! rs := translate_loop env targetLang nodes fuel' (i + batchSize) in
        ret (r ++ rs)%list
    end
  else ret [].

Definition translateToLanguage (env : Env) (targetLang : string)
    : M (list (NodeRef * string)) :=
  fun w =>
    let nodes := NodeMap.keys (originalTexts w) in
    translate_loop env targetLang nodes (length nodes) 0 w.

(** Lines 154-158. *)
Definition restoreOriginal : M unit :=
  modify (fun w =>
    fold_left (fun w' '(node, data) => write_text node (original data) w')
              (originalTexts w) w).

(** Lines 53-59; an element that is not in the page is left out. *)
Definition setLoading (show : bool) : M unit :=
  modify (fun w =>
    set_indicators ((fun _ => show) <$> loadingEl w) ((fun _ => show) <$> selectEl w) w).

(** The [try] block of [translatePage] (lines 68-78). *)
Definition translatePage_try (env : Env) (targetLang : string) : M unit :=
  (if decide (targetLang = "en") then restoreOriginal
   else (translateToLanguage env targetLang;; ret tt));;
  modify (set_currentLang targetLang);;
  modify (set_htmlLang targetLang);;
  setItem "site_language" targetLang;;
  modify (emit (LogSuccess targetLang)).

(** Lines 61-86 around a given [try] block. *)
Definition translatePage_around (block : M unit) (targetLang : string) : M unit :=
  fun w =>
    if isTranslating w || bool_decide (targetLang = currentLang w) then (Normal tt, w)
    else
      (modify (set_isTranslating true);;
       setLoading true;;
       try_catch_finally
         block
         (fun error => modify (emit (ErrorFailed error)))
         (modify (set_isTranslating false);; setLoading false)) w.

Definition translatePage (env : Env) (targetLang : string) : M unit :=
  translatePage_around (translatePage_try env targetLang) targetLang.

(** ** Vocabulary of the properties *)

Fixpoint has_underscore (s : string) : bool :=
  match s with
  | "" => false
  | String c s' => bool_decide (c = "_"%char) || has_underscore s'
  end.

Definition memory_miss (w : World) (text lang : string) : Prop :=
  cache w !! cacheKey text lang = None.

(** The persisted tier misses when [getItem] gives [null] or a falsy
    string. *)
Definition persisted_miss (w : World) (text lang : string) : Prop :=
  forall v, localStorage w !! localStorageKey (cacheKey text lang) = Some v -> v = "".

(** The answers of the service, as the specification sorts them. *)
Inductive remote_success : FetchResult -> string -> Prop :=
| success_200 st t :
    200 <= st <= 299 -> t <> "" ->
    remote_success
      (Resolved {| status := st; body := BodyData (JNum 200) (Some (JStr t)) |}) t.

Inductive remote_failure : FetchResult -> Prop :=
| failure_network :
    remote_failure Rejected
| failure_http st b :
    ~ (200 <= st <= 299) ->
    remote_failure (Resolved {| status := st; body := b |})
| failure_parse st :
    remote_failure (Resolved {| status := st; body := BodyInvalid |})
| failure_null st :
    remote_failure (Resolved {| status := st; body := BodyNull |})
| failure_status st rs rd :
    rs <> JNum 200 ->
    remote_failure (Resolved {| status := st; body := BodyData rs rd |})
| failure_missing st rs rd :
    js_truthy (default JUndefined rd) = false ->
    remote_failure (Resolved {| status := st; body := BodyData rs rd |})
| failure_not_text st rs v :
    (forall s, v <> JStr s) ->
    remote_failure (Resolved {| status := st; body := BodyData rs (Some v) |}).

(** The state in which the answer to a request is awaited. *)
Definition requesting (text lang : string) (w : World) : World :=
  emit (Fetch (request_url text lang))
    (set_requests (S (requests w))
       (emit (GetItem (localStorageKey (cacheKey text lang))) w)).

(** After a successful request the normalized text is written to both
    tiers and returned. *)
Definition stored (text lang value : string) (w : World) : World :=
  emit (SetItem (localStorageKey (cacheKey text lang)) value)
    (set_localStorage (<[localStorageKey (cacheKey text lang) := value]> (localStorage w))
       (set_cache (<[cacheKey text lang := value]> (cache w)) w)).

(** What a call of [getCachedTranslation] leaves alone: the translator's
    record of the page, the page itself, and every cache entry under
    another key. *)
Definition cache_frame (text lang : string) (w w' : World) : Prop :=
  originalTexts w' = originalTexts w
  /\ textContent w' = textContent w
  /\ currentLang w' = currentLang w
  /\ isTranslating w' = isTranslating w
  /\ htmlLang w' = htmlLang w
  /\ loadingEl w' = loadingEl w
  /\ selectEl w' = selectEl w
  /\ (forall k, k <> cacheKey text lang -> cache w' !! k = cache w !! k)
  /\ (forall k, k <> localStorageKey (cacheKey text lang) ->
                localStorage w' !! k = localStorage w !! k).

Definition lookup_value (l : Lookup) : option string :=
  match l with
  | Hit v => Some v
  | Miss _ => None
  end.

(** The filter, in the words of the specification. *)
Definition eligible_text (text : string) : Prop :=
  2 <= String.length text
  /\ JsString.is_numeric text = false
  /\ JsString.is_url_like text = false.

(** What translating leaves alone: the recorded nodes, the current
    language, the busy flag, the language attribute and the indicators. *)
Definition page_frame (w w' : World) : Prop :=
  originalTexts w' = originalTexts w
  /\ currentLang w' = currentLang w
  /\ isTranslating w' = isTranslating w
  /\ htmlLang w' = htmlLang w
  /\ loadingEl w' = loadingEl w
  /\ selectEl w' = selectEl w.

(** What a node shows after its callback received [translated]. *)
Definition shown_after (data : TextRecord) (translated before : string) : string :=
  if JsString.truthy translated && negb (bool_decide (translated = original data))
  then translated else before.

(** The batches of a run, in the words of the specification: the nodes cut
    into consecutive groups of [batchSize]. *)
Fixpoint batches_aux (fuel : nat) (nodes : list NodeRef) : list (list NodeRef) :=
  match fuel with
  | O => []
  | S fuel' =>
      match nodes with
      | [] => []
      | _ :: _ => take batchSize nodes :: batches_aux fuel' (drop batchSize nodes)
      end
  end.

Definition batches (nodes : list NodeRef) : list (list NodeRef) :=
  batches_aux (length nodes) nodes.

(** A run, in the words of the specification: the batches one after the
    other, with a pause of 300 ms after each batch but the last. *)
Fixpoint run_batches (env : Env) (targetLang : string) (bs : list (list NodeRef))
    : M (list (NodeRef * string)) :=
  match bs with
  | [] => ret []
  | b :: bs' =>
      let! r := run_batch env targetLang b in
      (match bs' with [] => ret tt | _ :: _ => sleep 300 end);;
      let! rs := run_batches env targetLang bs' in
      ret (r ++ rs)%list
  end.

(** The pauses recorded in a log, newest first. *)
Fixpoint pauses (es : list Event) : list nat :=
  match es with
  | [] => []
  | Sleep ms :: es' => ms :: pauses es'
  | _ :: es' => pauses es'
  end.

(** A computation that never pauses. *)
Definition quiet {A} (m : M A) : Prop :=
  forall w, pauses (events (snd (m w))) = pauses (events w).

(** The value a call gets from its request, the [n]-th one: the normalized
    translation of a successful answer, the text itself after a failing
    one. *)
Inductive answered (env : Env) (text lang : string) (n : nat) : string -> Prop :=
| answered_success t :
    remote_success (fetch env n (request_url text lang)) t ->
    answered env text lang n (normalize t)
| answered_failure :
    remote_failure (fetch env n (request_url text lang)) ->
    answered env text lang n text.

(** The translation result of a text in a run that leads from [w] to
    [w'], by the three ways through [getCachedTranslation]: the value that
    the memory tier of [w] holds for the text; or else the non-empty value
    that the persisted tier of [w] holds; or else, both tiers missing, the
    answer to a request sent during the run for this text. *)
Inductive resolved (env : Env) (lang : string) (w w' : World) (text : string)
    : string -> Prop :=
| resolved_memory v :
    cache w !! cacheKey text lang = Some v ->
    resolved env lang w w' text v
| resolved_persisted v :
    memory_miss w text lang ->
    localStorage w !! localStorageKey (cacheKey text lang) = Some v ->
    v <> "" ->
    resolved env lang w w' text v
| resolved_remote n r :
    memory_miss w text lang ->
    persisted_miss w text lang ->
    requests w <= n < requests w' ->
    answered env text lang n r ->
    resolved env lang w w' text r.

(** In a run that started in [w], the tiers of a later state [w1] hold for
    a text nothing but its translation results, and they miss it only if
    the tiers of [w] did. *)
Definition tiers_resolved (env : Env) (lang : string) (w w1 : World) : Prop :=
  requests w <= requests w1
  /\ forall text,
       (forall v, cache w1 !! cacheKey text lang = Some v ->
                  resolved env lang w w1 text v)
       /\ (memory_miss w1 text lang ->
           (forall v, localStorage w1 !! localStorageKey (cacheKey text lang) = Some v ->
                      v <> "" -> resolved env lang w w1 text v)
           /\ (persisted_miss w1 text lang ->
               memory_miss w text lang /\ persisted_miss w text lang)).

(** A waiting callback holds a translation result, or a request of the
    run that will give one. *)
Definition task_resolved (env : Env) (lang : string) (w w1 : World) (t : Task) : Prop :=
  match task_lookup t with
  | Hit v => resolved env lang w w1 (original (task_data t)) v
  | Miss n =>
      requests w <= n < requests w1
      /\ memory_miss w (original (task_data t)) lang
      /\ persisted_miss w (original (task_data t)) lang
  end.

(** ** Inputs of the examples *)

Definition quoted (s : string) : string :=
  String JsString.quote (s +:+ String JsString.quote "").

Definition ok_response (translatedText : string) : FetchResult :=
  Resolved {| status := 200;
              body := BodyData (JNum 200) (Some (JStr translatedText)) |}.

(** A service that always answers with the same translated text. *)
Definition service (translatedText : string) : Env :=
  {| fetch := fun _ _ => ok_response translatedText; latency := fun n => n |}.

(** A service that is down. *)
Definition service_down : Env :=
  {| fetch := fun _ _ => Resolved {| status := 503; body := BodyInvalid |};
     latency := fun n => n |}.

(** A page that has just been loaded, with nothing stored. *)
Definition fresh_page (texts : gmap NodeRef string) : World :=
  new_translator texts ∅ "en" (Some false) (Some false).

(** A later visit: a new page and a new translator over the storage left
    by [w]. *)
Definition reload (w : World) : World :=
  new_translator (textContent w) (localStorage w) (htmlLang w) (Some false) (Some false).

(** A page whose body holds one element, with one text node in it. *)
Definition page_with (tag : string) : Document :=
  {| htmlNoTranslate := false; bodyNoTranslate := false;
     bodyChildren := [Element tag false [TextNode 0]] |}.

(** A page with nine recorded paragraphs. *)
Definition nine_nodes : World :=
  set_originalTexts
    (map (fun n => (n, {| id := "text_" +:+ pretty n; original := "Hello";
                          parentTag := "p" |})) (seq 0 9))
    (fresh_page (list_to_map (map (fun n => (n, "Hello")) (seq 0 9)))).

(** A page whose paragraph is already in the target language. *)
Definition same_text_page : World :=
  set_originalTexts [(0, {| id := "text_0"; original := "Menu"; parentTag := "p" |})]
    (fresh_page {[ 0 := " Menu " ]}).

(** The paragraph of the scenario of the specification, as it stands in a
    page: with white space around its text. *)
Definition hello_doc : Document :=
  {| htmlNoTranslate := false; bodyNoTranslate := false;
     bodyChildren := [Element "P" false [TextNode 0]] |}.

Definition hello_page : World := fresh_page {[ 0 := " Hello world " ]}.

(** A sentence with a link in its middle: three text nodes, the spaces
    between the words at the ends of the outer two. *)
Definition docs_doc : Document :=
  {| htmlNoTranslate := false; bodyNoTranslate := false;
     bodyChildren :=
       [Element "P" false [TextNode 0; Element "A" false [TextNode 1]; TextNode 2]] |}.

Definition docs_page : World :=
  fresh_page (list_to_map [(0, "Read the "); (1, "docs"); (2, " now")]).

(** ** Vocabulary of the further properties *)

(** The record a new extraction makes for the node found at position
    [index] (lines 43-47). *)
Definition record_of (w : World) (index : nat) (found : NodeRef * string)
    : NodeRef * TextRecord :=
  (fst found,
   {| id := "text_" +:+ pretty index;
      original := JsString.trim (text_of w (fst found));
      parentTag := JsString.toLowerCase (snd found) |}).

(** The identifiers of the records. *)
Definition ids (m : NodeMap.t) : list string := map (fun entry => id (snd entry)) m.

(** A relation between the state before and the state after that a
    computation keeps, however it completes. *)
Definition steps (R : World -> World -> Prop) {A} (m : M A) : Prop :=
  forall w, R w (snd (m w)).

(** The memory tier mirrors the persisted tier: what it holds under a key
    is what the storage holds under the storage key of that key. *)
Definition coherent (w : World) : Prop :=
  forall k v, cache w !! k = Some v -> localStorage w !! localStorageKey k = Some v.

(** The state in which [translatePage] enters its [try] block (lines
    64-65). *)
Definition entered (w : World) : World :=
  run (setLoading true) (set_isTranslating true w).

(** The state in which [translatePage] returns when its [try] block left
    [w] behind just before line 74: lines 74-78 and the [finally] clause. *)
Definition switched (lang : string) (w : World) : World :=
  run (modify (set_isTranslating false);; setLoading false)
    (run (modify (set_currentLang lang);;
          modify (set_htmlLang lang);;
          setItem "site_language" lang;;
          modify (emit (LogSuccess lang))) w).

(** The calls a page makes on its translator, each awaited before the
    next. *)
Inductive Call :=
| CallExtractText (doc : Document)
| CallTranslatePage (env : Env) (lang : string).

Definition perform (w : World) (c : Call) : World :=
  match c with
  | CallExtractText doc => extractText doc w
  | CallTranslatePage env lang => run (translatePage env lang) w
  end.

Definition after_calls (calls : list Call) (w : World) : World :=
  fold_left perform calls w.

(** The language that was switched to last is the one the page declares
    and the one that is stored as the preference. *)
Definition preference_kept (w : World) : Prop :=
  htmlLang w = currentLang w
  /\ localStorage w !! "site_language" = Some (currentLang w).

(** What holds between two calls. *)
Definition settled (w : World) : Prop :=
  NoDup (NodeMap.keys (originalTexts w))
  /\ isTranslating w = false
  /\ coherent w
  /\ (currentLang w = "en" \/ preference_kept w).

(** A computation that sends at most [k] requests. *)
Definition sends_at_most (k : nat) {A} (m : M A) : Prop :=
  forall w, requests w <= requests (snd (m w)) <= requests w + k.

(** A service that answers every request with a translation, and one that
    answers none. *)
Definition always_succeeds (env : Env) : Prop :=
  forall n url, exists t, remote_success (fetch env n url) t.

Definition always_fails (env : Env) : Prop :=
  forall n url, remote_failure (fetch env n url).

(** The memory tier holds a value for the text of every recorded node. *)
Definition all_cached (lang : string) (w : World) : Prop :=
  forall node data,
    NodeMap.get node (originalTexts w) = Some data ->
    is_Some (cache w !! cacheKey (original data) lang).

(** Neither tier holds a value for the text of any recorded node. *)
Definition none_cached (lang : string) (w : World) : Prop :=
  forall node data,
    NodeMap.get node (originalTexts w) = Some data ->
    memory_miss w (original data) lang /\ persisted_miss w (original data) lang.

(** The memory tier loses no key. *)
Definition cache_grows (w w' : World) : Prop :=
  forall k, is_Some (cache w !! k) -> is_Some (cache w' !! k).

(** A task whose value came from a cache tier has it in the memory tier. *)
Definition ready (lang : string) (w : World) (t : Task) : Prop :=
  match task_lookup t with
  | Hit _ => is_Some (cache w !! cacheKey (original (task_data t)) lang)
  | Miss _ => True
  end.

(** Two states that differ in the text of the page at most. *)
Definition only_text (w w' : World) : Prop :=
  w' = set_textContent (textContent w') w.

(** Two states with the same records, cache tiers and request count. *)
Definition same_tiers (w w' : World) : Prop :=
  originalTexts w' = originalTexts w
  /\ cache w' = cache w
  /\ localStorage w' = localStorage w
  /\ requests w' = requests w.

(** Two states with the same records, cache tiers and page text. *)
Definition untouched (w w' : World) : Prop :=
  originalTexts w' = originalTexts w
  /\ cache w' = cache w
  /\ localStorage w' = localStorage w
  /\ textContent w' = textContent w.

(** Every value of the memory tier is a non-empty string. *)
Definition nonempty_cache (w : World) : Prop :=
  forall k v, cache w !! k = Some v -> v <> "".

(** A service whose translations are not empty once normalized. *)
Definition never_blank (env : Env) : Prop :=
  forall n url t, remote_success (fetch env n url) t -> normalize t <> "".

(** One of the tiers holds a value that a lookup accepts for the text of
    every recorded node. *)
Definition all_stored (lang : string) (w : World) : Prop :=
  forall node data,
    NodeMap.get node (originalTexts w) = Some data ->
    is_Some (cache w !! cacheKey (original data) lang)
    \/ exists v, v <> ""
         /\ localStorage w !! localStorageKey (cacheKey (original data) lang) = Some v.

(** Two states with the same records, storage and request count, the
    second with at least the keys of the first in its memory tier. *)
Definition served (w w' : World) : Prop :=
  originalTexts w' = originalTexts w
  /\ localStorage w' = localStorage w
  /\ requests w' = requests w
  /\ cache_grows w w'.

(** ** Page load (lines 160-185) *)

(** [localStorage.getItem('site_language') || 'en'] *)
Definition savedLang (storage : gmap string string) : string :=
  match storage !! "site_language" with
  | Some s => if JsString.truthy s then s else "en"
  | None => "en"
  end.

(** The selector built on line 169: the saved language between quotes. *)
Definition option_selector (lang : string) : string :=
  "option[value=" +:+ String JsString.quote (lang +:+ String JsString.quote "]").

(** What the handler of [DOMContentLoaded] leaves behind: how it
    completed, the callbacks it handed to [setTimeout] with their delays in
    the order of the calls, the value it gave to the select element if it
    did, and whether it registered the [change] listener and set
    [window.translator]. *)
Record Loaded := {
  outcome : Completion unit;
  timers : list (nat * Call);
  selectValue : option string;
  listening : bool;
  exposed : bool
}.

(** The handler. [querySelector] is what [languageSelect.querySelector]
    does with a selector on this page: it finds an option or not, or
    throws; [doc] and [env] are the document and the service met by the
    callbacks of the timers. A page without [#languageSelect] makes
    [languageSelect] the value [null], and line 169 throws. *)
Definition onDOMContentLoaded (env : Env) (doc : Document)
    (querySelector : string -> Completion bool)
    (texts : gmap NodeRef string) (storage : gmap string string) (pageLang : string)
    (loading select : option bool) : Loaded * World :=
  let translator := new_translator texts storage pageLang loading select in
  let extraction := (500, CallExtractText doc) in
  let w := emit (GetItem "site_language") translator in
  let saved := savedLang storage in
  let thrown e :=
    {| outcome := Throw e; timers := [extraction]; selectValue := None;
       listening := false; exposed := false |} in
  match select with
  | None => (thrown TypeError, w)
  | Some _ =>
      match querySelector (option_selector saved) with
      | Throw e => (thrown e, w)
      | Normal found =>
          ({| outcome := Normal tt;
              timers :=
                extraction ::
                  (if decide (saved = "en") then []
                   else [(1000, CallTranslatePage env saved)]);
              selectValue := if found then Some saved else None;
              listening := true;
              exposed := true |},
           if found then set_htmlLang saved w else w)
      end
  end.

(** Timers fire in the order of their delays, and in the order in which
    they were set when the delays are equal. *)
Definition fires_before (t1 t2 : nat * Call) : Prop := fst t1 <= fst t2.

#[global] Instance fires_before_dec t1 t2 : Decision (fires_before t1 t2).
Proof. unfold fires_before. apply _. Defined.

(** The page once the handler has run and its timers have fired, when
    nothing else calls the translator in between. *)
Definition page_after_load (env : Env) (doc : Document)
    (querySelector : string -> Completion bool)
    (texts : gmap NodeRef string) (storage : gmap string string) (pageLang : string)
    (loading select : option bool) : World :=
  let (loaded, w) :=
    onDOMContentLoaded env doc querySelector texts storage pageLang loading select in
  after_calls (map snd (merge_sort fires_before (timers loaded))) w.

(** * Properties *)

(** ** Strings *)

Lemma strip_trailing_quote_snoc (s : string) :
  JsString.strip_trailing_quote (s +:+ String JsString.quote "") = s.
Proof.
  induction s as [|c s IH]; simpl.
  - destruct (decide (JsString.quote = JsString.quote)); congruence.
  - destruct s as [|c' s']; simpl in *.
    + destruct (decide (JsString.quote = JsString.quote)); congruence.
    + rewrite IH. reflexivity.
Qed.

(** A text wrapped in a pair of quotes loses exactly that pair. *)
Lemma strip_quotes_wrapped (s : string) :
  JsString.strip_quotes (String JsString.quote (s +:+ String JsString.quote "")) = s.
Proof.
  unfold JsString.strip_quotes. simpl.
  destruct (decide (JsString.quote = JsString.quote)); [|congruence].
  apply strip_trailing_quote_snoc.
Qed.

Lemma has_underscore_middle (a b : string) :
  has_underscore (a +:+ String "_" b) = true.
Proof.
  induction a as [|c a IH]; simpl.
  - reflexivity.
  - rewrite IH. apply orb_true_r.
Qed.

Lemma cacheKey_eq (text lang : string) :
  cacheKey text lang = text +:+ String "_" lang.
Proof. reflexivity. Qed.

(** The separator of the cache key can be told from the texts around it as
    long as the language code has no underscore of its own. *)
Lemma cacheKey_inj (text1 lang1 text2 lang2 : string) :
  has_underscore lang1 = false ->
  has_underscore lang2 = false ->
  cacheKey text1 lang1 = cacheKey text2 lang2 ->
  text1 = text2 /\ lang1 = lang2.
Proof.
  rewrite !cacheKey_eq. intros H1 H2.
  revert text2. induction text1 as [|c t1 IH]; intros [|c' t2] E; simpl in E.
  - injection E as El. auto.
  - injection E as _ El. rewrite El, has_underscore_middle in H1. discriminate.
  - injection E as _ El. rewrite <- El, has_underscore_middle in H2. discriminate.
  - injection E as Ec Et. destruct (IH _ Et) as [Ht Hl]. subst. auto.
Qed.

Lemma localStorageKey_inj (k1 k2 : string) :
  localStorageKey k1 = localStorageKey k2 -> k1 = k2.
Proof. unfold localStorageKey. intros E. injection E as E. exact E. Qed.

(** A cached translation never lands on the key of the language
    preference. *)
Lemma localStorageKey_not_preference (k : string) :
  localStorageKey k <> "site_language".
Proof. unfold localStorageKey. intros E. discriminate E. Qed.

(** ** The two cache tiers *)

(** Every answer is a success or a failure. *)
Lemma remote_success_or_failure (r : FetchResult) :
  (exists t, remote_success r t) \/ remote_failure r.
Proof.
  destruct r as [|[st b]]; [right; apply failure_network|].
  destruct (decide (200 <= st <= 299)) as [Hst|Hst]; [|right; by apply failure_http].
  destruct b as [| |rs rd]; [right; apply failure_parse|right; apply failure_null|].
  assert (Hdec : {rs = JNum 200} + {rs <> JNum 200}).
  { destruct rs as [| | |n| |]; try (right; discriminate).
    destruct (decide (n = 200%Z)) as [->|Hn]; [by left|right; congruence]. }
  destruct Hdec as [->|Hrs]; [|right; by apply failure_status].
  destruct rd as [v|]; [|right; by apply failure_missing].
  destruct v as [| |b|n|s|]; try (right; apply failure_not_text; discriminate).
  destruct (decide (s = "")) as [->|Hs]; [right; by apply failure_missing|].
  left. exists s. by constructor.
Qed.

Lemma not_200_false (v : JsVal) : not_200 v = false <-> v = JNum 200.
Proof.
  destruct v; simpl; split; try discriminate; try congruence.
  - intros H. apply negb_false_iff, Z.eqb_eq in H. by subst.
  - intros [= ->]. reflexivity.
Qed.

Lemma response_ok_true (r : Response) : response_ok r = true <-> 200 <= status r <= 299.
Proof.
  unfold response_ok. rewrite andb_true_iff, !Nat.leb_le. reflexivity.
Qed.

Lemma truthy_false (s : string) : JsString.truthy s = false <-> s = "".
Proof. destruct s; simpl; split; congruence. Qed.

Lemma lookup_memory_hit (text lang v : string) (w : World) :
  cache w !! cacheKey text lang = Some v ->
  lookup_or_request text lang w = (Hit v, w).
Proof. intros H. unfold lookup_or_request. rewrite H. reflexivity. Qed.

Lemma lookup_persisted_hit (text lang v : string) (w : World) :
  memory_miss w text lang ->
  localStorage w !! localStorageKey (cacheKey text lang) = Some v ->
  v <> "" ->
  lookup_or_request text lang w =
    (Hit v, set_cache (<[cacheKey text lang := v]> (cache w))
              (emit (GetItem (localStorageKey (cacheKey text lang))) w)).
Proof.
  intros Hm Hp Hv. unfold lookup_or_request. rewrite Hm. simpl. rewrite Hp.
  destruct v; [congruence|reflexivity].
Qed.

Lemma lookup_miss (text lang : string) (w : World) :
  memory_miss w text lang ->
  persisted_miss w text lang ->
  lookup_or_request text lang w = (Miss (requests w), requesting text lang w).
Proof.
  intros Hm Hp. unfold lookup_or_request. rewrite Hm. simpl.
  destruct (localStorage w !! _) as [v|] eqn:E; [|reflexivity].
  rewrite (Hp v E). reflexivity.
Qed.

(** After a failed request the text comes back and only a warning is left. *)
Lemma handle_response_failure (env : Env) (text lang : string) (n : nat) (w : World) :
  remote_failure (fetch env n (request_url text lang)) ->
  exists warning,
    handle_response env text lang n w = (Normal text, emit warning w)
    /\ (warning = WarnIssue text \/ exists e, warning = WarnFailed text e).
Proof.
  intros Hf. unfold handle_response, try_catch.
  inversion Hf as [|st b Hst E|st E|st E|st rs rd Hrs E|st rs rd Hm E|st rs v Hv E];
    clear Hf; simpl.
  - eexists; split; [reflexivity|eauto].
  - destruct (response_ok _) eqn:Hok; simpl.
    + apply response_ok_true in Hok. simpl in Hok. contradiction.
    + eexists; split; [reflexivity|eauto].
  - destruct (response_ok _); simpl; eexists; (split; [reflexivity|eauto]).
  - destruct (response_ok _); simpl; eexists; (split; [reflexivity|eauto]).
  - destruct (response_ok _); simpl; [|eexists; (split; [reflexivity|eauto])].
    destruct (not_200 rs) eqn:H200; [|apply not_200_false in H200; contradiction].
    simpl. eexists; split; [reflexivity|eauto].
  - destruct (response_ok _); simpl; [|eexists; (split; [reflexivity|eauto])].
    rewrite Hm, orb_true_r. simpl. eexists; split; [reflexivity|eauto].
  - destruct (response_ok _); simpl; [|eexists; (split; [reflexivity|eauto])].
    destruct (not_200 rs || negb (js_truthy v)); simpl;
      [eexists; split; [reflexivity|eauto]|].
    destruct v; try (eexists; split; [reflexivity|eauto]).
    exfalso. by eapply Hv.
Qed.

Lemma handle_response_success (env : Env) (text lang t : string) (n : nat) (w : World) :
  remote_success (fetch env n (request_url text lang)) t ->
  handle_response env text lang n w = (Normal (normalize t), stored text lang (normalize t) w).
Proof.
  intros Hs. unfold handle_response, try_catch.
  inversion Hs as [st t' Hst Ht E]; subst t'; clear Hs.
  assert (Hok : response_ok {| status := st; body := BodyData (JNum 200) (Some (JStr t)) |} = true)
    by (by apply response_ok_true).
  rewrite Hok. simpl.
  destruct (JsString.truthy t) eqn:Htr; [|apply truthy_false in Htr; contradiction].
  reflexivity.
Qed.

(** Every way through [lookup_or_request]. *)
Lemma lookup_or_request_cases (text lang : string) (w : World) :
  (exists v, cache w !! cacheKey text lang = Some v
             /\ lookup_or_request text lang w = (Hit v, w))
  \/ (exists v, memory_miss w text lang
                /\ localStorage w !! localStorageKey (cacheKey text lang) = Some v
                /\ v <> ""
                /\ lookup_or_request text lang w =
                     (Hit v, set_cache (<[cacheKey text lang := v]> (cache w))
                               (emit (GetItem (localStorageKey (cacheKey text lang))) w)))
  \/ (memory_miss w text lang /\ persisted_miss w text lang
      /\ lookup_or_request text lang w = (Miss (requests w), requesting text lang w)).
Proof.
  destruct (cache w !! cacheKey text lang) as [v|] eqn:Hc.
  - left. exists v. split; [reflexivity|]. by apply lookup_memory_hit.
  - right.
    destruct (localStorage w !! localStorageKey (cacheKey text lang)) as [v|] eqn:Hs.
    + destruct (decide (v = "")) as [->|Hv].
      * right. assert (Hp : persisted_miss w text lang).
        { intros v' Hv'. congruence. }
        split; [exact Hc|]. split; [exact Hp|]. by apply lookup_miss.
      * left. exists v. split; [exact Hc|]. split; [reflexivity|]. split; [exact Hv|].
        by apply lookup_persisted_hit.
    + right. assert (Hp : persisted_miss w text lang).
      { intros v' Hv'. congruence. }
      split; [exact Hc|]. split; [exact Hp|]. by apply lookup_miss.
Qed.

(** Every way through [handle_response]. *)
Lemma handle_response_cases (env : Env) (text lang : string) (n : nat) (w : World) :
  (exists t, remote_success (fetch env n (request_url text lang)) t
             /\ handle_response env text lang n w =
                  (Normal (normalize t), stored text lang (normalize t) w))
  \/ (exists warning, remote_failure (fetch env n (request_url text lang))
                      /\ handle_response env text lang n w = (Normal text, emit warning w)).
Proof.
  destruct (remote_success_or_failure (fetch env n (request_url text lang))) as [[t Ht]|Hf].
  - left. exists t. split; [exact Ht|]. by apply handle_response_success.
  - right. destruct (handle_response_failure env text lang n w Hf) as (wn & E & _).
    exists wn. auto.
Qed.

Lemma lookup_or_request_frame (text lang : string) (w : World) :
  cache_frame text lang w (snd (lookup_or_request text lang w)).
Proof.
  destruct (lookup_or_request_cases text lang w)
    as [(v & _ & ->)|[(v & _ & _ & _ & ->)|(_ & _ & ->)]];
    repeat split; simpl; try reflexivity; intros k Hk; try reflexivity.
  by rewrite lookup_insert_ne.
Qed.

Lemma handle_response_frame (env : Env) (text lang : string) (n : nat) (w : World) :
  cache_frame text lang w (snd (handle_response env text lang n w))
  /\ requests (snd (handle_response env text lang n w)) = requests w.
Proof.
  destruct (handle_response_cases env text lang n w) as [(t & _ & ->)|(wn & _ & ->)];
    repeat split; simpl; try reflexivity; intros k Hk; try reflexivity;
    by rewrite lookup_insert_ne.
Qed.

Lemma getCachedTranslation_unfold (env : Env) (text lang : string) (w : World) :
  getCachedTranslation env text lang w =
    match lookup_or_request text lang w with
    | (Hit v, w') => (Normal v, w')
    | (Miss n, w') => handle_response env text lang n w'
    end.
Proof. reflexivity. Qed.

Lemma getCachedTranslation_frame (env : Env) (text lang : string) (w : World) :
  cache_frame text lang w (run (getCachedTranslation env text lang) w).
Proof.
  unfold run. rewrite getCachedTranslation_unfold.
  pose proof (lookup_or_request_frame text lang w) as Hl.
  destruct (lookup_or_request text lang w) as [[v|n] w1]; simpl in *; [exact Hl|].
  destruct (handle_response_frame env text lang n w1) as [Hh _].
  unfold cache_frame in *.
  destruct Hl as (?&?&?&?&?&?&?&Hc1&Hs1), Hh as (?&?&?&?&?&?&?&Hc2&Hs2).
  repeat split; try congruence.
  - intros k Hk. rewrite Hc2, Hc1; auto.
  - intros k Hk. rewrite Hs2, Hs1; auto.
Qed.

(** [getCachedTranslation] never throws. *)
Lemma getCachedTranslation_returns (env : Env) (text lang : string) (w : World) :
  exists v, fst (getCachedTranslation env text lang w) = Normal v.
Proof.
  rewrite getCachedTranslation_unfold.
  destruct (lookup_or_request text lang w) as [[v|n] w1]; simpl; [eauto|].
  destruct (handle_response_cases env text lang n w1) as [(t & _ & ->)|(wn & _ & ->)];
    simpl; eauto.
Qed.

(** ** C2: a failed remote call *)

(** C2. When both cache tiers miss and the remote call fails (HTTP status
    outside 200-299, [responseStatus] other than 200, [translatedText]
    missing or not a text, [fetch] or [json()] rejecting), the call returns
    the input text, leaves both tiers as they were, and the same request
    made afterwards goes to the service again. *)
Theorem failed_call_returns_text_and_caches_nothing
    (env : Env) (text lang : string) (w : World) :
  memory_miss w text lang ->
  persisted_miss w text lang ->
  remote_failure (fetch env (requests w) (request_url text lang)) ->
  exists w',
    getCachedTranslation env text lang w = (Normal text, w')
    /\ cache w' = cache w
    /\ localStorage w' = localStorage w
    /\ requests w' = S (requests w)
    /\ forall env',
         fst (lookup_or_request text lang w') = Miss (requests w')
         /\ requests (run (getCachedTranslation env' text lang) w') = S (requests w')
         /\ hd_error (events (snd (lookup_or_request text lang w')))
            = Some (Fetch (request_url text lang)).
Proof.
  intros Hm Hp Hf.
  rewrite getCachedTranslation_unfold, (lookup_miss _ _ _ Hm Hp).
  destruct (handle_response_failure env text lang (requests w) (requesting text lang w) Hf)
    as (wn & E & _).
  rewrite E. eexists. split; [reflexivity|].
  repeat split; try reflexivity.
  all: assert (Hm' : memory_miss (emit wn (requesting text lang w)) text lang) by exact Hm.
  all: assert (Hp' : persisted_miss (emit wn (requesting text lang w)) text lang) by exact Hp.
  - by rewrite (lookup_miss _ _ _ Hm' Hp').
  - unfold run. rewrite getCachedTranslation_unfold, (lookup_miss _ _ _ Hm' Hp').
    destruct (handle_response_frame env' text lang
                (requests (emit wn (requesting text lang w)))
                (requesting text lang (emit wn (requesting text lang w)))) as [_ ->].
    reflexivity.
  - by rewrite (lookup_miss _ _ _ Hm' Hp').
Qed.

Lemma failed_call_witness :
  exists w',
    getCachedTranslation service_down "Hello world" "fr" (fresh_page ∅)
      = (Normal "Hello world", w')
    /\ cache w' = ∅ /\ localStorage w' = ∅ /\ requests w' = 1.
Proof.
  destruct (failed_call_returns_text_and_caches_nothing
              service_down "Hello world" "fr" (fresh_page ∅))
    as (w' & E & Hc & Hs & Hr & _).
  - reflexivity.
  - intros v Hv. discriminate Hv.
  - apply failure_http. simpl. lia.
  - exists w'. auto.
Defined.

(** ** C3: cache hits *)

(** C3, as the code has it. A value in the memory tier is returned with
    the state untouched: no storage read, no request. Otherwise a
    non-empty value in the persisted tier is copied to the memory tier and
    returned, the storage read being the only event. And once a call has
    stored a translation, the same request is answered from the memory
    tier, whatever the service would now say, with the state untouched. *)
Theorem cached_value_is_served_without_request
    (env : Env) (text lang : string) (w : World) :
  (forall v,
     cache w !! cacheKey text lang = Some v ->
     getCachedTranslation env text lang w = (Normal v, w))
  /\ (forall v,
        memory_miss w text lang ->
        localStorage w !! localStorageKey (cacheKey text lang) = Some v ->
        v <> "" ->
        exists w',
          getCachedTranslation env text lang w = (Normal v, w')
          /\ cache w' = <[cacheKey text lang := v]> (cache w)
          /\ localStorage w' = localStorage w
          /\ requests w' = requests w
          /\ events w' = GetItem (localStorageKey (cacheKey text lang)) :: events w)
  /\ (forall t,
        memory_miss w text lang ->
        persisted_miss w text lang ->
        remote_success (fetch env (requests w) (request_url text lang)) t ->
        exists v w',
          getCachedTranslation env text lang w = (Normal v, w')
          /\ forall env', getCachedTranslation env' text lang w' = (Normal v, w')).
Proof.
  split; [|split].
  - intros v Hv. by rewrite getCachedTranslation_unfold, (lookup_memory_hit _ _ _ _ Hv).
  - intros v Hm Hs Hv.
    rewrite getCachedTranslation_unfold, (lookup_persisted_hit _ _ _ _ Hm Hs Hv).
    eexists. split; [reflexivity|]. repeat split.
  - intros t Hm Hp Ht.
    rewrite getCachedTranslation_unfold, (lookup_miss _ _ _ Hm Hp).
    rewrite (handle_response_success _ _ _ _ _ _ Ht).
    eexists _, _. split; [reflexivity|].
    intros env'. rewrite getCachedTranslation_unfold.
    erewrite lookup_memory_hit; [reflexivity|].
    simpl. apply lookup_insert_eq.
Qed.

Lemma cached_value_witness :
  (* memory tier *)
  getCachedTranslation service_down "Hello world" "fr"
    (set_cache {[ "Hello world_fr" := "Bonjour le monde" ]} (fresh_page ∅))
  = (Normal "Bonjour le monde",
     set_cache {[ "Hello world_fr" := "Bonjour le monde" ]} (fresh_page ∅))
  (* persisted tier *)
  /\ (exists w',
        getCachedTranslation service_down "Hello world" "fr"
          (set_localStorage {[ "translation_Hello world_fr" := "Bonjour le monde" ]}
             (fresh_page ∅))
        = (Normal "Bonjour le monde", w')
        /\ requests w' = 0)
  (* after a successful call *)
  /\ (exists v w',
        getCachedTranslation (service "Bonjour le monde") "Hello world" "fr" (fresh_page ∅)
        = (Normal v, w')
        /\ getCachedTranslation service_down "Hello world" "fr" w' = (Normal v, w')).
Proof.
  split; [|split].
  - apply (cached_value_is_served_without_request service_down "Hello world" "fr").
    reflexivity.
  - destruct (cached_value_is_served_without_request service_down "Hello world" "fr"
                (set_localStorage {[ "translation_Hello world_fr" := "Bonjour le monde" ]}
                   (fresh_page ∅))) as (_ & H & _).
    destruct (H "Bonjour le monde") as (w' & E & _ & _ & Hr & _).
    + reflexivity.
    + reflexivity.
    + discriminate.
    + exists w'. split; [exact E|exact Hr].
  - destruct (cached_value_is_served_without_request (service "Bonjour le monde")
                "Hello world" "fr" (fresh_page ∅)) as (_ & _ & H).
    destruct (H "Bonjour le monde") as (v & w' & E & Hn).
    + reflexivity.
    + intros v Hv. discriminate Hv.
    + apply success_200; [lia|discriminate].
    + exists v, w'. split; [exact E|apply Hn].
Defined.

(** C3 as stated fails when the value held by the persisted tier is the
    empty string. A translation consisting of a pair of quotes is stored
    as the empty string; on the next visit the persisted tier holds that
    value for the pair, and the request still goes to the service. *)
Lemma persisted_empty_value_is_requested_again :
  let env := service (quoted "") in
  let w := reload (run (getCachedTranslation env "Hello world" "fr") (fresh_page ∅)) in
  localStorage w !! localStorageKey (cacheKey "Hello world" "fr") = Some ""
  /\ cache w !! cacheKey "Hello world" "fr" = None
  /\ requests w = 0
  /\ requests (run (getCachedTranslation env "Hello world" "fr") w) = 1
  /\ hd_error (events (snd (lookup_or_request "Hello world" "fr" w)))
     = Some (Fetch (request_url "Hello world" "fr")).
Proof. vm_compute. repeat split. Qed.

(** ** C4: a successful remote call *)

(** C4. When both cache tiers miss and the remote call succeeds (HTTP
    status 200-299, [responseStatus] 200, a non-empty [translatedText]),
    the call returns the translated text with a leading and a trailing
    quote removed and then trimmed, and both tiers hold that value under
    the key of the pair. A text wrapped in quotes comes back without
    them. *)
Theorem successful_call_is_normalized_and_cached
    (env : Env) (text lang t : string) (w : World) :
  memory_miss w text lang ->
  persisted_miss w text lang ->
  remote_success (fetch env (requests w) (request_url text lang)) t ->
  exists w',
    getCachedTranslation env text lang w
      = (Normal (JsString.trim (JsString.strip_quotes t)), w')
    /\ cache w' = <[cacheKey text lang := JsString.trim (JsString.strip_quotes t)]> (cache w)
    /\ localStorage w'
       = <[localStorageKey (cacheKey text lang) := JsString.trim (JsString.strip_quotes t)]>
           (localStorage w)
    /\ cache w' !! cacheKey text lang = Some (JsString.trim (JsString.strip_quotes t))
    /\ localStorage w' !! localStorageKey (cacheKey text lang)
       = Some (JsString.trim (JsString.strip_quotes t))
    /\ forall s, JsString.strip_quotes (quoted s) = s.
Proof.
  intros Hm Hp Ht.
  rewrite getCachedTranslation_unfold, (lookup_miss _ _ _ Hm Hp).
  rewrite (handle_response_success _ _ _ _ _ _ Ht).
  eexists. split; [reflexivity|]. simpl.
  repeat split; try apply lookup_insert_eq.
  intros s. apply strip_quotes_wrapped.
Qed.

Lemma successful_call_witness :
  exists w',
    getCachedTranslation (service (quoted "Bonjour le monde")) "Hello world" "fr"
      (fresh_page ∅)
    = (Normal "Bonjour le monde", w')
    /\ cache w' !! "Hello world_fr" = Some "Bonjour le monde"
    /\ localStorage w' !! "translation_Hello world_fr" = Some "Bonjour le monde".
Proof.
  destruct (successful_call_is_normalized_and_cached
              (service (quoted "Bonjour le monde")) "Hello world" "fr"
              (quoted "Bonjour le monde") (fresh_page ∅))
    as (w' & E & _ & _ & Hc & Hs & _).
  - reflexivity.
  - intros v Hv. discriminate Hv.
  - apply success_200; [lia|discriminate].
  - exists w'. split; [exact E|]. split; [exact Hc|exact Hs].
Defined.

(** ** C5: cache keys *)

Lemma lookup_value_spec (text lang : string) (w : World) :
  lookup_value (fst (lookup_or_request text lang w)) =
    match cache w !! cacheKey text lang with
    | Some v => Some v
    | None =>
        match localStorage w !! localStorageKey (cacheKey text lang) with
        | Some v => if JsString.truthy v then Some v else None
        | None => None
        end
    end.
Proof.
  unfold lookup_or_request.
  destruct (cache w !! cacheKey text lang); [reflexivity|]. simpl.
  destruct (localStorage w !! localStorageKey (cacheKey text lang)) as [v|]; [|reflexivity].
  destruct (JsString.truthy v); reflexivity.
Qed.

(** C5, as the code has it. For two distinct pairs whose language codes
    contain no underscore, the keys differ in both tiers, and a call for
    the first pair leaves the entries under the keys of the second pair,
    and hence what a lookup for the second pair finds, as they were. *)
Theorem distinct_pairs_have_separate_entries
    (env : Env) (text1 lang1 text2 lang2 : string) (w : World) :
  (text1, lang1) <> (text2, lang2) ->
  has_underscore lang1 = false ->
  has_underscore lang2 = false ->
  cacheKey text1 lang1 <> cacheKey text2 lang2
  /\ localStorageKey (cacheKey text1 lang1) <> localStorageKey (cacheKey text2 lang2)
  /\ cache (run (getCachedTranslation env text1 lang1) w) !! cacheKey text2 lang2
     = cache w !! cacheKey text2 lang2
  /\ localStorage (run (getCachedTranslation env text1 lang1) w)
       !! localStorageKey (cacheKey text2 lang2)
     = localStorage w !! localStorageKey (cacheKey text2 lang2)
  /\ lookup_value
       (fst (lookup_or_request text2 lang2 (run (getCachedTranslation env text1 lang1) w)))
     = lookup_value (fst (lookup_or_request text2 lang2 w)).
Proof.
  intros Hne H1 H2.
  assert (Hk : cacheKey text1 lang1 <> cacheKey text2 lang2).
  { intros E. destruct (cacheKey_inj _ _ _ _ H1 H2 E). subst. by apply Hne. }
  assert (Hs : localStorageKey (cacheKey text1 lang1) <> localStorageKey (cacheKey text2 lang2)).
  { intros E. by apply Hk, localStorageKey_inj. }
  destruct (getCachedTranslation_frame env text1 lang1 w) as (_&_&_&_&_&_&_&Hc&Hl).
  assert (Ec := Hc _ (not_eq_sym Hk)). assert (El := Hl _ (not_eq_sym Hs)).
  repeat split; try assumption.
  rewrite !lookup_value_spec, Ec, El. reflexivity.
Qed.

Lemma distinct_pairs_witness :
  cache (run (getCachedTranslation (service "Bonjour") "Hello" "fr") (fresh_page ∅))
    !! cacheKey "Hello" "de" = None
  /\ lookup_value
       (fst (lookup_or_request "Hello" "de"
               (run (getCachedTranslation (service "Bonjour") "Hello" "fr") (fresh_page ∅))))
     = None.
Proof.
  destruct (distinct_pairs_have_separate_entries (service "Bonjour")
              "Hello" "fr" "Hello" "de" (fresh_page ∅)) as (_ & _ & Hc & _ & Hl).
  - discriminate.
  - reflexivity.
  - reflexivity.
  - split; [exact Hc|exact Hl].
Defined.

(** C5 as stated fails for language codes with an underscore: the pairs
    (Hello, pt_BR) and (Hello_pt, BR) are distinct and share one key, so
    the translation stored for the first is served for the second, without
    a request. *)
Lemma colliding_pairs_share_an_entry :
  let w := run (getCachedTranslation (service "Ola") "Hello" "pt_BR") (fresh_page ∅) in
  ("Hello", "pt_BR") <> ("Hello_pt", "BR")
  /\ cacheKey "Hello" "pt_BR" = cacheKey "Hello_pt" "BR"
  /\ cache (fresh_page ∅) !! cacheKey "Hello_pt" "BR" = None
  /\ cache w !! cacheKey "Hello_pt" "BR" = Some "Ola"
  /\ getCachedTranslation service_down "Hello_pt" "BR" w = (Normal "Ola", w).
Proof.
  split; [discriminate|]. vm_compute. repeat split.
Qed.

(** ** C6: which text nodes are recorded *)

Lemma Node_induction (P : Node -> Prop) :
  (forall ref, P (TextNode ref)) ->
  P CommentNode ->
  (forall tag noTr kids, Forall P kids -> P (Element tag noTr kids)) ->
  forall n, P n.
Proof.
  intros Ht Hc He. fix IH 1. intros [ref| |tag noTr kids].
  - apply Ht.
  - apply Hc.
  - apply He. induction kids as [|k kids IHk]; constructor; [apply IH|apply IHk].
Qed.

Lemma acceptNode_true (w : World) (parent : string) (optedOut : bool) (node : NodeRef) :
  acceptNode w parent optedOut node = true ->
  JsString.toLowerCase parent <> "option"
  /\ optedOut = false
  /\ eligible_text (JsString.trim (text_of w node)).
Proof.
  unfold acceptNode, eligible_text.
  destruct (decide (JsString.toLowerCase parent = "option")); [discriminate|].
  destruct optedOut; [discriminate|].
  destruct (negb _ || _) eqn:Hshort; [discriminate|].
  destruct (JsString.is_numeric _); [discriminate|].
  destruct (JsString.is_url_like _); [discriminate|].
  intros _. apply orb_false_iff in Hshort as [_ Hlen].
  apply Nat.ltb_ge in Hlen. auto.
Qed.

(** Nothing is taken below an element that opts out of translation. *)
Lemma walk_opted_out (w : World) (n : Node) (parent : string) :
  walk w parent true n = [].
Proof.
  revert parent. induction n as [ref| |tag noTr kids IH] using Node_induction;
    intros parent; simpl.
  - unfold acceptNode. destruct (decide _); reflexivity.
  - reflexivity.
  - induction IH as [|k kids Hk _ IHkids]; [reflexivity|].
    rewrite Hk, IHkids. reflexivity.
Qed.

(** Every node the walker returns passed the filter: its parent is not an
    [option] element, no ancestor opts out, and its trimmed text has at
    least two characters and is neither numeric nor URL-like. *)
Lemma walk_accepted (w : World) (n : Node) (parent : string) (optedOut : bool)
    (ref : NodeRef) (tag : string) :
  In (ref, tag) (walk w parent optedOut n) ->
  JsString.toLowerCase tag <> "option"
  /\ eligible_text (JsString.trim (text_of w ref)).
Proof.
  revert parent optedOut. induction n as [r| |t noTr kids IH] using Node_induction;
    intros parent optedOut; simpl.
  - destruct (acceptNode w parent optedOut r) eqn:Ha; [|intros []].
    intros [[= <- <-]|[]]. apply acceptNode_true in Ha as (? & _ & ?). auto.
  - intros [].
  - induction IH as [|k kids Hk _ IHkids]; [intros []|].
    rewrite in_app_iff. intros [Hin|Hin]; [by eapply Hk|by apply IHkids].
Qed.

Lemma record_nodes_keys (w : World) (nodes : list (NodeRef * string)) (index : nat)
    (m : NodeMap.t) (node : NodeRef) :
  In node (NodeMap.keys (record_nodes w nodes index m)) ->
  In node (NodeMap.keys m) \/ In node (map fst nodes).
Proof.
  revert index m. induction nodes as [|[n p] rest IH]; intros index m; simpl; [auto|].
  intros Hin. apply IH in Hin as [Hin|Hin]; [|auto].
  destruct (JsString.truthy _ && negb (NodeMap.has n m)); [|auto].
  clear IH. induction m as [|[k v] m IHm]; simpl in *.
  - destruct Hin as [<-|[]]. auto.
  - destruct (decide (k = n)); simpl in *; [tauto|].
    destruct Hin as [<-|Hin]; [auto|]. destruct (IHm Hin); auto.
Qed.

(** The part of C6 that holds: a node recorded by the extraction has a
    parent that is not an [option] element and an eligible trimmed text,
    nothing is recorded below an element that opts out, and an empty
    document gives no record. *)
Lemma extractText_records_eligible_nodes (doc : Document) (w : World) (node : NodeRef) :
  originalTexts w = [] ->
  In node (NodeMap.keys (originalTexts (extractText doc w))) ->
  htmlNoTranslate doc = false /\ bodyNoTranslate doc = false
  /\ eligible_text (JsString.trim (text_of w node)).
Proof.
  intros Hempty Hin. unfold extractText in Hin. simpl in Hin. rewrite Hempty in Hin.
  apply record_nodes_keys in Hin as [[]|Hin].
  apply in_map_iff in Hin as ([r tag] & <- & Hin). simpl.
  unfold walk_body in Hin.
  destruct (htmlNoTranslate doc) eqn:Hh.
  { rewrite walk_opted_out in Hin. destruct Hin. }
  destruct (bodyNoTranslate doc) eqn:Hb.
  { simpl in Hin. exfalso. induction (bodyChildren doc) as [|k ks IHk]; [exact Hin|].
    rewrite walk_opted_out in Hin. auto. }
  apply walk_accepted in Hin as [_ He]. auto.
Qed.

Lemma extractText_empty_document (doc : Document) (w : World) :
  bodyChildren doc = [] ->
  originalTexts (extractText doc w) = originalTexts w.
Proof. intros H. unfold extractText, walk_body. simpl. rewrite H. reflexivity. Qed.

(** C6 fails on the code: the extraction never consults [skipSelectors].
    The text of a [script], [style], [noscript], [iframe], [canvas] or
    [svg] element is recorded like any other. *)
Theorem text_in_skipped_elements_is_recorded :
  Forall2
    (fun tagName selector =>
       JsString.toLowerCase tagName = selector
       /\ originalTexts
            (extractText (page_with tagName) (fresh_page {[ 0 := "var x = 1;" ]}))
          = [(0, {| id := "text_0"; original := "var x = 1;"; parentTag := selector |})])
    ["SCRIPT"; "STYLE"; "NOSCRIPT"; "IFRAME"; "CANVAS"; "svg"]
    skipSelectors.
Proof. repeat constructor. Qed.

(** ** The page mutator *)

Lemma page_frame_refl (w : World) : page_frame w w.
Proof. by repeat split. Qed.

Lemma page_frame_trans (w1 w2 w3 : World) :
  page_frame w1 w2 -> page_frame w2 w3 -> page_frame w1 w3.
Proof.
  unfold page_frame. intros (?&?&?&?&?&?) (?&?&?&?&?&?). repeat split; congruence.
Qed.

Lemma cache_frame_page (text lang : string) (w w' : World) :
  cache_frame text lang w w' -> page_frame w w'.
Proof. unfold cache_frame, page_frame. tauto. Qed.

Lemma shown_after_spec (data : TextRecord) (translated before : string) :
  (translated <> "" /\ translated <> original data ->
   shown_after data translated before = translated)
  /\ (translated = "" \/ translated = original data ->
      shown_after data translated before = before).
Proof.
  unfold shown_after. split.
  - intros [H1 H2]. destruct translated; [congruence|]. simpl.
    by rewrite bool_decide_eq_false_2.
  - intros [->| ->]; [reflexivity|].
    rewrite bool_decide_eq_true_2 by reflexivity. by rewrite andb_false_r.
Qed.

Lemma text_of_write_text (node n : NodeRef) (s : string) (w : World) :
  text_of (write_text node s w) n = if decide (node = n) then s else text_of w n.
Proof.
  unfold text_of, write_text. simpl. rewrite lookup_insert.
  destruct (decide (node = n)); reflexivity.
Qed.

Lemma apply_translation_spec (node : NodeRef) (data : TextRecord) (translated : string)
    (w : World) :
  exists w',
    apply_translation node data translated w = (Normal tt, w')
    /\ page_frame w w'
    /\ cache w' = cache w /\ localStorage w' = localStorage w
    /\ text_of w' node = shown_after data translated (text_of w node)
    /\ forall n, n <> node -> text_of w' n = text_of w n.
Proof.
  unfold apply_translation, shown_after.
  destruct (JsString.truthy translated && negb (bool_decide (translated = original data))).
  - eexists. split; [reflexivity|]. split; [by repeat split|].
    repeat split.
    + rewrite text_of_write_text. by rewrite decide_True.
    + intros n Hn. rewrite text_of_write_text. by rewrite decide_False.
  - eexists. split; [reflexivity|]. split; [apply page_frame_refl|]. by repeat split.
Qed.

Lemma handle_response_returns (env : Env) (text lang : string) (n : nat) (w : World) :
  exists r w',
    handle_response env text lang n w = (Normal r, w')
    /\ page_frame w w' /\ textContent w' = textContent w.
Proof.
  pose proof (handle_response_frame env text lang n w) as [Hf _].
  destruct (handle_response_cases env text lang n w) as [(t & _ & E)|(wn & _ & E)];
    rewrite E in *; simpl in *; eexists _, _;
    (split; [reflexivity|]); (split; [by eapply cache_frame_page|reflexivity]).
Qed.

Lemma complete_spec (env : Env) (lang : string) (t : Task) (w : World) :
  exists r w',
    complete env lang t w = (Normal (task_node t, r), w')
    /\ page_frame w w'
    /\ text_of w' (task_node t) = shown_after (task_data t) r (text_of w (task_node t))
    /\ forall n, n <> task_node t -> text_of w' n = text_of w n.
Proof.
  unfold complete, bind.
  assert (Hv : exists r w1,
             match task_lookup t with
             | Hit v => ret v
             | Miss n => handle_response env (original (task_data t)) lang n
             end w = (Normal r, w1)
             /\ page_frame w w1 /\ textContent w1 = textContent w).
  { destruct (task_lookup t) as [v|n].
    - exists v, w. split; [reflexivity|]. split; [apply page_frame_refl|reflexivity].
    - apply handle_response_returns. }
  destruct Hv as (r & w1 & -> & Hp1 & Ht1).
  destruct (apply_translation_spec (task_node t) (task_data t) r w1)
    as (w2 & -> & Hp2 & _ & _ & Hn & Ho).
  exists r, w2. split; [reflexivity|]. split; [by eapply page_frame_trans|].
  unfold text_of in *. rewrite Ht1 in *. auto.
Qed.

Lemma complete_all_spec (env : Env) (lang : string) (ts : list Task) (w : World) :
  NoDup (map task_node ts) ->
  exists res w',
    complete_all env lang ts w = (Normal res, w')
    /\ page_frame w w'
    /\ map fst res = map task_node ts
    /\ (forall n, ~ In n (map task_node ts) -> text_of w' n = text_of w n)
    /\ forall t, In t ts ->
         exists r, In (task_node t, r) res
                   /\ text_of w' (task_node t)
                      = shown_after (task_data t) r (text_of w (task_node t)).
Proof.
  revert w. induction ts as [|t ts IH]; intros w Hnd.
  - exists [], w. split; [reflexivity|]. split; [apply page_frame_refl|].
    repeat split; auto. intros t [].
  - apply NoDup_cons in Hnd as [Hnotin Hnd]. rewrite list_elem_of_In in Hnotin.
    destruct (complete_spec env lang t w) as (r & w1 & E1 & Hp1 & Ht & Ho).
    destruct (IH w1 Hnd) as (res & w2 & E2 & Hp2 & Hm & Hout & Hin).
    exists ((task_node t, r) :: res), w2.
    split; [simpl; unfold bind; by rewrite E1, E2|].
    split; [by eapply page_frame_trans|].
    split; [simpl; by rewrite Hm|].
    split.
    + intros n Hn. simpl in Hn. rewrite Hout by tauto. apply Ho. intros ->. tauto.
    + intros t' [<-|Ht'].
      * exists r. split; [by left|]. rewrite Hout by exact Hnotin. exact Ht.
      * destruct (Hin t' Ht') as (r' & Hr' & Htext).
        exists r'. split; [by right|]. rewrite Htext, Ho; [reflexivity|].
        intros E. apply Hnotin. rewrite <- E. by apply in_map.
Qed.

Lemma NodeMap_get_keys (node : NodeRef) (m : NodeMap.t) :
  In node (NodeMap.keys m) -> exists data, NodeMap.get node m = Some data.
Proof.
  induction m as [|[k v] m IH]; simpl; [intros []|].
  destruct (decide (k = node)); [eauto|]. intros [?|Hin]; [contradiction|auto].
Qed.

Lemma NodeMap_get_entry (node : NodeRef) (data : TextRecord) (m : NodeMap.t) :
  NoDup (NodeMap.keys m) -> In (node, data) m -> NodeMap.get node m = Some data.
Proof.
  induction m as [|[k v] m IH]; simpl; [intros _ []|].
  intros Hnd. apply NoDup_cons in Hnd as [Hk Hnd]. rewrite list_elem_of_In in Hk.
  intros [[= -> ->]|Hin].
  - by rewrite decide_True.
  - destruct (decide (k = node)) as [->|]; [|auto].
    exfalso. apply Hk. change node with (fst (node, data)). by apply in_map.
Qed.

Lemma start_all_spec (lang : string) (batch : list NodeRef) (w : World) :
  (forall n, In n batch -> In n (NodeMap.keys (originalTexts w))) ->
  exists tasks w',
    start_all lang batch w = (Normal tasks, w')
    /\ page_frame w w'
    /\ textContent w' = textContent w
    /\ map task_node tasks = batch
    /\ forall t, In t tasks ->
         NodeMap.get (task_node t) (originalTexts w) = Some (task_data t).
Proof.
  revert w. induction batch as [|node rest IH]; intros w Hkeys.
  - exists [], w. split; [reflexivity|]. split; [apply page_frame_refl|].
    repeat split. intros t [].
  - destruct (NodeMap_get_keys node (originalTexts w)) as [data Hdata];
      [apply Hkeys; by left|].
    simpl. rewrite Hdata.
    pose proof (lookup_or_request_frame (original data) lang w) as Hf.
    destruct (lookup_or_request (original data) lang w) as [l w1]. simpl in Hf.
    assert (Hp1 : page_frame w w1) by (by eapply cache_frame_page).
    assert (Ht1 : textContent w1 = textContent w) by apply Hf.
    assert (Ho1 : originalTexts w1 = originalTexts w) by apply Hp1.
    destruct (IH w1) as (tasks & w2 & E & Hp2 & Ht2 & Hm & Hd).
    { intros n Hn. rewrite Ho1. apply Hkeys. by right. }
    exists ({| task_node := node; task_data := data; task_lookup := l |} :: tasks), w2.
    split; [unfold bind; by rewrite E|].
    split; [by eapply page_frame_trans|].
    split; [congruence|].
    split; [simpl; by rewrite Hm|].
    intros t [<-|Ht]; [exact Hdata|]. rewrite <- Ho1. by apply Hd.
Qed.

(** One batch: every node of the batch gets one value, and shows it when
    it is non-empty and differs from the recorded original. *)
Lemma run_batch_spec (env : Env) (lang : string) (batch : list NodeRef) (w : World) :
  NoDup batch ->
  (forall n, In n batch -> In n (NodeMap.keys (originalTexts w))) ->
  exists res w',
    run_batch env lang batch w = (Normal res, w')
    /\ page_frame w w'
    /\ map fst res ≡ₚ batch
    /\ (forall n, ~ In n batch -> text_of w' n = text_of w n)
    /\ forall n, In n batch ->
         exists data r,
           NodeMap.get n (originalTexts w) = Some data
           /\ In (n, r) res
           /\ text_of w' n = shown_after data r (text_of w n).
Proof.
  intros Hnd Hkeys.
  destruct (start_all_spec lang batch w Hkeys) as (tasks & w1 & E1 & Hp1 & Ht1 & Hm1 & Hd1).
  pose proof (merge_sort_Permutation (arrives_before env) tasks) as Hperm.
  set (sorted := merge_sort (arrives_before env) tasks) in *.
  assert (Hnodes : map task_node sorted ≡ₚ batch).
  { rewrite <- Hm1. by apply Permutation_map. }
  assert (Hnd' : NoDup (map task_node sorted)) by (by rewrite Hnodes).
  destruct (complete_all_spec env lang sorted w1 Hnd')
    as (res & w2 & E2 & Hp2 & Hm2 & Hout & Hin).
  exists res, w2.
  split; [unfold run_batch, bind; rewrite E1; exact E2|].
  split; [by eapply page_frame_trans|].
  split; [by rewrite Hm2|].
  assert (Htext : forall n, text_of w1 n = text_of w n).
  { intros n. unfold text_of. by rewrite Ht1. }
  split.
  - intros n Hn. rewrite Hout, Htext; [reflexivity|].
    intros Hn'. apply Hn. rewrite <- !list_elem_of_In in *. by rewrite <- Hnodes.
  - intros n Hn.
    assert (Hn' : In n (map task_node sorted)).
    { rewrite <- !list_elem_of_In in *. by rewrite Hnodes. }
    apply in_map_iff in Hn' as (t & <- & Ht).
    destruct (Hin t Ht) as (r & Hr & Hshown).
    exists (task_data t), r. split; [|split; [exact Hr|by rewrite Hshown, Htext]].
    apply Hd1. rewrite <- !list_elem_of_In in *. by rewrite <- Hperm.
Qed.

(** The batches are the consecutive groups of eight. *)
Lemma batches_aux_fuel (fuel fuel' : nat) (nodes : list NodeRef) :
  length nodes <= fuel -> length nodes <= fuel' ->
  batches_aux fuel nodes = batches_aux fuel' nodes.
Proof.
  revert fuel' nodes. induction fuel as [|fuel IH]; intros fuel' nodes H1 H2.
  - destruct nodes; [|simpl in H1; lia]. by destruct fuel'.
  - destruct nodes as [|x nodes]; [by destruct fuel'|].
    destruct fuel' as [|fuel']; [simpl in H2; lia|].
    simpl. f_equal. apply IH; rewrite length_drop; simpl in *; lia.
Qed.

Lemma batches_nil : batches [] = [].
Proof. reflexivity. Qed.

Lemma batches_cons (nodes : list NodeRef) :
  nodes <> [] ->
  batches nodes = take batchSize nodes :: batches (drop batchSize nodes).
Proof.
  intros Hne. unfold batches. destruct nodes as [|x nodes]; [congruence|].
  change (length (x :: nodes)) with (S (length nodes)).
  cbn [batches_aux]. f_equal.
  apply batches_aux_fuel; rewrite ?length_drop; simpl; lia.
Qed.

Lemma batches_empty_iff (nodes : list NodeRef) : batches nodes = [] <-> nodes = [].
Proof.
  split; [|intros ->; reflexivity].
  destruct nodes; [reflexivity|]. rewrite batches_cons by discriminate. discriminate.
Qed.

Lemma by_batches (P : list NodeRef -> Prop) :
  P [] ->
  (forall nodes, nodes <> [] -> P (drop batchSize nodes) -> P nodes) ->
  forall nodes, P nodes.
Proof.
  intros Hnil Hstep nodes.
  remember (length nodes) as n eqn:Hn. revert nodes Hn.
  induction n as [n IH] using lt_wf_ind. intros nodes ->.
  destruct nodes as [|x nodes]; [exact Hnil|].
  apply Hstep; [discriminate|].
  eapply IH; [|reflexivity]. rewrite length_drop. simpl. lia.
Qed.

Lemma concat_batches (nodes : list NodeRef) : concat (batches nodes) = nodes.
Proof.
  induction nodes as [|nodes Hne IH] using by_batches; [reflexivity|].
  rewrite batches_cons by exact Hne. simpl. rewrite IH. apply take_drop.
Qed.

(** The [i]-th batch holds the nodes from position [8 * i] up to
    [8 * i + 8], and there is at least one of them. *)
Lemma batches_lookup (nodes : list NodeRef) (i : nat) (b : list NodeRef) :
  batches nodes !! i = Some b ->
  b = slice (batchSize * i) (batchSize * i + batchSize) nodes
  /\ batchSize * i < length nodes.
Proof.
  unfold slice. replace (batchSize * i + batchSize - batchSize * i) with batchSize by lia.
  revert i. induction nodes as [|nodes Hne IH] using by_batches; intros i.
  - rewrite batches_nil. intros H. discriminate H.
  - rewrite batches_cons by exact Hne. destruct i as [|i].
    + intros [= <-]. split; [reflexivity|]. destruct nodes; [congruence|simpl; lia].
    + simpl. intros H. apply IH in H as [-> Hlen].
      rewrite drop_drop. rewrite length_drop in Hlen. unfold batchSize in *.
      split; [f_equal; f_equal; lia|lia].
Qed.

Lemma translate_loop_batches (env : Env) (lang : string) (nodes : list NodeRef)
    (fuel i : nat) :
  length nodes - i <= batchSize * fuel ->
  translate_loop env lang nodes fuel i = run_batches env lang (batches (drop i nodes)).
Proof.
  revert i. induction fuel as [|fuel IH]; intros i Hi.
  - rewrite drop_ge by lia. simpl. by destruct (i <? length nodes)%nat.
  - simpl. destruct (i <? length nodes)%nat eqn:Hlt.
    + apply Nat.ltb_lt in Hlt.
      assert (Hne : drop i nodes <> []).
      { intros E. apply (f_equal length) in E. rewrite length_drop in E. simpl in E. lia. }
      rewrite (batches_cons _ Hne), drop_drop. simpl.
      unfold slice. replace (i + batchSize - i) with batchSize by lia.
      rewrite IH by (unfold batchSize in *; lia).
      destruct (i + batchSize <? length nodes)%nat eqn:Hmore.
      * apply Nat.ltb_lt in Hmore.
        destruct (batches (drop (i + batchSize) nodes)) eqn:Eb; [|reflexivity].
        apply batches_empty_iff in Eb. apply (f_equal length) in Eb.
        rewrite length_drop in Eb. simpl in Eb. lia.
      * apply Nat.ltb_ge in Hmore. rewrite (drop_ge nodes (i + batchSize)) by lia.
        reflexivity.
    + apply Nat.ltb_ge in Hlt. rewrite drop_ge by lia. reflexivity.
Qed.

(** The loop of [translateToLanguage] is the run over the batches. *)
Lemma translateToLanguage_batches (env : Env) (lang : string) (w : World) :
  translateToLanguage env lang w
  = run_batches env lang (batches (NodeMap.keys (originalTexts w))) w.
Proof.
  unfold translateToLanguage.
  rewrite translate_loop_batches by (unfold batchSize; lia).
  reflexivity.
Qed.

Lemma pause_spec (bs : list (list NodeRef)) (w : World) :
  exists w',
    (match bs with [] => ret tt | _ :: _ => sleep 300 end) w = (Normal tt, w')
    /\ page_frame w w' /\ textContent w' = textContent w.
Proof.
  destruct bs; eexists; (split; [reflexivity|]); by repeat split.
Qed.

Lemma run_batches_spec (env : Env) (lang : string) (bs : list (list NodeRef)) (w : World) :
  NoDup (concat bs) ->
  (forall n, In n (concat bs) -> In n (NodeMap.keys (originalTexts w))) ->
  exists res w',
    run_batches env lang bs w = (Normal res, w')
    /\ page_frame w w'
    /\ map fst res ≡ₚ concat bs
    /\ (forall n, ~ In n (concat bs) -> text_of w' n = text_of w n)
    /\ forall n, In n (concat bs) ->
         exists data r,
           NodeMap.get n (originalTexts w) = Some data
           /\ In (n, r) res
           /\ text_of w' n = shown_after data r (text_of w n).
Proof.
  revert w. induction bs as [|b bs IH]; intros w Hnd Hkeys.
  - exists [], w. split; [reflexivity|]. split; [apply page_frame_refl|].
    repeat split; auto. intros n [].
  - simpl in Hnd, Hkeys. apply NoDup_app in Hnd as (Hb & Hdisj & Hbs).
    destruct (run_batch_spec env lang b w Hb) as (r1 & w1 & E1 & Hp1 & Hm1 & Ho1 & Hi1).
    { intros n Hn. apply Hkeys, in_or_app. by left. }
    destruct (pause_spec bs w1) as (w2 & E2 & Hp2 & Ht2).
    assert (Hp12 : page_frame w w2) by (by eapply page_frame_trans).
    assert (Horig : originalTexts w2 = originalTexts w) by apply Hp12.
    destruct (IH w2 Hbs) as (r3 & w3 & E3 & Hp3 & Hm3 & Ho3 & Hi3).
    { intros n Hn. rewrite Horig. apply Hkeys, in_or_app. by right. }
    assert (Htext : forall n, text_of w2 n = text_of w1 n).
    { intros n. unfold text_of. by rewrite Ht2. }
    exists (r1 ++ r3)%list, w3.
    split; [simpl; unfold bind; by rewrite E1, E2, E3|].
    split; [by eapply page_frame_trans|].
    split; [simpl; by rewrite map_app, Hm1, Hm3|].
    split.
    + intros n Hn. simpl in Hn. rewrite in_app_iff in Hn.
      rewrite Ho3, Htext, Ho1; tauto.
    + intros n Hn. simpl in Hn. apply in_app_or in Hn as [Hn|Hn].
      * destruct (Hi1 n Hn) as (data & r & Hd & Hr & Hs).
        exists data, r. split; [exact Hd|]. split; [apply in_or_app; by left|].
        rewrite Ho3, Htext; [exact Hs|].
        intros Hn'. apply (Hdisj n); by rewrite list_elem_of_In.
      * destruct (Hi3 n Hn) as (data & r & Hd & Hr & Hs).
        exists data, r. split; [by rewrite <- Horig|]. split; [apply in_or_app; by right|].
        rewrite Hs, Htext, Ho1; [reflexivity|].
        intros Hn'. apply (Hdisj n); by rewrite list_elem_of_In.
Qed.

(** *** Pauses *)

Lemma quiet_ret {A} (a : A) : quiet (ret a).
Proof. intros w. reflexivity. Qed.

Lemma quiet_bind {A B} (m : M A) (k : A -> M B) :
  quiet m -> (forall a, quiet (k a)) -> quiet (bind m k).
Proof.
  intros Hm Hk w. unfold bind. specialize (Hm w).
  destruct (m w) as [[a|e] w1]; simpl in *; [|exact Hm].
  by rewrite Hk.
Qed.

Lemma lookup_or_request_quiet (text lang : string) (w : World) :
  pauses (events (snd (lookup_or_request text lang w))) = pauses (events w).
Proof.
  destruct (lookup_or_request_cases text lang w)
    as [(v & _ & ->)|[(v & _ & _ & _ & ->)|(_ & _ & ->)]]; reflexivity.
Qed.

Lemma handle_response_quiet (env : Env) (text lang : string) (n : nat) :
  quiet (handle_response env text lang n).
Proof.
  intros w.
  destruct (remote_success_or_failure (fetch env n (request_url text lang))) as [[t Ht]|Hf].
  - by rewrite (handle_response_success _ _ _ _ _ _ Ht).
  - destruct (handle_response_failure env text lang n w Hf) as (wn & -> & [->|[e ->]]);
      reflexivity.
Qed.

Lemma apply_translation_quiet (node : NodeRef) (data : TextRecord) (translated : string) :
  quiet (apply_translation node data translated).
Proof.
  intros w. unfold apply_translation. by destruct (_ && _).
Qed.

Lemma complete_quiet (env : Env) (lang : string) (t : Task) : quiet (complete env lang t).
Proof.
  unfold complete. apply quiet_bind.
  - destruct (task_lookup t); [apply quiet_ret|apply handle_response_quiet].
  - intros r. apply quiet_bind; [apply apply_translation_quiet|intros; apply quiet_ret].
Qed.

Lemma complete_all_quiet (env : Env) (lang : string) (ts : list Task) :
  quiet (complete_all env lang ts).
Proof.
  induction ts as [|t ts IH]; simpl; [apply quiet_ret|].
  apply quiet_bind; [apply complete_quiet|]. intros r.
  apply quiet_bind; [exact IH|]. intros rs. apply quiet_ret.
Qed.

Lemma start_all_quiet (lang : string) (batch : list NodeRef) : quiet (start_all lang batch).
Proof.
  induction batch as [|node rest IH]; simpl; [apply quiet_ret|].
  intros w. destruct (NodeMap.get node (originalTexts w)) as [data|]; [|reflexivity].
  pose proof (lookup_or_request_quiet (original data) lang w) as Hl.
  destruct (lookup_or_request (original data) lang w) as [l w1]. simpl in Hl.
  rewrite <- Hl. apply quiet_bind; [exact IH|]. intros ts. apply quiet_ret.
Qed.

Lemma run_batch_quiet (env : Env) (lang : string) (batch : list NodeRef) :
  quiet (run_batch env lang batch).
Proof.
  unfold run_batch. apply quiet_bind; [apply start_all_quiet|].
  intros ts. apply complete_all_quiet.
Qed.

(** ** Runs of [translatePage] *)

Lemma complete_all_frame (env : Env) (lang : string) (ts : list Task) (w : World) :
  exists res w', complete_all env lang ts w = (Normal res, w') /\ page_frame w w'.
Proof.
  revert w. induction ts as [|t ts IH]; intros w.
  - exists [], w. split; [reflexivity|apply page_frame_refl].
  - destruct (complete_spec env lang t w) as (r & w1 & E1 & Hp1 & _).
    destruct (IH w1) as (res & w2 & E2 & Hp2).
    exists ((task_node t, r) :: res), w2.
    split; [simpl; unfold bind; by rewrite E1, E2|by eapply page_frame_trans].
Qed.

Lemma run_batch_frame (env : Env) (lang : string) (batch : list NodeRef) (w : World) :
  (forall n, In n batch -> In n (NodeMap.keys (originalTexts w))) ->
  exists res w', run_batch env lang batch w = (Normal res, w') /\ page_frame w w'.
Proof.
  intros Hkeys.
  destruct (start_all_spec lang batch w Hkeys) as (tasks & w1 & E1 & Hp1 & _).
  destruct (complete_all_frame env lang (merge_sort (arrives_before env) tasks) w1)
    as (res & w2 & E2 & Hp2).
  exists res, w2.
  split; [unfold run_batch, bind; by rewrite E1|by eapply page_frame_trans].
Qed.

Lemma run_batches_frame (env : Env) (lang : string) (bs : list (list NodeRef)) (w : World) :
  (forall n, In n (concat bs) -> In n (NodeMap.keys (originalTexts w))) ->
  exists res w', run_batches env lang bs w = (Normal res, w') /\ page_frame w w'.
Proof.
  revert w. induction bs as [|b bs IH]; intros w Hkeys.
  - exists [], w. split; [reflexivity|apply page_frame_refl].
  - simpl in Hkeys.
    destruct (run_batch_frame env lang b w) as (r1 & w1 & E1 & Hp1).
    { intros n Hn. apply Hkeys, in_or_app. by left. }
    destruct (pause_spec bs w1) as (w2 & E2 & Hp2 & _).
    assert (Hp12 : page_frame w w2) by (by eapply page_frame_trans).
    destruct (IH w2) as (r3 & w3 & E3 & Hp3).
    { intros n Hn. destruct Hp12 as [-> _]. apply Hkeys, in_or_app. by right. }
    exists (r1 ++ r3)%list, w3.
    split; [simpl; unfold bind; by rewrite E1, E2, E3|by eapply page_frame_trans].
Qed.

Lemma run_batches_cons (env : Env) (lang : string) (b b' : list NodeRef)
    (bs : list (list NodeRef)) :
  run_batches env lang (b :: b' :: bs)
  = (let! r := run_batch env lang b in
     sleep 300;;
     let! rs := run_batches env lang (b' :: bs) in
     ret (r ++ rs)%list).
Proof. reflexivity. Qed.

(** A run pauses once between two batches, for 300 ms, and at no other
    time. *)
Lemma run_batches_pauses (env : Env) (lang : string) (bs : list (list NodeRef)) (w : World) :
  (forall n, In n (concat bs) -> In n (NodeMap.keys (originalTexts w))) ->
  pauses (events (snd (run_batches env lang bs w)))
  = (repeat 300 (length bs - 1) ++ pauses (events w))%list.
Proof.
  revert w. induction bs as [|b bs IH]; intros w Hkeys; [reflexivity|].
  simpl in Hkeys.
  destruct (run_batch_frame env lang b w) as (r1 & w1 & E1 & Hp1).
  { intros n Hn. apply Hkeys, in_or_app. by left. }
  pose proof (run_batch_quiet env lang b w) as Hb. rewrite E1 in Hb. simpl in Hb.
  destruct bs as [|b' bs'].
  - simpl. unfold bind. rewrite E1. simpl. exact Hb.
  - assert (Hrest : pauses (events (snd (run_batches env lang (b' :: bs')
                                            (emit (Sleep 300) w1))))
                    = (repeat 300 (length bs') ++ 300 :: pauses (events w))%list).
    { rewrite IH.
      - simpl. by rewrite Hb, Nat.sub_0_r.
      - intros n Hn. destruct Hp1 as [Ho _]. simpl. rewrite Ho.
        apply Hkeys, in_or_app. by right. }
    rewrite run_batches_cons. unfold bind at 1. rewrite E1.
    unfold bind at 1, sleep, modify. unfold bind at 1.
    destruct (run_batches env lang (b' :: bs') (emit (Sleep 300) w1)) as [[rs|e] w2];
      simpl in *; rewrite Hrest; clear; induction (length bs') as [|k IHk]; simpl;
      congruence.
Qed.

(** [translateToLanguage] returns normally and leaves the record of the
    page, the current language, the busy flag and the indicators alone. *)
Lemma translateToLanguage_frame (env : Env) (lang : string) (w : World) :
  exists res w', translateToLanguage env lang w = (Normal res, w') /\ page_frame w w'.
Proof.
  rewrite translateToLanguage_batches. apply run_batches_frame.
  intros n. by rewrite concat_batches.
Qed.

Lemma restore_fold_frame (entries : NodeMap.t) (w : World) :
  page_frame w
    (fold_left (fun w' '(node, data) => write_text node (original data) w') entries w).
Proof.
  revert w. induction entries as [|[k v] entries IH]; intros w; simpl.
  - apply page_frame_refl.
  - eapply page_frame_trans; [|apply IH]. by repeat split.
Qed.

Lemma restore_fold_other (entries : NodeMap.t) (w : World) (n : NodeRef) :
  ~ In n (NodeMap.keys entries) ->
  text_of (fold_left (fun w' '(node, data) => write_text node (original data) w') entries w) n
  = text_of w n.
Proof.
  revert w. induction entries as [|[k v] entries IH]; intros w Hn; simpl in *.
  - reflexivity.
  - rewrite IH by tauto. rewrite text_of_write_text. rewrite decide_False; tauto.
Qed.

Lemma restore_fold_entry (entries : NodeMap.t) (w : World) (n : NodeRef) (d : TextRecord) :
  NoDup (NodeMap.keys entries) ->
  In (n, d) entries ->
  text_of (fold_left (fun w' '(node, data) => write_text node (original data) w') entries w) n
  = original d.
Proof.
  revert w. induction entries as [|[k v] entries IH]; intros w Hnd Hin; simpl in *.
  - destruct Hin.
  - apply NoDup_cons in Hnd as [Hk Hnd]. rewrite list_elem_of_In in Hk.
    destruct Hin as [[= -> ->]|Hin]; [|by apply IH].
    rewrite restore_fold_other by exact Hk.
    rewrite text_of_write_text. by rewrite decide_True.
Qed.

(** [restoreOriginal] gives every recorded node its recorded text. *)
Lemma restoreOriginal_spec (w : World) :
  exists w',
    restoreOriginal w = (Normal tt, w')
    /\ page_frame w w'
    /\ (NoDup (NodeMap.keys (originalTexts w)) ->
        forall n d, In (n, d) (originalTexts w) -> text_of w' n = original d).
Proof.
  eexists. split; [reflexivity|]. split; [apply restore_fold_frame|].
  intros Hnd n d Hin. by apply restore_fold_entry.
Qed.

(** The [try] block of [translatePage] returns normally; it sets the
    current language and leaves the record of the page, the busy flag and
    the indicators alone. *)
Lemma translatePage_try_spec (env : Env) (lang : string) (w : World) :
  exists w',
    translatePage_try env lang w = (Normal tt, w')
    /\ originalTexts w' = originalTexts w
    /\ currentLang w' = lang
    /\ isTranslating w' = isTranslating w
    /\ loadingEl w' = loadingEl w
    /\ selectEl w' = selectEl w
    /\ (lang = "en" -> NoDup (NodeMap.keys (originalTexts w)) ->
        forall n d, In (n, d) (originalTexts w) -> text_of w' n = original d).
Proof.
  unfold translatePage_try.
  assert (Hfirst : exists w1,
             (if decide (lang = "en") then restoreOriginal
              else (translateToLanguage env lang;; ret tt)) w = (Normal tt, w1)
             /\ page_frame w w1
             /\ (lang = "en" -> NoDup (NodeMap.keys (originalTexts w)) ->
                 forall n d, In (n, d) (originalTexts w) -> text_of w1 n = original d)).
  { destruct (decide (lang = "en")) as [Hen|Hen].
    - destruct (restoreOriginal_spec w) as (w1 & E & Hp & Ht). eauto.
    - destruct (translateToLanguage_frame env lang w) as (res & w1 & E & Hp).
      exists w1. split; [unfold bind; by rewrite E|]. split; [exact Hp|]. intros; contradiction. }
  destruct Hfirst as (w1 & E & (Ho & Hc & Hi & Hh & Hl & Hs) & Ht).
  eexists. split; [unfold bind at 1; rewrite E; reflexivity|].
  simpl. repeat split; auto.
Qed.

Lemma translatePage_around_unfold (block : M unit) (lang : string) (w : World) :
  isTranslating w = false ->
  lang <> currentLang w ->
  translatePage_around block lang w
  = try_catch_finally block
      (fun error => modify (emit (ErrorFailed error)))
      (modify (set_isTranslating false);; setLoading false)
      (run (setLoading true) (set_isTranslating true w)).
Proof.
  intros Hbusy Hlang. unfold translatePage_around.
  rewrite Hbusy, bool_decide_eq_false_2 by exact Hlang. reflexivity.
Qed.

(** A run that is not a no-op: it returns normally with the language
    switched and the busy flag cleared, and a run to the base language
    leaves every recorded node with its recorded text. *)
Lemma translatePage_run (env : Env) (lang : string) (w : World) :
  isTranslating w = false ->
  lang <> currentLang w ->
  exists w',
    translatePage env lang w = (Normal tt, w')
    /\ originalTexts w' = originalTexts w
    /\ currentLang w' = lang
    /\ isTranslating w' = false
    /\ (lang = "en" -> NoDup (NodeMap.keys (originalTexts w)) ->
        forall n d, In (n, d) (originalTexts w) -> text_of w' n = original d).
Proof.
  intros Hbusy Hlang. unfold translatePage.
  rewrite translatePage_around_unfold by assumption.
  destruct (translatePage_try_spec env lang (run (setLoading true) (set_isTranslating true w)))
    as (w1 & E & Ho & Hc & _ & _ & _ & Ht).
  unfold try_catch_finally, try_catch. rewrite E. simpl.
  eexists. split; [reflexivity|]. simpl. repeat split; auto.
Qed.

(** ** The translation result of a node *)

Lemma append_length (a b : string) :
  String.length (a +:+ b) = String.length a + String.length b.
Proof.
  induction a as [|c a IH]; [reflexivity|].
  change (S (String.length (a +:+ b)) = S (String.length a + String.length b)).
  by rewrite IH.
Qed.

Lemma append_cancel_r (a b x : string) : a +:+ x = b +:+ x -> a = b.
Proof.
  revert b. induction a as [|c a IH]; intros [|c' b] E.
  - reflexivity.
  - apply (f_equal String.length) in E.
    change (String.length x = S (String.length (b +:+ x))) in E.
    rewrite append_length in E. lia.
  - apply (f_equal String.length) in E.
    change (S (String.length (a +:+ x)) = String.length x) in E.
    rewrite append_length in E. lia.
  - change (String c (a +:+ x) = String c' (b +:+ x)) in E.
    injection E as -> E. by rewrite (IH b E).
Qed.

(** For one language, different texts have different keys. *)
Lemma cacheKey_text_inj (text1 text2 lang : string) :
  cacheKey text1 lang = cacheKey text2 lang -> text1 = text2.
Proof. rewrite !cacheKey_eq. apply append_cancel_r. Qed.

(** A call on its own returns exactly the translation result of its
    text. *)
Lemma getCachedTranslation_resolved (env : Env) (text lang r : string) (w : World) :
  fst (getCachedTranslation env text lang w) = Normal r
  <-> resolved env lang w (run (getCachedTranslation env text lang) w) text r.
Proof.
  unfold run. rewrite getCachedTranslation_unfold.
  destruct (lookup_or_request_cases text lang w)
    as [(v & Hv & ->)|[(v & Hm & Hs & Hne & ->)|(Hm & Hp & ->)]].
  - simpl. split.
    + intros [= <-]. by apply resolved_memory.
    + intros [v' Hv'|v' Hm _ _|n r' Hm _ _ _]; unfold memory_miss in *; congruence.
  - simpl. split.
    + intros [= <-]. by apply resolved_persisted.
    + intros [v' Hv'|v' _ Hs' _|n r' _ Hp _ _].
      * unfold memory_miss in Hm. congruence.
      * congruence.
      * exfalso. apply Hne. by apply Hp.
  - destruct (handle_response_cases env text lang (requests w) (requesting text lang w))
      as [(t & Ht & E)|(wn & Hf & E)]; rewrite E; simpl.
    + split.
      * intros [= <-]. apply (resolved_remote _ _ _ _ _ (requests w)); try assumption.
        { simpl. lia. }
        { by apply answered_success. }
      * intros [v' Hv'|v' _ Hs' Hne|n r' _ _ Hn Ha].
        { unfold memory_miss in Hm. congruence. }
        { exfalso. apply Hne. by apply Hp. }
        { simpl in Hn. assert (n = requests w) as -> by lia.
          destruct Ha as [t' Ht'|Hf].
          - inversion Ht; inversion Ht'; congruence.
          - exfalso. inversion Ht as [st t0 Hst Hne E0].
            rewrite <- E0 in Hf.
            inversion Hf as [|? ? Hst'| | |? ? ? Hrs|? ? ? Hmiss|? ? ? Hnt]; subst.
            + contradiction.
            + by apply Hrs.
            + simpl in Hmiss. apply truthy_false in Hmiss. contradiction.
            + by eapply Hnt. }
    + split.
      * intros [= <-]. apply (resolved_remote _ _ _ _ _ (requests w)); try assumption.
        { simpl. lia. }
        { by apply answered_failure. }
      * intros [v' Hv'|v' _ Hs' Hne|n r' _ _ Hn Ha].
        { unfold memory_miss in Hm. congruence. }
        { exfalso. apply Hne. by apply Hp. }
        { simpl in Hn. assert (n = requests w) as -> by lia.
          destruct Ha as [t' Ht'|_]; [|reflexivity].
          exfalso. inversion Ht' as [st t0 Hst Hne E0].
          rewrite <- E0 in Hf.
          inversion Hf as [|? ? Hst'| | |? ? ? Hrs|? ? ? Hmiss|? ? ? Hnt]; subst.
          - contradiction.
          - by apply Hrs.
          - simpl in Hmiss. apply truthy_false in Hmiss. contradiction.
          - by eapply Hnt. }
Qed.

Lemma resolved_later (env : Env) (lang : string) (w w1 w2 : World) (text v : string) :
  requests w1 <= requests w2 ->
  resolved env lang w w1 text v -> resolved env lang w w2 text v.
Proof.
  intros Hle [v' Hv|v' Hm Hs Hne|n r Hm Hp Hn Ha].
  - by apply resolved_memory.
  - by apply resolved_persisted.
  - apply (resolved_remote _ _ _ _ _ n); try assumption. lia.
Qed.

Lemma task_resolved_later (env : Env) (lang : string) (w w1 w2 : World) (t : Task) :
  requests w1 <= requests w2 ->
  task_resolved env lang w w1 t -> task_resolved env lang w w2 t.
Proof.
  unfold task_resolved. intros Hle. destruct (task_lookup t) as [v|n].
  - by apply resolved_later.
  - intros (Hn & Hm & Hp). split; [lia|by split].
Qed.

(** The condition reads the tiers and the request counter only. *)
Lemma tiers_resolved_same (env : Env) (lang : string) (w w1 w2 : World) :
  cache w2 = cache w1 ->
  localStorage w2 = localStorage w1 ->
  requests w1 <= requests w2 ->
  tiers_resolved env lang w w1 -> tiers_resolved env lang w w2.
Proof.
  intros Hc Hs Hr [Hle H]. split; [lia|]. intros text.
  destruct (H text) as [Hmem Hper].
  unfold memory_miss, persisted_miss in *. rewrite Hc, Hs. split.
  - intros v Hv. eapply resolved_later; [exact Hr|]. by apply Hmem.
  - intros Hm. destruct (Hper Hm) as [Hval Hmiss]. split; [|exact Hmiss].
    intros v Hv Hne. eapply resolved_later; [exact Hr|]. by apply Hval.
Qed.

Lemma tiers_resolved_start (env : Env) (lang : string) (w : World) :
  tiers_resolved env lang w w.
Proof.
  split; [lia|]. intros text. split.
  - intros v Hv. by apply resolved_memory.
  - intros Hm. split; [|by split].
    intros v Hv Hne. by apply resolved_persisted.
Qed.

(** A write of one value to both tiers under the key of a text. *)
Lemma tiers_resolved_stored (env : Env) (lang : string) (w w1 w2 : World)
    (text value : string) :
  cache w2 = <[cacheKey text lang := value]> (cache w1) ->
  (localStorage w2 = localStorage w1
   \/ localStorage w2
      = <[localStorageKey (cacheKey text lang) := value]> (localStorage w1)) ->
  requests w2 = requests w1 ->
  resolved env lang w w1 text value ->
  tiers_resolved env lang w w1 -> tiers_resolved env lang w w2.
Proof.
  intros Hc Hs Hr Hval [Hle H]. split; [lia|]. intros text'.
  assert (Hlater : forall t v, resolved env lang w w1 t v -> resolved env lang w w2 t v).
  { intros t v. apply resolved_later. lia. }
  destruct (H text') as [Hmem Hper].
  unfold memory_miss, persisted_miss in *. rewrite Hc.
  destruct (decide (text = text')) as [<-|Hne].
  - rewrite lookup_insert_eq. split; [intros v [= <-]; auto|discriminate].
  - assert (Hk : cacheKey text lang <> cacheKey text' lang).
    { intros E. by apply Hne, (cacheKey_text_inj _ _ lang). }
    rewrite lookup_insert_ne by exact Hk.
    assert (Hsame : localStorage w2 !! localStorageKey (cacheKey text' lang)
                    = localStorage w1 !! localStorageKey (cacheKey text' lang)).
    { destruct Hs as [->| ->]; [reflexivity|].
      apply lookup_insert_ne. intros E. by apply Hk, localStorageKey_inj. }
    rewrite Hsame. split; [auto|].
    intros Hm. destruct (Hper Hm) as [Hval' Hmiss]. split; [auto|exact Hmiss].
Qed.

(** A lookup keeps the condition, and what it finds is a translation
    result of its text, or else its request is one of the run. *)
Lemma lookup_or_request_resolved (env : Env) (lang text : string) (w w1 : World) :
  tiers_resolved env lang w w1 ->
  tiers_resolved env lang w (snd (lookup_or_request text lang w1))
  /\ requests w1 <= requests (snd (lookup_or_request text lang w1))
  /\ match fst (lookup_or_request text lang w1) with
     | Hit v => resolved env lang w (snd (lookup_or_request text lang w1)) text v
     | Miss n =>
         requests w <= n < requests (snd (lookup_or_request text lang w1))
         /\ memory_miss w text lang /\ persisted_miss w text lang
     end.
Proof.
  intros Hinv. pose proof Hinv as [Hle H]. destruct (H text) as [Hmem Hper].
  destruct (lookup_or_request_cases text lang w1)
    as [(v & Hv & ->)|[(v & Hm & Hs & Hne & ->)|(Hm & Hp & ->)]]; cbn [fst snd].
  - split; [exact Hinv|]. split; [lia|auto].
  - destruct (Hper Hm) as [Hval _].
    assert (Hres : resolved env lang w w1 text v) by auto.
    split; [|split; [simpl; lia|]].
    + apply (tiers_resolved_stored env lang w w1 _ text v); auto.
    + eapply resolved_later; [|exact Hres]. simpl. lia.
  - destruct (Hper Hm) as [_ Hmiss]. destruct (Hmiss Hp) as [Hm0 Hp0].
    split; [|split; [simpl; lia|]].
    + apply (tiers_resolved_same env lang w w1); auto. simpl. lia.
    + simpl. split; [lia|by split].
Qed.

(** The answer to a request of the run keeps the condition, and the value
    it gives is a translation result of the text. *)
Lemma handle_response_resolved (env : Env) (lang text : string) (n : nat) (w w1 : World) :
  tiers_resolved env lang w w1 ->
  requests w <= n < requests w1 ->
  memory_miss w text lang ->
  persisted_miss w text lang ->
  exists r w2,
    handle_response env text lang n w1 = (Normal r, w2)
    /\ tiers_resolved env lang w w2
    /\ requests w2 = requests w1
    /\ resolved env lang w w2 text r.
Proof.
  intros Hinv Hn Hm Hp.
  destruct (handle_response_cases env text lang n w1) as [(t & Ht & E)|(wn & Hf & E)];
    rewrite E; eexists _, _; (split; [reflexivity|]).
  - assert (Hres : resolved env lang w w1 text (normalize t)).
    { apply (resolved_remote _ _ _ _ _ n); try assumption. by apply answered_success. }
    split; [|split; [reflexivity|]].
    + apply (tiers_resolved_stored env lang w w1 _ text (normalize t)); auto.
    + eapply resolved_later; [|exact Hres]. simpl. lia.
  - split; [|split; [reflexivity|]].
    + apply (tiers_resolved_same env lang w w1); auto.
    + apply (resolved_remote _ _ _ _ _ n); try assumption. by apply answered_failure.
Qed.

Lemma apply_translation_requests (node : NodeRef) (data : TextRecord) (translated : string)
    (w : World) :
  requests (snd (apply_translation node data translated w)) = requests w.
Proof. unfold apply_translation. by destruct (_ && _). Qed.

Lemma complete_resolved (env : Env) (lang : string) (t : Task) (w w1 : World) :
  tiers_resolved env lang w w1 ->
  task_resolved env lang w w1 t ->
  exists r w2,
    complete env lang t w1 = (Normal (task_node t, r), w2)
    /\ tiers_resolved env lang w w2
    /\ requests w2 = requests w1
    /\ resolved env lang w w2 (original (task_data t)) r.
Proof.
  intros Hinv Htask. unfold task_resolved in Htask. unfold complete, bind.
  destruct (task_lookup t) as [v|n].
  - change (ret v w1) with (Normal v, w1). cbv beta iota.
    pose proof (apply_translation_requests (task_node t) (task_data t) v w1) as Hr.
    destruct (apply_translation_spec (task_node t) (task_data t) v w1)
      as (w2 & E & _ & Hc & Hs & _).
    rewrite E in Hr |- *. cbn [snd] in Hr.
    exists v, w2. split; [reflexivity|].
    split; [apply (tiers_resolved_same env lang w w1); auto; lia|].
    split; [exact Hr|]. eapply resolved_later; [|exact Htask]. lia.
  - destruct Htask as (Hn & Hm & Hp).
    destruct (handle_response_resolved env lang _ n w w1 Hinv Hn Hm Hp)
      as (r & wh & -> & Hinv' & Hr' & Hres).
    cbv beta iota.
    pose proof (apply_translation_requests (task_node t) (task_data t) r wh) as Hr.
    destruct (apply_translation_spec (task_node t) (task_data t) r wh)
      as (w2 & E & _ & Hc & Hs & _).
    rewrite E in Hr |- *. cbn [snd] in Hr.
    exists r, w2. split; [reflexivity|].
    split; [apply (tiers_resolved_same env lang w wh); auto; lia|].
    split; [congruence|]. eapply resolved_later; [|exact Hres]. lia.
Qed.

Lemma complete_all_resolved (env : Env) (lang : string) (ts : list Task) (w w1 : World) :
  tiers_resolved env lang w w1 ->
  (forall t, In t ts -> task_resolved env lang w w1 t) ->
  exists res w2,
    complete_all env lang ts w1 = (Normal res, w2)
    /\ tiers_resolved env lang w w2
    /\ requests w2 = requests w1
    /\ forall node r, In (node, r) res ->
         exists t, In t ts /\ task_node t = node
                   /\ resolved env lang w w2 (original (task_data t)) r.
Proof.
  revert w1. induction ts as [|t ts IH]; intros w1 Hinv Htasks.
  - exists [], w1. split; [reflexivity|]. split; [exact Hinv|].
    split; [reflexivity|intros node r []].
  - destruct (complete_resolved env lang t w w1 Hinv (Htasks t (or_introl eq_refl)))
      as (r & w2 & E1 & Hinv2 & Hr2 & Hres).
    destruct (IH w2 Hinv2) as (res & w3 & E2 & Hinv3 & Hr3 & Hall).
    { intros t' Ht'. apply (task_resolved_later env lang w w1); [lia|].
      apply Htasks. by right. }
    exists ((task_node t, r) :: res), w3.
    split; [simpl; unfold bind; by rewrite E1, E2|].
    split; [exact Hinv3|]. split; [congruence|].
    intros node r' [[= <- <-]|Hin].
    + exists t. split; [by left|]. split; [reflexivity|].
      eapply resolved_later; [|exact Hres]. lia.
    + destruct (Hall node r' Hin) as (t' & Ht' & Hn & Hres').
      exists t'. split; [by right|]. by split.
Qed.

Lemma start_all_resolved (env : Env) (lang : string) (batch : list NodeRef)
    (w w1 : World) :
  tiers_resolved env lang w w1 ->
  (forall n, In n batch -> In n (NodeMap.keys (originalTexts w1))) ->
  exists tasks w2,
    start_all lang batch w1 = (Normal tasks, w2)
    /\ tiers_resolved env lang w w2
    /\ requests w1 <= requests w2
    /\ forall t, In t tasks ->
         task_resolved env lang w w2 t
         /\ NodeMap.get (task_node t) (originalTexts w1) = Some (task_data t).
Proof.
  revert w1. induction batch as [|node rest IH]; intros w1 Hinv Hkeys.
  - exists [], w1. split; [reflexivity|]. split; [exact Hinv|].
    split; [lia|intros t []].
  - destruct (NodeMap_get_keys node (originalTexts w1)) as [data Hdata];
      [apply Hkeys; by left|].
    destruct (lookup_or_request_resolved env lang (original data) w w1 Hinv)
      as (Hinv1 & Hle & Hfound).
    pose proof (lookup_or_request_frame (original data) lang w1) as (Ho & _).
    destruct (lookup_or_request (original data) lang w1) as [l wl] eqn:El.
    cbn [fst snd] in *.
    destruct (IH wl Hinv1) as (tasks & w2 & E & Hinv2 & Hle2 & Htasks).
    { intros n Hn. rewrite Ho. apply Hkeys. by right. }
    simpl. rewrite Hdata, El. unfold bind. rewrite E.
    eexists _, w2. split; [reflexivity|]. split; [exact Hinv2|]. split; [lia|].
    intros t [<-|Ht].
    + split; [|exact Hdata]. apply (task_resolved_later env lang w wl); [exact Hle2|].
      unfold task_resolved. simpl. exact Hfound.
    + destruct (Htasks t Ht) as [Hres Hget]. split; [exact Hres|]. by rewrite <- Ho.
Qed.

(** Every value that a run hands to a node is a translation result of the
    recorded original of that node. *)
Lemma run_batches_resolved (env : Env) (lang : string) (bs : list (list NodeRef))
    (w w1 : World) :
  tiers_resolved env lang w w1 ->
  (forall n, In n (concat bs) -> In n (NodeMap.keys (originalTexts w1))) ->
  exists res w2,
    run_batches env lang bs w1 = (Normal res, w2)
    /\ tiers_resolved env lang w w2
    /\ requests w1 <= requests w2
    /\ forall node r, In (node, r) res ->
         exists data,
           NodeMap.get node (originalTexts w1) = Some data
           /\ resolved env lang w w2 (original data) r.
Proof.
  revert w1. induction bs as [|b bs IH]; intros w1 Hinv Hkeys.
  - exists [], w1. split; [reflexivity|]. split; [exact Hinv|].
    split; [lia|intros node r []].
  - simpl in Hkeys.
    destruct (start_all_resolved env lang b w w1 Hinv)
      as (tasks & ws & E0 & Hinvs & Hles & Htasks).
    { intros n Hn. apply Hkeys, in_or_app. by left. }
    destruct (complete_all_resolved env lang (merge_sort (arrives_before env) tasks) w ws
                Hinvs) as (r1 & wc & E1 & Hinvc & Hrc & Hres1).
    { intros t Ht. apply Htasks. rewrite <- !list_elem_of_In in *.
      by rewrite <- (merge_sort_Permutation (arrives_before env) tasks). }
    assert (Eb : run_batch env lang b w1 = (Normal r1, wc)).
    { unfold run_batch, bind. by rewrite E0. }
    destruct (run_batch_frame env lang b w1) as (r1' & wc' & Eb' & (Hob & _)).
    { intros n Hn. apply Hkeys, in_or_app. by left. }
    rewrite Eb in Eb'. injection Eb' as <- <-.
    destruct (pause_spec bs wc) as (wp & Ep & (Hop & _) & _).
    assert (Hsame : cache wp = cache wc /\ localStorage wp = localStorage wc
                    /\ requests wp = requests wc).
    { destruct bs; simpl in Ep; inversion Ep; by repeat split. }
    destruct Hsame as (Hcp & Hsp & Hrp).
    assert (Hinvp : tiers_resolved env lang w wp).
    { apply (tiers_resolved_same env lang w wc); auto. lia. }
    destruct (IH wp Hinvp) as (r3 & w3 & E3 & Hinv3 & Hle3 & Hres3).
    { intros n Hn. rewrite Hop, Hob. apply Hkeys, in_or_app. by right. }
    exists (r1 ++ r3)%list, w3.
    split; [cbn [run_batches]; unfold bind at 1; rewrite Eb; unfold bind at 1;
            rewrite Ep; unfold bind; by rewrite E3|].
    split; [exact Hinv3|]. split; [lia|].
    intros node r Hin. apply in_app_or in Hin as [Hin|Hin].
    + destruct (Hres1 node r Hin) as (t & Ht & <- & Hres).
      exists (task_data t). split.
      * apply Htasks. rewrite <- !list_elem_of_In in *.
        by rewrite <- (merge_sort_Permutation (arrives_before env) tasks).
      * eapply resolved_later; [|exact Hres]. lia.
    + destruct (Hres3 node r Hin) as (data & Hget & Hres).
      exists data. split; [|exact Hres]. by rewrite <- Hob, <- Hop.
Qed.

(** ** C7: batches, pauses, and which translations are shown *)

Lemma remote_success_not_failure (answer : FetchResult) (t : string) :
  remote_success answer t -> ~ remote_failure answer.
Proof.
  intros Hs Hf. inversion Hs as [st t0 Hst Hne E0]. rewrite <- E0 in Hf.
  inversion Hf as [|? ? Hst'| | |? ? ? Hrs|? ? ? Hmiss|? ? ? Hnt]; subst.
  - contradiction.
  - by apply Hrs.
  - simpl in Hmiss. apply truthy_false in Hmiss. contradiction.
  - by eapply Hnt.
Qed.

(** The answer to a request gives one value. *)
Lemma answered_by_success (env : Env) (text lang t r : string) (n : nat) :
  remote_success (fetch env n (request_url text lang)) t ->
  answered env text lang n r -> r = normalize t.
Proof.
  intros Hs [t' Hs'|Hf].
  - inversion Hs; inversion Hs'; congruence.
  - exfalso. by eapply remote_success_not_failure.
Qed.

(** C7. A run of [translateToLanguage] is the run over the batches of the
    recorded nodes: consecutive groups of eight in the order of the record
    (the [i]-th batch is [nodes.slice(8 i, 8 i + 8)] and is not empty),
    each followed by a pause of 300 ms unless it is the last. The run
    returns normally and pauses once less than there are batches, 300 ms
    each time. Every recorded node receives one value, and this value is
    the translation result of its recorded original: the value the memory
    tier held for it when the run started, or else the non-empty value the
    persisted tier held, or else, both tiers missing, the answer to a
    request sent during the run for this text (normalized when the answer
    is a success, the original itself when it is a failure). The node
    shows that value when it is non-empty and differs from the recorded
    original, and keeps its text otherwise. The translation result of a
    text is, for a call on its own, exactly what [getCachedTranslation]
    returns. *)
Theorem translateToLanguage_runs_in_batches (env : Env) (lang : string) (w : World) :
  NoDup (NodeMap.keys (originalTexts w)) ->
  translateToLanguage env lang w
    = run_batches env lang (batches (NodeMap.keys (originalTexts w))) w
  /\ concat (batches (NodeMap.keys (originalTexts w))) = NodeMap.keys (originalTexts w)
  /\ (forall i b,
        batches (NodeMap.keys (originalTexts w)) !! i = Some b ->
        b = slice (8 * i) (8 * i + 8) (NodeMap.keys (originalTexts w))
        /\ 8 * i < length (NodeMap.keys (originalTexts w)))
  /\ (forall text r w0,
        fst (getCachedTranslation env text lang w0) = Normal r
        <-> resolved env lang w0 (run (getCachedTranslation env text lang) w0) text r)
  /\ exists res w',
       translateToLanguage env lang w = (Normal res, w')
       /\ pauses (events w')
          = (repeat 300 (length (batches (NodeMap.keys (originalTexts w))) - 1)
             ++ pauses (events w))%list
       /\ map fst res ≡ₚ NodeMap.keys (originalTexts w)
       /\ forall node data,
            In (node, data) (originalTexts w) ->
            exists r,
              In (node, r) res
              /\ resolved env lang w w' (original data) r
              /\ (r <> "" /\ r <> original data -> text_of w' node = r)
              /\ (r = "" \/ r = original data -> text_of w' node = text_of w node).
Proof.
  intros Hnd.
  split; [apply translateToLanguage_batches|].
  split; [apply concat_batches|].
  split; [intros i b; apply batches_lookup|].
  split; [intros text r w0; apply getCachedTranslation_resolved|].
  rewrite translateToLanguage_batches.
  destruct (run_batches_spec env lang (batches (NodeMap.keys (originalTexts w))) w)
    as (res & w' & E & _ & Hm & _ & Hin).
  { by rewrite concat_batches. }
  { intros n. by rewrite concat_batches. }
  destruct (run_batches_resolved env lang (batches (NodeMap.keys (originalTexts w))) w w
              (tiers_resolved_start env lang w))
    as (res' & w'' & E' & _ & _ & Hres).
  { intros n. by rewrite concat_batches. }
  rewrite E in E'. injection E' as <- <-.
  exists res, w'. split; [exact E|].
  split.
  { pose proof (run_batches_pauses env lang (batches (NodeMap.keys (originalTexts w))) w)
      as Hpause.
    rewrite E in Hpause. apply Hpause. intros n. by rewrite concat_batches. }
  split; [by rewrite <- concat_batches|].
  intros node data Hdata.
  destruct (Hin node) as (data' & r & Hget & Hr & Hshown).
  { rewrite concat_batches. change node with (fst (node, data)). by apply in_map. }
  rewrite (NodeMap_get_entry _ _ _ Hnd Hdata) in Hget. injection Hget as <-.
  exists r. split; [exact Hr|]. split.
  { destruct (Hres node r Hr) as (data' & Hget' & Hres').
    rewrite (NodeMap_get_entry _ _ _ Hnd Hdata) in Hget'. by injection Hget' as <-. }
  rewrite Hshown. apply shown_after_spec.
Qed.

Lemma batches_witness :
  batches (NodeMap.keys (originalTexts nine_nodes)) = [seq 0 8; [8]]
  /\ exists res w',
       translateToLanguage (service "Bonjour") "fr" nine_nodes = (Normal res, w')
       /\ map fst res ≡ₚ seq 0 9
       /\ pauses (events w') = [300]
       /\ text_of w' 0 = "Bonjour"
       /\ text_of w' 8 = "Bonjour".
Proof.
  split; [reflexivity|].
  destruct (translateToLanguage_runs_in_batches (service "Bonjour") "fr" nine_nodes)
    as (_ & _ & _ & _ & res & w' & E & Hp & Hm & Hall).
  - apply (bool_decide_unpack _). vm_compute. exact I.
  - assert (Hshown : forall node,
              In (node, {| id := "text_" +:+ pretty node; original := "Hello";
                           parentTag := "p" |}) (originalTexts nine_nodes) ->
              text_of w' node = "Bonjour").
    { intros node Hin. destruct (Hall node _ Hin) as (r & _ & Hres & Hset & _).
      assert (Hr : r = "Bonjour").
      { destruct Hres as [v Hv|v _ Hv _|n r _ _ _ Ha].
        - discriminate Hv.
        - discriminate Hv.
        - apply (answered_by_success (service "Bonjour") "Hello" "fr" "Bonjour" r n);
            [|exact Ha].
          apply success_200; [lia|discriminate]. }
      subst r. apply Hset. split; discriminate. }
    exists res, w'. split; [exact E|]. split; [exact Hm|]. split; [exact Hp|].
    split; apply Hshown.
    + left. reflexivity.
    + do 8 right. left. reflexivity.
Defined.

(** The run on the nine paragraphs: the first eight requests, the pause,
    then the ninth node, served from the memory tier. *)
Example nine_nodes_run :
  let w := run (translateToLanguage (service "Bonjour") "fr") nine_nodes in
  filter (fun e => bool_decide (e = Sleep 300)) (events w) = [Sleep 300]
  /\ requests w = 8
  /\ hd_error (events w) = Some (Sleep 300)
  /\ Forall (fun n => text_of w n = "Bonjour") (seq 0 9).
Proof. vm_compute. repeat constructor. Qed.

(** ** C10: a translation equal to the original *)

(** C10. When both tiers miss, the remote call succeeds and the normalized
    result equals the recorded original of the node, the callback of the
    node (alone, or as a batch of one) writes that result to both cache
    tiers and leaves the text of every node as it was. *)
Theorem unchanged_translation_is_cached_but_not_applied
    (env : Env) (lang : string) (node : NodeRef) (data : TextRecord) (t : string)
    (w : World) :
  NodeMap.get node (originalTexts w) = Some data ->
  memory_miss w (original data) lang ->
  persisted_miss w (original data) lang ->
  remote_success (fetch env (requests w) (request_url (original data) lang)) t ->
  normalize t = original data ->
  exists w',
    translate_node env lang node w = (Normal (original data), w')
    /\ run_batch env lang [node] w = (Normal [(node, original data)], w')
    /\ cache w' !! cacheKey (original data) lang = Some (original data)
    /\ localStorage w' !! localStorageKey (cacheKey (original data) lang)
       = Some (original data)
    /\ textContent w' = textContent w.
Proof.
  intros Hget Hm Hp Ht Hn.
  assert (Happly : forall w1,
             apply_translation node data (original data) w1 = (Normal tt, w1)).
  { intros w1. unfold apply_translation.
    rewrite bool_decide_eq_true_2 by reflexivity. by rewrite andb_false_r. }
  exists (stored (original data) lang (original data) (requesting (original data) lang w)).
  split; [|split].
  - unfold translate_node, bind. rewrite Hget, getCachedTranslation_unfold.
    rewrite (lookup_miss _ _ _ Hm Hp), (handle_response_success _ _ _ _ _ _ Ht), Hn.
    by rewrite Happly.
  - unfold run_batch, bind. simpl. rewrite Hget, (lookup_miss _ _ _ Hm Hp).
    simpl. unfold complete, bind, ret. simpl.
    rewrite (handle_response_success _ _ _ _ _ _ Ht), Hn. by rewrite Happly.
  - simpl. repeat split; apply lookup_insert_eq.
Qed.

Lemma unchanged_translation_witness :
  exists w',
    translate_node (service (quoted "Menu ")) "fr" 0 same_text_page = (Normal "Menu", w')
    /\ cache w' !! "Menu_fr" = Some "Menu"
    /\ localStorage w' !! "translation_Menu_fr" = Some "Menu"
    /\ textContent w' = {[ 0 := " Menu " ]}.
Proof.
  destruct (unchanged_translation_is_cached_but_not_applied
              (service (quoted "Menu ")) "fr" 0
              {| id := "text_0"; original := "Menu"; parentTag := "p" |}
              (quoted "Menu ") same_text_page)
    as (w' & E & _ & Hc & Hs & Ht).
  - reflexivity.
  - reflexivity.
  - intros v Hv. discriminate Hv.
  - apply success_200; [lia|discriminate].
  - reflexivity.
  - exists w'. split; [exact E|]. split; [exact Hc|]. split; [exact Hs|exact Ht].
Defined.

(** ** C8: calls that do nothing *)

(** C8. While a run is in flight, or when the target is the current
    language, [translatePage] returns at once and the whole state is as
    before: the text of the page, both cache tiers, the current language,
    the stored preference, the busy flag, and the log of events. *)
Theorem translatePage_noop (env : Env) (lang : string) (w : World) :
  isTranslating w = true \/ lang = currentLang w ->
  translatePage env lang w = (Normal tt, w).
Proof.
  intros H. unfold translatePage, translatePage_around.
  destruct H as [->| ->]; [reflexivity|].
  rewrite bool_decide_eq_true_2 by reflexivity. by rewrite orb_true_r.
Qed.

Lemma translatePage_noop_witness :
  translatePage service_down "fr" (set_isTranslating true (fresh_page ∅))
    = (Normal tt, set_isTranslating true (fresh_page ∅))
  /\ translatePage service_down "en" (fresh_page ∅) = (Normal tt, fresh_page ∅).
Proof.
  split.
  - apply (translatePage_noop service_down "fr"). left. reflexivity.
  - apply (translatePage_noop service_down "en"). right. reflexivity.
Defined.

(** ** C9: the busy flag, the indicators and failures *)

(** C9. A run of [translatePage] that is not a no-op enters its [try]
    block with the busy flag set and the indicators shown. Whatever the
    block does, return or throw, the call returns normally with the busy
    flag cleared and the indicators hidden, and a thrown error is only
    written to the console. The [try] block of the code itself returns
    normally and keeps the flag set and the indicators shown until the
    [finally] clause. *)
Theorem translatePage_clears_flags_and_swallows_failures
    (block : M unit) (env : Env) (lang : string) (w : World) :
  isTranslating w = false ->
  lang <> currentLang w ->
  let w_in := run (setLoading true) (set_isTranslating true w) in
  (isTranslating w_in = true
   /\ loadingEl w_in = (fun _ => true) <$> loadingEl w
   /\ selectEl w_in = (fun _ => true) <$> selectEl w)
  /\ (forall c w_out,
        block w_in = (c, w_out) ->
        exists w',
          translatePage_around block lang w = (Normal tt, w')
          /\ isTranslating w' = false
          /\ loadingEl w' = (fun _ => false) <$> loadingEl w_out
          /\ selectEl w' = (fun _ => false) <$> selectEl w_out
          /\ events w' = match c with
                         | Normal _ => events w_out
                         | Throw e => ErrorFailed e :: events w_out
                         end)
  /\ translatePage env lang w = translatePage_around (translatePage_try env lang) lang w
  /\ exists w_out,
       translatePage_try env lang w_in = (Normal tt, w_out)
       /\ isTranslating w_out = true
       /\ loadingEl w_out = loadingEl w_in
       /\ selectEl w_out = selectEl w_in.
Proof.
  intros Hbusy Hlang w_in.
  split; [by repeat split|].
  split; [|split; [reflexivity|]].
  - intros c w_out E.
    rewrite translatePage_around_unfold by assumption. fold w_in.
    unfold try_catch_finally, try_catch. rewrite E.
    destruct c as [[]|e]; simpl; eexists; (split; [reflexivity|]); by repeat split.
  - destruct (translatePage_try_spec env lang w_in) as (w1 & E & _ & _ & Hi & Hl & Hs & _).
    exists w1. by repeat split.
Qed.

Lemma translatePage_failure_witness :
  exists w',
    translatePage_around (throw TypeError) "fr" (fresh_page ∅) = (Normal tt, w')
    /\ isTranslating w' = false
    /\ loadingEl w' = Some false
    /\ selectEl w' = Some false
    /\ events w' = [ErrorFailed TypeError].
Proof.
  destruct (translatePage_clears_flags_and_swallows_failures
              (throw TypeError) service_down "fr" (fresh_page ∅)) as (_ & H & _).
  - reflexivity.
  - discriminate.
  - destruct (H (Throw TypeError) (run (setLoading true) (set_isTranslating true (fresh_page ∅))))
      as (w' & E & Hi & Hl & Hs & He); [reflexivity|].
    exists w'. split; [exact E|]. split; [exact Hi|]. split; [exact Hl|].
    split; [exact Hs|exact He].
Defined.

(** ** C1: restoring the page *)

Lemma NodeMap_has_false (node : NodeRef) (m : NodeMap.t) :
  NodeMap.has node m = false -> ~ In node (NodeMap.keys m).
Proof.
  unfold NodeMap.has. intros Hhas Hin.
  destruct (NodeMap_get_keys node m Hin) as [d Hd]. by rewrite Hd in Hhas.
Qed.

Lemma NodeMap_set_fresh (node : NodeRef) (v : TextRecord) (m : NodeMap.t) :
  ~ In node (NodeMap.keys m) -> NodeMap.set node v m = (m ++ [(node, v)])%list.
Proof.
  induction m as [|[k v'] m IH]; simpl; [reflexivity|].
  intros Hn. destruct (decide (k = node)); [tauto|]. rewrite IH by tauto. reflexivity.
Qed.

(** The records keep one entry per node, and a new entry holds the trimmed
    text of its node. *)
Lemma record_nodes_spec (w : World) (nodes : list (NodeRef * string)) (index : nat)
    (m : NodeMap.t) :
  NoDup (NodeMap.keys m) ->
  NoDup (NodeMap.keys (record_nodes w nodes index m))
  /\ forall n d, In (n, d) (record_nodes w nodes index m) ->
       In (n, d) m \/ original d = JsString.trim (text_of w n).
Proof.
  revert index m. induction nodes as [|[node parent] rest IH]; intros index m Hnd; simpl.
  - auto.
  - destruct (JsString.truthy _ && negb (NodeMap.has node m)) eqn:Hcond.
    + apply andb_true_iff in Hcond as [_ Hhas]. apply negb_true_iff in Hhas.
      apply NodeMap_has_false in Hhas.
      rewrite NodeMap_set_fresh by exact Hhas.
      match goal with
      | |- context [(m ++ [(node, ?r)])%list] =>
          destruct (IH (S index) (m ++ [(node, r)])%list) as [Hnd' Hrec]
      end.
      { unfold NodeMap.keys. rewrite map_app. simpl. apply NoDup_app.
        split; [exact Hnd|]. split; [|apply NoDup_singleton].
        intros x Hx Hx'. apply list_elem_of_In in Hx.
        apply list_elem_of_singleton in Hx'. subst. by apply Hhas. }
      split; [exact Hnd'|]. intros n d Hin.
      destruct (Hrec n d Hin) as [Hm|Ho]; [|auto].
      apply in_app_or in Hm as [Hm|[[= <- <-]|[]]]; auto.
    + by apply IH.
Qed.

(** What the round trip gives. After the extraction on a new translator,
    a run to a language other than [en] and a run back to [en], every
    recorded node shows its recorded original, which is the text it had at
    the extraction with the white space at both ends removed. *)
Lemma restore_returns_recorded_text
    (env : Env) (doc : Document) (texts : gmap NodeRef string)
    (storage : gmap string string) (pageLang : string) (loading select : option bool)
    (lang : string) :
  lang <> "en" ->
  let w0 := new_translator texts storage pageLang loading select in
  let w1 := extractText doc w0 in
  let w3 := run (translatePage env "en") (run (translatePage env lang) w1) in
  originalTexts w3 = originalTexts w1
  /\ currentLang w3 = "en"
  /\ forall node data,
       In (node, data) (originalTexts w1) ->
       text_of w3 node = original data
       /\ original data = JsString.trim (text_of w0 node).
Proof.
  intros Hlang w0 w1 w3.
  destruct (record_nodes_spec w0 (walk_body w0 doc) 0 []) as [Hnd Hrec];
    [apply NoDup_nil_2|].
  assert (Ho1 : originalTexts w1 = record_nodes w0 (walk_body w0 doc) 0 []) by reflexivity.
  destruct (translatePage_run env lang w1) as (w2 & E2 & Ho2 & Hc2 & Hi2 & _).
  { reflexivity. }
  { exact Hlang. }
  destruct (translatePage_run env "en" w2) as (w3' & E3 & Ho3 & Hc3 & _ & Ht3).
  { exact Hi2. }
  { rewrite Hc2. congruence. }
  assert (Hw3 : w3 = w3').
  { unfold w3, run. rewrite E2. simpl. by rewrite E3. }
  rewrite Hw3. split; [congruence|]. split; [exact Hc3|].
  intros node data Hin. split.
  - apply Ht3; [reflexivity| |]; rewrite Ho2; [by rewrite Ho1|exact Hin].
  - rewrite Ho1 in Hin. by destruct (Hrec node data Hin) as [[]|?].
Qed.

Lemma restore_witness :
  let w1 := extractText hello_doc hello_page in
  let w3 := run (translatePage (service (quoted "Bonjour le monde")) "en")
                (run (translatePage (service (quoted "Bonjour le monde")) "fr") w1) in
  text_of (run (translatePage (service (quoted "Bonjour le monde")) "fr") w1) 0
    = "Bonjour le monde"
  /\ text_of w3 0 = "Hello world".
Proof.
  split; [reflexivity|].
  destruct (restore_returns_recorded_text (service (quoted "Bonjour le monde")) hello_doc
              {[ 0 := " Hello world " ]} ∅ "en" (Some false) (Some false) "fr")
    as (_ & _ & H).
  - discriminate.
  - destruct (H 0 {| id := "text_0"; original := "Hello world"; parentTag := "p" |}) as [Ht _].
    + left. reflexivity.
    + exact Ht.
Defined.

(** The same page, node by node: the text that comes back is not the text
    the node had. *)
Lemma restore_loses_surrounding_space :
  let env := service (quoted "Bonjour le monde") in
  let w1 := extractText hello_doc hello_page in
  let w3 := run (translatePage env "en") (run (translatePage env "fr") w1) in
  In 0 (NodeMap.keys (originalTexts w1))
  /\ text_of w1 0 = " Hello world "
  /\ text_of w3 0 = "Hello world"
  /\ text_of w3 0 <> text_of w1 0.
Proof.
  vm_compute. split; [by left|]. split; [reflexivity|]. split; [reflexivity|].
  discriminate.
Qed.

(** C1. The round trip does not give a node its exact text back. The
    record keeps the trimmed text (lines 41 and 45) and [restoreOriginal]
    writes the record to every recorded node (lines 155-157), so after a
    run to a language other than [en] and a run back to [en] a recorded
    node whose text had white space at an end shows the trimmed text,
    which is not the text it had. This is so whatever the service
    answered, also for a node that no translation was written to. *)
Theorem restore_changes_text_with_surrounding_space
    (env : Env) (doc : Document) (texts : gmap NodeRef string)
    (storage : gmap string string) (pageLang : string) (loading select : option bool)
    (lang : string) (node : NodeRef) (data : TextRecord) :
  let w0 := new_translator texts storage pageLang loading select in
  let w1 := extractText doc w0 in
  let w3 := run (translatePage env "en") (run (translatePage env lang) w1) in
  lang <> "en" ->
  In (node, data) (originalTexts w1) ->
  JsString.trim (text_of w0 node) <> text_of w0 node ->
  text_of w3 node = JsString.trim (text_of w0 node)
  /\ text_of w3 node <> text_of w0 node.
Proof.
  intros w0 w1 w3 Hlang Hin Hspace.
  destruct (restore_returns_recorded_text env doc texts storage pageLang loading select
              lang Hlang) as (_ & _ & H).
  destruct (H node data Hin) as [Ht Ho].
  assert (E : text_of w3 node = JsString.trim (text_of w0 node)).
  { unfold w3, w1, w0. by rewrite Ht, Ho. }
  split; [exact E|]. by rewrite E.
Qed.

(** With the service down the run to [fr] writes nothing, and the run back
    to [en] still removes the spaces between the words of the sentence. *)
Lemma restore_changes_text_witness :
  let w1 := extractText docs_doc docs_page in
  let w2 := run (translatePage service_down "fr") w1 in
  let w3 := run (translatePage service_down "en") w2 in
  map (text_of w1) [0; 1; 2] = ["Read the "; "docs"; " now"]
  /\ map (text_of w2) [0; 1; 2] = ["Read the "; "docs"; " now"]
  /\ map (text_of w3) [0; 1; 2] = ["Read the"; "docs"; "now"]
  /\ text_of w3 0 <> text_of docs_page 0.
Proof.
  split; [reflexivity|]. split; [reflexivity|]. split; [reflexivity|].
  apply (restore_changes_text_with_surrounding_space service_down docs_doc
           (list_to_map [(0, "Read the "); (1, "docs"); (2, " now")]) ∅ "en"
           (Some false) (Some false) "fr" 0
           {| id := "text_0"; original := "Read the"; parentTag := "p" |}).
  - discriminate.
  - left. reflexivity.
  - discriminate.
Defined.

(** * Further properties *)

(** ** Extraction *)

Lemma NodeMap_has_true (node : NodeRef) (m : NodeMap.t) :
  In node (NodeMap.keys m) -> NodeMap.has node m = true.
Proof.
  intros Hin. unfold NodeMap.has.
  destruct (NodeMap_get_keys node m Hin) as [d ->]. reflexivity.
Qed.

(** The filter reads nothing but the text of the page. *)
Lemma walk_same_text (w w' : World) (n : Node) (parent : string) (optedOut : bool) :
  textContent w' = textContent w ->
  walk w' parent optedOut n = walk w parent optedOut n.
Proof.
  intros Ht. revert parent optedOut.
  induction n as [ref| |tag noTr kids IH] using Node_induction; intros parent optedOut; simpl.
  - unfold acceptNode, text_of. by rewrite Ht.
  - reflexivity.
  - induction IH as [|k kids Hk _ IHkids]; [reflexivity|]. by rewrite Hk, IHkids.
Qed.

(** The loop only appends. *)
Lemma record_nodes_appends (w : World) (nodes : list (NodeRef * string)) (index : nat)
    (m : NodeMap.t) :
  exists new,
    record_nodes w nodes index m = (m ++ new)%list
    /\ forall n d, In (n, d) new ->
         ~ In n (NodeMap.keys m) /\ original d = JsString.trim (text_of w n).
Proof.
  revert index m. induction nodes as [|[node parent] rest IH]; intros index m; simpl.
  - exists []. split; [by rewrite app_nil_r|intros n d []].
  - destruct (JsString.truthy _ && negb (NodeMap.has node m)) eqn:Hcond; [|apply IH].
    apply andb_true_iff in Hcond as [_ Hhas]. apply negb_true_iff in Hhas.
    apply NodeMap_has_false in Hhas. rewrite NodeMap_set_fresh by exact Hhas.
    match goal with
    | |- context [(m ++ [(node, ?r)])%list] =>
        destruct (IH (S index) (m ++ [(node, r)])%list) as (new & E & Hnew);
        exists ((node, r) :: new)
    end.
    split; [by rewrite E, <- app_assoc|].
    intros n d [[= <- <-]|Hin]; [auto|].
    destruct (Hnew n d Hin) as [Hn Ho]. split; [|exact Ho].
    intros Hn'. apply Hn. unfold NodeMap.keys. rewrite map_app, in_app_iff. by left.
Qed.

(** After the loop every node of the list with a non-empty trimmed text
    has a record. *)
Lemma record_nodes_covers (w : World) (nodes : list (NodeRef * string)) (index : nat)
    (m : NodeMap.t) (node : NodeRef) (parent : string) :
  In (node, parent) nodes ->
  JsString.truthy (JsString.trim (text_of w node)) = true ->
  In node (NodeMap.keys (record_nodes w nodes index m)).
Proof.
  intros Hin Htext. revert index m.
  induction nodes as [|[n p] rest IH]; intros index m; [destruct Hin|].
  assert (Hkeep : forall i m', In node (NodeMap.keys m') ->
                               In node (NodeMap.keys (record_nodes w rest i m'))).
  { intros i m' Hm'. destruct (record_nodes_appends w rest i m') as (new & -> & _).
    unfold NodeMap.keys. rewrite map_app, in_app_iff. by left. }
  destruct Hin as [[= -> ->]|Hin]; [|apply IH, Hin].
  simpl. rewrite Htext. simpl. apply Hkeep.
  destruct (NodeMap.has node m) eqn:Hhas; simpl.
  - unfold NodeMap.has in Hhas. destruct (NodeMap.get node m) eqn:Hget; [|discriminate].
    clear -Hget. induction m as [|[k v] m IHm]; [discriminate|]. simpl in *.
    destruct (decide (k = node)); [by left|right; auto].
  - apply NodeMap_has_false in Hhas. rewrite NodeMap_set_fresh by exact Hhas.
    unfold NodeMap.keys. rewrite map_app, in_app_iff. right. by left.
Qed.

(** The loop changes nothing when every node with a text has its record. *)
Lemma record_nodes_recorded (w : World) (nodes : list (NodeRef * string)) (index : nat)
    (m : NodeMap.t) :
  (forall n p, In (n, p) nodes -> JsString.truthy (JsString.trim (text_of w n)) = true ->
               In n (NodeMap.keys m)) ->
  record_nodes w nodes index m = m.
Proof.
  revert index. induction nodes as [|[n p] rest IH]; intros index H; [reflexivity|].
  simpl. destruct (JsString.truthy (JsString.trim (text_of w n))) eqn:Ht; simpl.
  - rewrite (NodeMap_has_true n m) by (apply (H n p); [by left|exact Ht]).
    simpl. apply IH. intros n' p' Hin. apply (H n' p'). by right.
  - apply IH. intros n' p' Hin. apply (H n' p'). by right.
Qed.

Lemma record_nodes_same_text (w w' : World) (nodes : list (NodeRef * string)) (index : nat)
    (m : NodeMap.t) :
  textContent w' = textContent w ->
  record_nodes w' nodes index m = record_nodes w nodes index m.
Proof.
  intros Ht. revert index m. induction nodes as [|[n p] rest IH]; intros index m; simpl.
  - reflexivity.
  - unfold text_of. rewrite Ht. apply IH.
Qed.

Lemma walk_body_truthy (w : World) (doc : Document) (n : NodeRef) (p : string) :
  In (n, p) (walk_body w doc) ->
  JsString.truthy (JsString.trim (text_of w n)) = true.
Proof.
  intros Hin. apply walk_accepted in Hin as [_ (Hlen & _)].
  destruct (JsString.trim (text_of w n)); [simpl in Hlen; lia|reflexivity].
Qed.

(** X1. An extraction keeps every record it finds, in place, and appends
    records only for nodes that had none, each with the trimmed text the
    node has at that moment; every text node that passes the filter has a
    record afterwards; it leaves the text of the page alone; and a second
    extraction on the same document changes nothing. *)
Theorem extractText_keeps_records_and_is_idempotent (doc : Document) (w : World) :
  (exists new,
     originalTexts (extractText doc w) = (originalTexts w ++ new)%list
     /\ forall n d, In (n, d) new ->
          ~ In n (NodeMap.keys (originalTexts w))
          /\ original d = JsString.trim (text_of w n))
  /\ (forall n p, In (n, p) (walk_body w doc) ->
                  In n (NodeMap.keys (originalTexts (extractText doc w))))
  /\ textContent (extractText doc w) = textContent w
  /\ originalTexts (extractText doc (extractText doc w)) = originalTexts (extractText doc w).
Proof.
  split; [apply record_nodes_appends|].
  split.
  { intros n p Hin. simpl. eapply record_nodes_covers; [exact Hin|].
    by eapply walk_body_truthy. }
  split; [reflexivity|].
  assert (Ht : textContent (extractText doc w) = textContent w) by reflexivity.
  unfold extractText at 1. simpl originalTexts at 1.
  unfold walk_body. rewrite (walk_same_text _ _ _ _ _ Ht).
  rewrite (record_nodes_same_text _ _ _ _ _ Ht).
  apply record_nodes_recorded. intros n p Hin Htext.
  simpl. by eapply record_nodes_covers.
Qed.

Lemma record_nodes_fresh (w : World) (nodes : list (NodeRef * string)) (index : nat)
    (m : NodeMap.t) :
  NoDup (map fst nodes) ->
  (forall n, In n (map fst nodes) -> ~ In n (NodeMap.keys m)) ->
  (forall n p, In (n, p) nodes -> JsString.truthy (JsString.trim (text_of w n)) = true) ->
  record_nodes w nodes index m
  = (m ++ imap (fun j found => record_of w (index + j) found) nodes)%list.
Proof.
  revert index m. induction nodes as [|[n p] rest IH]; intros index m Hnd Hnew Htext.
  - simpl. by rewrite app_nil_r.
  - simpl in Hnd. apply NoDup_cons in Hnd as [Hn Hnd]. rewrite list_elem_of_In in Hn.
    simpl. rewrite (Htext n p) by (by left).
    assert (Hfresh : ~ In n (NodeMap.keys m)) by (apply Hnew; by left).
    destruct (NodeMap.has n m) eqn:Hhas.
    { exfalso. apply Hfresh. unfold NodeMap.has in Hhas.
      destruct (NodeMap.get n m) eqn:Hget; [|discriminate].
      clear -Hget. induction m as [|[k v] m IHm]; [discriminate|]. simpl in *.
      destruct (decide (k = n)); [by left|right; auto]. }
    simpl. rewrite NodeMap_set_fresh by exact Hfresh.
    rewrite IH.
    + rewrite <- app_assoc. simpl. f_equal. f_equal.
      * unfold record_of. simpl. by rewrite Nat.add_0_r.
      * apply imap_ext. intros j x _. simpl. f_equal. lia.
    + exact Hnd.
    + intros n' Hn'. unfold NodeMap.keys. rewrite map_app, in_app_iff. simpl.
      intros [Hm|[<-|[]]]; [|contradiction].
      eapply Hnew; [right; exact Hn'|exact Hm].
    + intros n' p' Hin. apply (Htext n' p'). by right.
Qed.

Lemma keys_imap_record_of (w : World) (nodes : list (NodeRef * string)) (k : nat) :
  map fst (imap (fun j found => record_of w (k + j) found) nodes) = map fst nodes.
Proof.
  revert k. induction nodes as [|x l IH]; intros k; [reflexivity|].
  simpl. f_equal. rewrite <- (IH (S k)). f_equal.
  apply imap_ext. intros j y _. simpl. f_equal. lia.
Qed.

(** X2. On a new translator, and a document in which no text node occurs
    twice, the extraction records exactly the nodes the walker accepts, in
    document order: the node at position [i] gets the identifier
    [text_i], its trimmed text and the lower-cased tag of its parent. *)
Theorem fresh_extraction_records_accepted_nodes_in_order (doc : Document) (w : World) :
  originalTexts w = [] ->
  NoDup (map fst (walk_body w doc)) ->
  originalTexts (extractText doc w) = imap (record_of w) (walk_body w doc)
  /\ NodeMap.keys (originalTexts (extractText doc w)) = map fst (walk_body w doc).
Proof.
  intros Hempty Hnd.
  assert (E : originalTexts (extractText doc w)
              = imap (fun j found => record_of w (0 + j) found) (walk_body w doc)).
  { simpl. rewrite Hempty, record_nodes_fresh.
    - reflexivity.
    - exact Hnd.
    - intros n _ [].
    - intros n p. apply walk_body_truthy. }
  split; [exact E|]. rewrite E. apply keys_imap_record_of.
Qed.

(** A page with two paragraphs, a year and a link. *)
Lemma fresh_extraction_witness :
  originalTexts
    (extractText
       {| htmlNoTranslate := false; bodyNoTranslate := false;
          bodyChildren := [Element "H1" false [TextNode 0]; CommentNode;
                           Element "P" false [TextNode 1; Element "A" false [TextNode 2]];
                           Element "FOOTER" false [TextNode 3]] |}
       (fresh_page (list_to_map [(0, "Welcome"); (1, " Read the docs at ");
                                 (2, "https://example.org"); (3, "2024")])))
  = [(0, {| id := "text_0"; original := "Welcome"; parentTag := "h1" |});
     (1, {| id := "text_1"; original := "Read the docs at"; parentTag := "p" |})].
Proof.
  destruct (fresh_extraction_records_accepted_nodes_in_order
              {| htmlNoTranslate := false; bodyNoTranslate := false;
                 bodyChildren := [Element "H1" false [TextNode 0]; CommentNode;
                                  Element "P" false [TextNode 1; Element "A" false [TextNode 2]];
                                  Element "FOOTER" false [TextNode 3]] |}
              (fresh_page (list_to_map [(0, "Welcome"); (1, " Read the docs at ");
                                        (2, "https://example.org"); (3, "2024")])))
    as [E _].
  - reflexivity.
  - apply (bool_decide_unpack _). vm_compute. exact I.
  - rewrite E. reflexivity.
Defined.

Lemma text_id_inj (i j : nat) : "text_" +:+ pretty i = "text_" +:+ pretty j -> i = j.
Proof. intros E. injection E as E. by apply (inj pretty). Qed.

Lemma record_nodes_ids (w : World) (nodes : list (NodeRef * string)) (index : nat)
    (m : NodeMap.t) :
  (forall s, In s (ids m) -> exists i, i < index /\ s = "text_" +:+ pretty i) ->
  NoDup (ids m) ->
  NoDup (ids (record_nodes w nodes index m)).
Proof.
  revert index m. induction nodes as [|[n p] rest IH]; intros index m Hbound Hnd; simpl.
  - exact Hnd.
  - destruct (JsString.truthy _ && negb (NodeMap.has n m)) eqn:Hcond.
    + apply andb_true_iff in Hcond as [_ Hhas]. apply negb_true_iff in Hhas.
      apply NodeMap_has_false in Hhas. rewrite NodeMap_set_fresh by exact Hhas.
      apply IH.
      * intros s. unfold ids. rewrite map_app, in_app_iff. simpl.
        intros [Hs|[<-|[]]].
        -- destruct (Hbound s Hs) as (i & Hi & ->). exists i. split; [lia|reflexivity].
        -- exists index. split; [lia|reflexivity].
      * unfold ids. rewrite map_app. simpl. apply NoDup_app.
        split; [exact Hnd|]. split; [|apply NoDup_singleton].
        intros s Hs Hs'. apply list_elem_of_In in Hs.
        apply list_elem_of_singleton in Hs'. subst s.
        destruct (Hbound _ Hs) as (i & Hi & E). apply text_id_inj in E. lia.
    + apply IH; [|exact Hnd].
      intros s Hs. destruct (Hbound s Hs) as (i & Hi & ->). exists i. split; [lia|reflexivity].
Qed.

(** X3. The records made by the extraction on a new translator carry
    pairwise distinct identifiers, and no node has two records. *)
Theorem fresh_extraction_identifiers_are_distinct (doc : Document) (w : World) :
  originalTexts w = [] ->
  NoDup (ids (originalTexts (extractText doc w)))
  /\ NoDup (NodeMap.keys (originalTexts (extractText doc w))).
Proof.
  intros Hempty. simpl. rewrite Hempty. split.
  - apply record_nodes_ids; [intros s []|apply NoDup_nil_2].
  - apply record_nodes_spec. apply NoDup_nil_2.
Qed.

Lemma fresh_extraction_identifiers_witness :
  ids (originalTexts (extractText docs_doc docs_page)) = ["text_0"; "text_1"; "text_2"]
  /\ NodeMap.keys (originalTexts (extractText docs_doc docs_page)) = [0; 1; 2]
  /\ NoDup (ids (originalTexts (extractText docs_doc docs_page)))
  /\ NoDup (NodeMap.keys (originalTexts (extractText docs_doc docs_page))).
Proof.
  split; [reflexivity|]. split; [reflexivity|].
  apply (fresh_extraction_identifiers_are_distinct docs_doc docs_page). reflexivity.
Defined.

(** ** Relations kept by a run *)

Section Steps.

Variable R : World -> World -> Prop.
Hypothesis R_refl : forall w, R w w.
Hypothesis R_trans : forall w1 w2 w3, R w1 w2 -> R w2 w3 -> R w1 w3.

Lemma steps_ret {A} (a : A) : steps R (ret a).
Proof. intros w. apply R_refl. Qed.

Lemma steps_bind {A B} (m : M A) (k : A -> M B) :
  steps R m -> (forall a, steps R (k a)) -> steps R (bind m k).
Proof.
  intros Hm Hk w. unfold bind. specialize (Hm w).
  destruct (m w) as [[a|e] w1]; simpl in *; [|exact Hm].
  eapply R_trans; [exact Hm|apply Hk].
Qed.

Lemma steps_try_catch_finally {A} (m : M A) (handler : JsError -> M A) (final : M unit)
    (w : World) :
  R w (snd (m w)) -> (forall e, steps R (handler e)) -> steps R final ->
  R w (snd (try_catch_finally m handler final w)).
Proof.
  intros Hm Hh Hf. unfold try_catch_finally, try_catch.
  destruct (m w) as [[a|e] w1]; simpl in Hm.
  - specialize (Hf w1). destruct (final w1) as [[[]|e] w2]; simpl in *;
      eapply R_trans; eassumption.
  - specialize (Hh e w1). destruct (handler e w1) as [c w2]. simpl in Hh.
    specialize (Hf w2). destruct (final w2) as [[[]|e'] w3]; simpl in *;
      (eapply R_trans; [exact Hm|]); eapply R_trans; eassumption.
Qed.

Variable env : Env.
Variable lang : string.

(** The nodes whose text the relation lets a run write. *)
Variable writable : NodeRef -> Prop.

Hypothesis R_lookup : forall text w, R w (snd (lookup_or_request text lang w)).
Hypothesis R_response : forall text n, steps R (handle_response env text lang n).
Hypothesis R_write : forall node s w, writable node -> R w (write_text node s w).
Hypothesis R_emit : forall e w, R w (emit e w).

Lemma steps_apply_translation (node : NodeRef) (data : TextRecord) (translated : string) :
  writable node -> steps R (apply_translation node data translated).
Proof.
  intros Hn w. unfold apply_translation. destruct (_ && _); simpl; auto.
Qed.

Lemma steps_complete (t : Task) :
  writable (task_node t) -> steps R (complete env lang t).
Proof.
  intros Hn. unfold complete. apply steps_bind.
  - destruct (task_lookup t); [apply steps_ret|apply R_response].
  - intros r. apply steps_bind; [by apply steps_apply_translation|intros; apply steps_ret].
Qed.

Lemma steps_complete_all (ts : list Task) :
  (forall t, In t ts -> writable (task_node t)) -> steps R (complete_all env lang ts).
Proof.
  induction ts as [|t ts IH]; intros Hn; simpl; [apply steps_ret|].
  apply steps_bind; [apply steps_complete, Hn; by left|]. intros r.
  apply steps_bind; [apply IH; intros t' Ht'; apply Hn; by right|]. intros rs.
  apply steps_ret.
Qed.

Lemma start_all_nodes (batch : list NodeRef) (w w' : World) (tasks : list Task) :
  start_all lang batch w = (Normal tasks, w') -> map task_node tasks = batch.
Proof.
  revert w w' tasks. induction batch as [|node rest IH]; intros w w' tasks; simpl.
  - intros H. inversion H. reflexivity.
  - destruct (NodeMap.get node (originalTexts w)) as [data|]; [|discriminate].
    destruct (lookup_or_request (original data) lang w) as [l w1]. unfold bind.
    destruct (start_all lang rest w1) as [[ts|e] w2] eqn:E; [|discriminate].
    intros H. inversion H. simpl. f_equal. by eapply IH.
Qed.

Lemma steps_start_all (batch : list NodeRef) : steps R (start_all lang batch).
Proof.
  induction batch as [|node rest IH]; simpl; [apply steps_ret|].
  intros w. destruct (NodeMap.get node (originalTexts w)) as [data|]; [|apply R_refl].
  pose proof (R_lookup (original data) w) as Hl.
  destruct (lookup_or_request (original data) lang w) as [l w1]. simpl in Hl.
  eapply R_trans; [exact Hl|].
  apply steps_bind; [exact IH|]. intros ts. apply steps_ret.
Qed.

Lemma steps_run_batch (batch : list NodeRef) :
  (forall n, In n batch -> writable n) -> steps R (run_batch env lang batch).
Proof.
  intros Hn w. unfold run_batch, bind.
  pose proof (steps_start_all batch w) as Hs.
  destruct (start_all lang batch w) as [[tasks|e] w1] eqn:E; simpl in *; [|exact Hs].
  eapply R_trans; [exact Hs|]. apply steps_complete_all.
  intros t Ht. apply Hn. rewrite <- (start_all_nodes _ _ _ _ E).
  apply in_map. rewrite <- list_elem_of_In in *.
  by rewrite <- (merge_sort_Permutation (arrives_before env) tasks).
Qed.

Lemma steps_run_batches (bs : list (list NodeRef)) :
  (forall n, In n (concat bs) -> writable n) -> steps R (run_batches env lang bs).
Proof.
  induction bs as [|b bs IH]; intros Hn; [apply steps_ret|].
  simpl in Hn. cbn [run_batches].
  apply steps_bind; [apply steps_run_batch; intros n Hin; apply Hn, in_or_app; by left|].
  intros r. apply steps_bind.
  { destruct bs; [apply steps_ret|]. intros w. apply R_emit. }
  intros _. apply steps_bind; [|intros; apply steps_ret].
  apply IH. intros n Hin. apply Hn, in_or_app. by right.
Qed.

Lemma steps_translateToLanguage (w : World) :
  (forall n, In n (NodeMap.keys (originalTexts w)) -> writable n) ->
  R w (snd (translateToLanguage env lang w)).
Proof.
  intros Hn. rewrite translateToLanguage_batches. apply steps_run_batches.
  intros n. rewrite concat_batches. apply Hn.
Qed.

Lemma steps_restore_fold (entries : NodeMap.t) (w : World) :
  (forall n, In n (NodeMap.keys entries) -> writable n) ->
  R w (fold_left (fun w' '(node, data) => write_text node (original data) w') entries w).
Proof.
  revert w. induction entries as [|[k v] entries IH]; intros w Hn; simpl.
  - apply R_refl.
  - eapply R_trans; [apply R_write, Hn; by left|]. apply IH.
    intros n Hin. apply Hn. by right.
Qed.

Hypothesis R_busy : forall b w, R w (set_isTranslating b w).
Hypothesis R_indicators : forall l s w, R w (set_indicators l s w).
Hypothesis R_currentLang : forall w, R w (set_currentLang lang w).
Hypothesis R_htmlLang : forall w, R w (set_htmlLang lang w).
Hypothesis R_preference :
  forall w, R w (set_localStorage (<["site_language" := lang]> (localStorage w)) w).

Lemma steps_translatePage_try (w : World) :
  (forall n, In n (NodeMap.keys (originalTexts w)) -> writable n) ->
  R w (snd (translatePage_try env lang w)).
Proof.
  intros Hn. unfold translatePage_try, bind at 1.
  assert (Hfirst : R w (snd ((if decide (lang = "en") then restoreOriginal
                              else (translateToLanguage env lang;; ret tt)) w))).
  { destruct (decide (lang = "en")).
    - simpl. by apply steps_restore_fold.
    - unfold bind. pose proof (steps_translateToLanguage w Hn) as Ht.
      by destruct (translateToLanguage env lang w) as [[res|e] w1]. }
  destruct ((if decide (lang = "en") then restoreOriginal
             else (translateToLanguage env lang;; ret tt)) w) as [[[]|e] w1];
    simpl in *; [|exact Hfirst].
  eapply R_trans; [exact Hfirst|].
  eapply R_trans; [apply R_currentLang|].
  eapply R_trans; [apply R_htmlLang|].
  eapply R_trans; [apply R_preference|].
  eapply R_trans; [apply R_emit|]. apply R_emit.
Qed.

(** A relation kept by every primitive step is kept by [translatePage]. *)
Lemma steps_translatePage (w : World) :
  (forall n, In n (NodeMap.keys (originalTexts w)) -> writable n) ->
  R w (snd (translatePage env lang w)).
Proof.
  intros Hn. unfold translatePage, translatePage_around.
  destruct (isTranslating w || bool_decide (lang = currentLang w)); [apply R_refl|].
  unfold bind at 1, modify at 1. unfold bind at 1, setLoading at 1, modify at 1.
  eapply R_trans; [apply R_busy|]. eapply R_trans; [apply R_indicators|].
  apply steps_try_catch_finally.
  - apply steps_translatePage_try. exact Hn.
  - intros e w'. apply R_emit.
  - intros w'. simpl. eapply R_trans; [apply R_busy|]. apply R_indicators.
Qed.

End Steps.

(** ** Runs of [translatePage], exactly *)

Lemma translatePage_translates (env : Env) (lang : string) (w : World) :
  isTranslating w = false ->
  lang <> currentLang w ->
  lang <> "en" ->
  exists res wt,
    translateToLanguage env lang (entered w) = (Normal res, wt)
    /\ page_frame (entered w) wt
    /\ translatePage env lang w = (Normal tt, switched lang wt).
Proof.
  intros Hbusy Hcur Hen.
  destruct (translateToLanguage_frame env lang (entered w)) as (res & wt & E & Hp).
  exists res, wt. split; [exact E|]. split; [exact Hp|].
  unfold translatePage. rewrite translatePage_around_unfold by assumption.
  fold (entered w). unfold try_catch_finally, try_catch, translatePage_try.
  rewrite decide_False by exact Hen.
  unfold bind at 1. unfold bind at 1. rewrite E. reflexivity.
Qed.

Lemma translatePage_restores (env : Env) (w : World) :
  isTranslating w = false ->
  currentLang w <> "en" ->
  translatePage env "en" w = (Normal tt, switched "en" (run restoreOriginal (entered w))).
Proof.
  intros Hbusy Hcur.
  unfold translatePage. rewrite translatePage_around_unfold by (auto; congruence).
  reflexivity.
Qed.

Lemma translatePage_skips (env : Env) (lang : string) (w : World) :
  isTranslating w || bool_decide (lang = currentLang w) = true ->
  translatePage env lang w = (Normal tt, w).
Proof.
  intros H. unfold translatePage, translatePage_around. by rewrite H.
Qed.

(** X4. Asking twice for the same language does the work once: whatever
    the state and the service, a second [translatePage] for the language of
    the first returns at once and changes nothing. *)
Theorem translatePage_twice_is_once (env env' : Env) (lang : string) (w : World) :
  translatePage env' lang (run (translatePage env lang) w)
  = (Normal tt, run (translatePage env lang) w).
Proof.
  destruct (isTranslating w || bool_decide (lang = currentLang w)) eqn:Hskip.
  { unfold run. rewrite (translatePage_skips env lang w Hskip). simpl.
    by apply translatePage_skips. }
  apply orb_false_iff in Hskip as [Hbusy Hcur]. apply bool_decide_eq_false in Hcur.
  destruct (translatePage_run env lang w Hbusy Hcur) as (w' & E & _ & Hc & _).
  unfold run. rewrite E. simpl. apply translatePage_skips.
  rewrite bool_decide_eq_true_2 by (by rewrite Hc). apply orb_true_r.
Qed.

Lemma translatePage_run_switches (env : Env) (lang : string) (w : World) :
  isTranslating w = false ->
  lang <> currentLang w ->
  currentLang (run (translatePage env lang) w) = lang
  /\ htmlLang (run (translatePage env lang) w) = lang
  /\ localStorage (run (translatePage env lang) w) !! "site_language" = Some lang
  /\ isTranslating (run (translatePage env lang) w) = false
  /\ hd_error (events (run (translatePage env lang) w)) = Some (LogSuccess lang).
Proof.
  intros Hbusy Hcur. destruct (decide (lang = "en")) as [->|Hen].
  - unfold run. rewrite translatePage_restores by (auto; congruence). simpl.
    repeat split. apply lookup_insert_eq.
  - destruct (translatePage_translates env lang w Hbusy Hcur Hen) as (res & wt & _ & _ & E).
    unfold run. rewrite E. simpl. repeat split. apply lookup_insert_eq.
Qed.

(** X5. A run of [translatePage] that is not a no-op ends with the target
    as current language, as the language the document declares and as the
    stored preference, with the busy flag cleared, and its last console
    line reports the success. This holds whatever the service answered. *)
Theorem translatePage_switches_language (env : Env) (lang : string) (w : World) :
  isTranslating w = false ->
  lang <> currentLang w ->
  currentLang (run (translatePage env lang) w) = lang
  /\ htmlLang (run (translatePage env lang) w) = lang
  /\ localStorage (run (translatePage env lang) w) !! "site_language" = Some lang
  /\ isTranslating (run (translatePage env lang) w) = false
  /\ hd_error (events (run (translatePage env lang) w)) = Some (LogSuccess lang).
Proof. apply translatePage_run_switches. Qed.

Lemma translatePage_switches_witness :
  currentLang (run (translatePage service_down "fr") hello_page) = "fr"
  /\ localStorage (run (translatePage service_down "fr") hello_page) !! "site_language"
     = Some "fr".
Proof.
  destruct (translatePage_switches_language service_down "fr" hello_page)
    as (Hc & _ & Hs & _).
  - reflexivity.
  - discriminate.
  - split; [exact Hc|exact Hs].
Defined.

(** ** What a run leaves alone *)

Lemma lookup_or_request_same_page (lang text : string) (w : World) :
  originalTexts (snd (lookup_or_request text lang w)) = originalTexts w
  /\ textContent (snd (lookup_or_request text lang w)) = textContent w.
Proof.
  destruct (lookup_or_request_frame text lang w) as (Ho & Ht & _). auto.
Qed.

Lemma handle_response_same_page (env : Env) (lang text : string) (n : nat) (w : World) :
  originalTexts (snd (handle_response env text lang n w)) = originalTexts w
  /\ textContent (snd (handle_response env text lang n w)) = textContent w.
Proof.
  destruct (handle_response_frame env text lang n w) as [(Ho & Ht & _) _]. auto.
Qed.

Lemma translatePage_same_records (env : Env) (lang : string) (w : World) :
  originalTexts (run (translatePage env lang) w) = originalTexts w.
Proof.
  apply (steps_translatePage (fun w w' => originalTexts w' = originalTexts w)
           ltac:(reflexivity) ltac:(congruence) env lang (fun _ => True));
    try (intros; reflexivity); try (intros; exact I).
  - intros text w1. apply lookup_or_request_same_page.
  - intros text n w1. apply handle_response_same_page.
Qed.

Lemma translatePage_same_text (env : Env) (lang : string) (w : World) (node : NodeRef) :
  ~ In node (NodeMap.keys (originalTexts w)) ->
  text_of (run (translatePage env lang) w) node = text_of w node.
Proof.
  intros Hn.
  apply (steps_translatePage (fun w w' => text_of w' node = text_of w node)
           ltac:(reflexivity) ltac:(congruence) env lang (fun n => n <> node));
    try (intros; reflexivity).
  - intros text w1. unfold text_of.
    by destruct (lookup_or_request_same_page lang text w1) as [_ ->].
  - intros text n w1. unfold text_of.
    by destruct (handle_response_same_page env lang text n w1) as [_ ->].
  - intros n s w1 Hne. rewrite text_of_write_text. by rewrite decide_False.
  - intros n Hin ->. contradiction.
Qed.

(** X6. Whatever the language, the service and the state, [translatePage]
    leaves the records as they are and never writes a text node that has
    no record. *)
Theorem translatePage_touches_recorded_nodes_only (env : Env) (lang : string) (w : World) :
  originalTexts (run (translatePage env lang) w) = originalTexts w
  /\ forall node,
       ~ In node (NodeMap.keys (originalTexts w)) ->
       text_of (run (translatePage env lang) w) node = text_of w node.
Proof.
  split; [apply translatePage_same_records|apply translatePage_same_text].
Qed.

(** ** Invariants of the translator *)

Lemma coherent_same_tiers (w w' : World) :
  cache w' = cache w -> localStorage w' = localStorage w -> coherent w -> coherent w'.
Proof. unfold coherent. intros -> ->. auto. Qed.

Lemma coherent_written (key value : string) (c s : gmap string string) :
  (forall k v, c !! k = Some v -> s !! localStorageKey k = Some v) ->
  forall k v, <[key := value]> c !! k = Some v ->
              <[localStorageKey key := value]> s !! localStorageKey k = Some v.
Proof.
  intros H k v. destruct (decide (key = k)) as [->|Hk].
  - rewrite !lookup_insert_eq. auto.
  - rewrite !lookup_insert_ne; [apply H|intros E; by apply Hk, localStorageKey_inj|exact Hk].
Qed.

Lemma lookup_or_request_coherent (text lang : string) (w : World) :
  coherent w -> coherent (snd (lookup_or_request text lang w)).
Proof.
  intros Hc.
  destruct (lookup_or_request_cases text lang w)
    as [(v & _ & ->)|[(v & _ & Hs & _ & ->)|(_ & _ & ->)]]; simpl; try exact Hc.
  intros k v'. simpl. destruct (decide (cacheKey text lang = k)) as [<-|Hk].
  - rewrite lookup_insert_eq. intros [= <-]. exact Hs.
  - rewrite lookup_insert_ne by exact Hk. apply Hc.
Qed.

Lemma handle_response_coherent (env : Env) (text lang : string) (n : nat) (w : World) :
  coherent w -> coherent (snd (handle_response env text lang n w)).
Proof.
  intros Hc.
  destruct (handle_response_cases env text lang n w) as [(t & _ & ->)|(wn & _ & ->)];
    simpl; [|exact Hc].
  intros k v. simpl. by apply coherent_written.
Qed.

Lemma getCachedTranslation_coherent (env : Env) (text lang : string) (w : World) :
  coherent w -> coherent (run (getCachedTranslation env text lang) w).
Proof.
  intros Hc. unfold run. rewrite getCachedTranslation_unfold.
  pose proof (lookup_or_request_coherent text lang w Hc) as Hl.
  destruct (lookup_or_request text lang w) as [[v|n] w1]; simpl in *; [exact Hl|].
  by apply handle_response_coherent.
Qed.

Lemma translatePage_coherent (env : Env) (lang : string) (w : World) :
  coherent w -> coherent (run (translatePage env lang) w).
Proof.
  apply (steps_translatePage (fun w w' => coherent w -> coherent w')
           ltac:(intros ? H; exact H)
           ltac:(intros ? ? ? H1 H2 H; exact (H2 (H1 H)))
           env lang (fun _ => True));
    try (intros; assumption); try (intros; exact I).
  - intros text w1. apply lookup_or_request_coherent.
  - intros text n w1. apply handle_response_coherent.
  - intros w1 Hc k v Hk. simpl.
    rewrite lookup_insert_ne by (apply not_eq_sym, localStorageKey_not_preference).
    by apply Hc.
Qed.

Lemma perform_settled (w : World) (c : Call) : settled w -> settled (perform w c).
Proof.
  intros (Hnd & Hbusy & Hcoh & Hpref). destruct c as [doc|env lang]; simpl.
  - split; [by apply record_nodes_spec|]. split; [exact Hbusy|].
    split; [exact Hcoh|exact Hpref].
  - split; [by rewrite translatePage_same_records|].
    destruct (decide (lang = currentLang w)) as [Hcur|Hcur].
    + unfold run. rewrite (translatePage_skips env lang w)
        by (rewrite bool_decide_eq_true_2 by exact Hcur; apply orb_true_r).
      simpl. auto.
    + destruct (translatePage_run_switches env lang w Hbusy Hcur) as (Hc & Hh & Hs & Hi & _).
      split; [exact Hi|]. split; [by apply translatePage_coherent|].
      right. unfold preference_kept. by rewrite Hc, Hh, Hs.
Qed.

(** X7. Between calls the translator is settled. After any sequence of
    awaited [extractText] and [translatePage] calls on a new translator: no
    node has two records, the busy flag is clear, every entry of the memory
    tier is in the persisted tier with the same value, and unless the
    language is still the initial [en] the document language and the stored
    preference equal the current language. *)
Theorem translator_is_settled_between_calls
    (calls : list Call) (texts : gmap NodeRef string) (storage : gmap string string)
    (pageLang : string) (loading select : option bool) :
  settled (after_calls calls (new_translator texts storage pageLang loading select)).
Proof.
  assert (H0 : settled (new_translator texts storage pageLang loading select)).
  { split; [apply NoDup_nil_2|]. split; [reflexivity|]. split; [|by left].
    intros k v Hk. simpl in Hk. by rewrite lookup_empty in Hk. }
  revert H0. generalize (new_translator texts storage pageLang loading select).
  unfold after_calls. induction calls as [|c calls IH]; intros w Hw; simpl; [exact Hw|].
  apply IH. by apply perform_settled.
Qed.

(** X8. A call of [getCachedTranslation] keeps the memory tier a mirror of
    the persisted tier: if every memory entry is in the storage with the
    same value before the call, so it is after the call. *)
Theorem getCachedTranslation_keeps_tiers_coherent
    (env : Env) (text lang : string) (w : World) :
  coherent w -> coherent (run (getCachedTranslation env text lang) w).
Proof. apply getCachedTranslation_coherent. Qed.

Lemma getCachedTranslation_coherent_witness :
  localStorage (run (getCachedTranslation (service "Bonjour") "Hello" "fr") (fresh_page ∅))
    !! localStorageKey (cacheKey "Hello" "fr")
  = Some "Bonjour".
Proof.
  refine (getCachedTranslation_keeps_tiers_coherent (service "Bonjour") "Hello" "fr"
            (fresh_page ∅) _ (cacheKey "Hello" "fr") "Bonjour" _).
  - intros k v Hk. simpl in Hk. by rewrite lookup_empty in Hk.
  - reflexivity.
Defined.

(** ** Requests and pauses of a run *)

Lemma lookup_or_request_requests (text lang : string) (w : World) :
  requests w <= requests (snd (lookup_or_request text lang w)) <= requests w + 1.
Proof.
  destruct (lookup_or_request_cases text lang w)
    as [(v & _ & ->)|[(v & _ & _ & _ & ->)|(_ & _ & ->)]]; simpl; lia.
Qed.

Lemma sends_ret {A} (a : A) : sends_at_most 0 (ret a).
Proof. intros w. simpl. lia. Qed.

Lemma sends_bind {A B} (m : M A) (k : A -> M B) (i j : nat) :
  sends_at_most i m -> (forall a, sends_at_most j (k a)) -> sends_at_most (i + j) (bind m k).
Proof.
  intros Hm Hk w. unfold bind. specialize (Hm w).
  destruct (m w) as [[a|e] w1]; simpl in *; [|lia].
  specialize (Hk a w1). lia.
Qed.

Lemma start_all_requests (lang : string) (batch : list NodeRef) :
  sends_at_most (length batch) (start_all lang batch).
Proof.
  induction batch as [|node rest IH]; intros w; simpl; [lia|].
  destruct (NodeMap.get node (originalTexts w)) as [data|]; [|simpl; lia].
  pose proof (lookup_or_request_requests (original data) lang w) as Hl.
  destruct (lookup_or_request (original data) lang w) as [l w1]. simpl in Hl.
  pose proof (sends_bind (start_all lang rest)
                (fun tasks => ret ({| task_node := node; task_data := data;
                                      task_lookup := l |} :: tasks))
                (length rest) 0 IH (fun ts => sends_ret _) w1) as Hrest.
  lia.
Qed.

Lemma complete_all_requests (env : Env) (lang : string) (ts : list Task) :
  sends_at_most 0 (complete_all env lang ts).
Proof.
  intros w.
  assert (E : requests (snd (complete_all env lang ts w)) = requests w); [|lia].
  apply (steps_complete_all (fun w w' => requests w' = requests w)
           ltac:(reflexivity) ltac:(congruence) env lang (fun _ => True)).
  - intros text n w1. apply handle_response_frame.
  - intros; reflexivity.
  - intros; exact I.
Qed.

Lemma run_batch_requests (env : Env) (lang : string) (batch : list NodeRef) :
  sends_at_most (length batch) (run_batch env lang batch).
Proof.
  rewrite <- (Nat.add_0_r (length batch)). unfold run_batch.
  apply sends_bind; [apply start_all_requests|]. intros ts. apply complete_all_requests.
Qed.

Lemma run_batches_requests (env : Env) (lang : string) (bs : list (list NodeRef)) :
  sends_at_most (length (concat bs)) (run_batches env lang bs).
Proof.
  induction bs as [|b bs IH]; [apply sends_ret|].
  cbn [run_batches concat]. rewrite length_app.
  apply sends_bind; [apply run_batch_requests|]. intros r.
  change (length (concat bs)) with (0 + length (concat bs)).
  apply sends_bind.
  { destruct bs; intros w; simpl; lia. }
  intros _. rewrite <- (Nat.add_0_r (length (concat bs))).
  apply sends_bind; [exact IH|]. intros rs. apply sends_ret.
Qed.

Lemma restoreOriginal_tiers (w : World) :
  cache (run restoreOriginal w) = cache w
  /\ localStorage (run restoreOriginal w) = localStorage w
  /\ requests (run restoreOriginal w) = requests w.
Proof.
  unfold run, restoreOriginal, modify. simpl.
  generalize (originalTexts w) as entries. intros entries. revert w.
  induction entries as [|[k v] entries IH]; intros w; simpl; [auto|].
  destruct (IH (write_text k (original v) w)) as (-> & -> & ->). auto.
Qed.

Lemma switched_tiers (lang : string) (w : World) :
  cache (switched lang w) = cache w
  /\ localStorage (switched lang w) = <["site_language" := lang]> (localStorage w)
  /\ requests (switched lang w) = requests w
  /\ originalTexts (switched lang w) = originalTexts w
  /\ textContent (switched lang w) = textContent w.
Proof. by repeat split. Qed.

Lemma entered_tiers (w : World) :
  cache (entered w) = cache w
  /\ localStorage (entered w) = localStorage w
  /\ requests (entered w) = requests w
  /\ originalTexts (entered w) = originalTexts w
  /\ textContent (entered w) = textContent w.
Proof. by repeat split. Qed.

Lemma translatePage_requests (env : Env) (lang : string) (w : World) :
  requests w <= requests (run (translatePage env lang) w)
             <= requests w + length (originalTexts w).
Proof.
  destruct (isTranslating w || bool_decide (lang = currentLang w)) eqn:Hskip.
  { unfold run. rewrite (translatePage_skips env lang w Hskip). simpl. lia. }
  apply orb_false_iff in Hskip as [Hbusy Hcur]. apply bool_decide_eq_false in Hcur.
  destruct (decide (lang = "en")) as [->|Hen].
  - unfold run at 1 2. rewrite translatePage_restores by (auto; congruence).
    cbn [snd].
    destruct (switched_tiers "en" (run restoreOriginal (entered w))) as (_ & _ & -> & _).
    destruct (restoreOriginal_tiers (entered w)) as (_ & _ & ->).
    destruct (entered_tiers w) as (_ & _ & -> & _). lia.
  - destruct (translatePage_translates env lang w Hbusy Hcur Hen) as (res & wt & Et & _ & E).
    unfold run. rewrite E. cbn [snd].
    destruct (switched_tiers lang wt) as (_ & _ & -> & _).
    pose proof (run_batches_requests env lang
                  (batches (NodeMap.keys (originalTexts (entered w)))) (entered w)) as Hb.
    rewrite <- translateToLanguage_batches, Et, concat_batches in Hb. cbn [snd] in Hb.
    destruct (entered_tiers w) as (_ & _ & Hr & Ho & _). rewrite Hr, Ho in Hb.
    unfold NodeMap.keys in Hb. rewrite length_map in Hb. exact Hb.
Qed.

(** X9. A run of [translatePage] sends at most one request per recorded
    node, and a run to the base language sends none and leaves both cache
    tiers as they were, the stored preference apart. *)
Theorem translatePage_sends_at_most_one_request_per_node
    (env : Env) (lang : string) (w : World) :
  (requests w <= requests (run (translatePage env lang) w)
              <= requests w + length (originalTexts w))
  /\ (lang = "en" ->
      requests (run (translatePage env lang) w) = requests w
      /\ cache (run (translatePage env lang) w) = cache w
      /\ forall k, k <> "site_language" ->
           localStorage (run (translatePage env lang) w) !! k = localStorage w !! k).
Proof.
  split; [apply translatePage_requests|]. intros ->.
  destruct (isTranslating w || bool_decide ("en" = currentLang w)) eqn:Hskip.
  { unfold run. rewrite (translatePage_skips env "en" w Hskip). simpl. auto. }
  apply orb_false_iff in Hskip as [Hbusy Hcur]. apply bool_decide_eq_false in Hcur.
  unfold run at 1 2 3. rewrite translatePage_restores by (auto; congruence). cbn [snd].
  destruct (switched_tiers "en" (run restoreOriginal (entered w))) as (-> & -> & -> & _).
  destruct (restoreOriginal_tiers (entered w)) as (-> & -> & ->).
  destruct (entered_tiers w) as (-> & -> & -> & _).
  repeat split. intros k Hk. by rewrite lookup_insert_ne.
Qed.

Lemma ceil_div_8_step (n : nat) : 0 < n -> S ((n - 8 + 7) / 8) = (n + 7) / 8.
Proof.
  intros Hn. destruct (le_lt_dec n 8) as [Hle|Hgt].
  - replace (n - 8) with 0 by lia. rewrite (Nat.div_small (0 + 7) 8) by lia.
    apply (Nat.div_unique _ 8 1 (n - 1)); lia.
  - replace (n + 7) with ((n - 8 + 7) + 1 * 8) by lia.
    rewrite Nat.div_add by lia. lia.
Qed.

Lemma batches_length (nodes : list NodeRef) :
  length (batches nodes) = (length nodes + 7) / 8.
Proof.
  induction nodes as [|nodes Hne IH] using by_batches; [reflexivity|].
  rewrite batches_cons by exact Hne. cbn [length]. rewrite IH, length_drop.
  unfold batchSize. apply ceil_div_8_step.
  destruct nodes; [congruence|cbn [length]; lia].
Qed.

(** X10. A run of [translateToLanguage] over [n] recorded nodes pauses
    [ceil(n / 8) - 1] times, 300 ms each time, and not at all when there
    are at most eight nodes. *)
Theorem translateToLanguage_total_pause (env : Env) (lang : string) (w : World) :
  pauses (events (run (translateToLanguage env lang) w))
  = (repeat 300 ((length (originalTexts w) + 7) / 8 - 1) ++ pauses (events w))%list
  /\ (length (originalTexts w) <= 8 ->
      pauses (events (run (translateToLanguage env lang) w)) = pauses (events w)).
Proof.
  assert (E : pauses (events (run (translateToLanguage env lang) w))
              = (repeat 300 ((length (originalTexts w) + 7) / 8 - 1)
                 ++ pauses (events w))%list).
  { unfold run. rewrite translateToLanguage_batches, run_batches_pauses.
    - rewrite batches_length. unfold NodeMap.keys. by rewrite length_map.
    - intros n. by rewrite concat_batches. }
  split; [exact E|]. intros Hle. rewrite E.
  replace ((length (originalTexts w) + 7) / 8 - 1) with 0; [reflexivity|].
  symmetry. apply Nat.sub_0_le.
  apply Nat.lt_succ_r, Nat.Div0.div_lt_upper_bound. lia.
Qed.

(** ** A second pass, and a service that is down *)

Lemma cache_grows_refl (w : World) : cache_grows w w.
Proof. intros k. auto. Qed.

Lemma cache_grows_trans (w1 w2 w3 : World) :
  cache_grows w1 w2 -> cache_grows w2 w3 -> cache_grows w1 w3.
Proof. intros H1 H2 k Hk. auto. Qed.

Lemma lookup_or_request_grows (text lang : string) (w : World) :
  cache_grows w (snd (lookup_or_request text lang w)).
Proof.
  destruct (lookup_or_request_cases text lang w)
    as [(v & _ & ->)|[(v & _ & _ & _ & ->)|(_ & _ & ->)]]; intros k Hk; simpl; auto.
  rewrite lookup_insert_is_Some. destruct (decide (cacheKey text lang = k)); auto.
Qed.

Lemma handle_response_grows (env : Env) (text lang : string) (n : nat) (w : World) :
  cache_grows w (snd (handle_response env text lang n w)).
Proof.
  destruct (handle_response_cases env text lang n w) as [(t & _ & ->)|(wn & _ & ->)];
    intros k Hk; simpl; auto.
  rewrite lookup_insert_is_Some. destruct (decide (cacheKey text lang = k)); auto.
Qed.

Lemma complete_all_grows (env : Env) (lang : string) (ts : list Task) (w : World) :
  cache_grows w (snd (complete_all env lang ts w)).
Proof.
  apply (steps_complete_all cache_grows cache_grows_refl cache_grows_trans
           env lang (fun _ => True)).
  - intros text n w1. apply handle_response_grows.
  - intros node s w1 _ k Hk. exact Hk.
  - intros; exact I.
Qed.

Lemma start_all_grows (lang : string) (batch : list NodeRef) (w : World) :
  cache_grows w (snd (start_all lang batch w)).
Proof.
  apply (steps_start_all cache_grows cache_grows_refl cache_grows_trans).
  intros text w1. apply lookup_or_request_grows.
Qed.

Lemma lookup_hit_cached (text lang v : string) (w w' : World) :
  lookup_or_request text lang w = (Hit v, w') ->
  is_Some (cache w' !! cacheKey text lang).
Proof.
  destruct (lookup_or_request_cases text lang w)
    as [(v' & Hc & ->)|[(v' & _ & _ & _ & ->)|(_ & _ & ->)]]; intros H; inversion H; subst.
  - eauto.
  - simpl. rewrite lookup_insert_eq. eauto.
Qed.

Lemma start_all_ready (lang : string) (batch : list NodeRef) (w w' : World)
    (tasks : list Task) :
  start_all lang batch w = (Normal tasks, w') ->
  forall t, In t tasks ->
    ready lang w' t
    /\ NodeMap.get (task_node t) (originalTexts w) = Some (task_data t).
Proof.
  revert w w' tasks. induction batch as [|node rest IH]; intros w w' tasks; simpl.
  - intros H. inversion H. intros t [].
  - destruct (NodeMap.get node (originalTexts w)) as [data|] eqn:Hget; [|discriminate].
    destruct (lookup_or_request (original data) lang w) as [l w1] eqn:El. unfold bind.
    destruct (start_all lang rest w1) as [[ts|e] w2] eqn:E; [|discriminate].
    intros H. inversion H; subst. clear H.
    assert (Ho : originalTexts w1 = originalTexts w).
    { pose proof (lookup_or_request_same_page lang (original data) w) as [Ho _].
      by rewrite El in Ho. }
    intros t [<-|Ht].
    + split; [|exact Hget]. unfold ready. simpl. destruct l as [v|n]; [|exact I].
      pose proof (start_all_grows lang rest w1) as Hg. rewrite E in Hg.
      apply Hg. by eapply lookup_hit_cached.
    + destruct (IH _ _ _ E t Ht) as [Hr Hg]. split; [exact Hr|]. by rewrite <- Ho.
Qed.

(** With a service that always succeeds, every completed task leaves its
    key in the memory tier. *)
Lemma complete_all_caches (env : Env) (lang : string) (ts : list Task) (w : World) :
  always_succeeds env ->
  (forall t, In t ts -> ready lang w t) ->
  forall t, In t ts ->
    is_Some (cache (snd (complete_all env lang ts w))
               !! cacheKey (original (task_data t)) lang).
Proof.
  intros Hok. revert w. induction ts as [|t0 ts IH]; intros w Hready t; [intros []|].
  simpl. unfold bind at 1.
  assert (Hfirst : exists r w1,
             complete env lang t0 w = (Normal r, w1)
             /\ cache_grows w w1
             /\ is_Some (cache w1 !! cacheKey (original (task_data t0)) lang)).
  { unfold complete, bind.
    specialize (Hready t0 (or_introl eq_refl)). unfold ready in Hready.
    destruct (task_lookup t0) as [v|n].
    - change (ret v w) with (Normal v, w). cbv beta iota.
      destruct (apply_translation_spec (task_node t0) (task_data t0) v w)
        as (w1 & -> & _ & Hc & _).
      eexists _, w1. split; [reflexivity|].
      split; [intros k Hk|]; rewrite Hc; auto.
    - destruct (Hok n (request_url (original (task_data t0)) lang)) as [tr Htr].
      rewrite (handle_response_success _ _ _ _ _ _ Htr). cbv beta iota.
      destruct (apply_translation_spec (task_node t0) (task_data t0) (normalize tr)
                  (stored (original (task_data t0)) lang (normalize tr) w))
        as (w1 & -> & _ & Hc & _).
      eexists _, w1. split; [reflexivity|].
      split; [intros k Hk|]; rewrite Hc; simpl; rewrite lookup_insert_is_Some;
        [destruct (decide (cacheKey (original (task_data t0)) lang = k)); auto|by left]. }
  destruct Hfirst as (r & w1 & -> & Hg & Hkey).
  unfold bind.
  pose proof (complete_all_grows env lang ts w1) as Hg2.
  assert (Hrest : forall t', In t' ts ->
            is_Some (cache (snd (complete_all env lang ts w1))
                       !! cacheKey (original (task_data t')) lang)).
  { apply IH. intros t' Ht'. specialize (Hready t' (or_intror Ht')).
    unfold ready in *. destruct (task_lookup t'); [by apply Hg|exact I]. }
  destruct (complete_all env lang ts w1) as [[rs|e] w2]; simpl in *;
    intros [<-|Ht]; auto.
Qed.

Lemma NodeMap_get_In_keys (node : NodeRef) (data : TextRecord) (m : NodeMap.t) :
  NodeMap.get node m = Some data -> In node (NodeMap.keys m).
Proof.
  induction m as [|[k v] m IH]; simpl; [discriminate|].
  destruct (decide (k = node)); [by left|right; auto].
Qed.

Lemma run_batch_caches (env : Env) (lang : string) (batch : list NodeRef) (w : World) :
  always_succeeds env ->
  (forall n, In n batch -> In n (NodeMap.keys (originalTexts w))) ->
  cache_grows w (snd (run_batch env lang batch w))
  /\ forall n data,
       In n batch -> NodeMap.get n (originalTexts w) = Some data ->
       is_Some (cache (snd (run_batch env lang batch w)) !! cacheKey (original data) lang).
Proof.
  intros Hok Hkeys. split.
  { apply (steps_run_batch cache_grows cache_grows_refl cache_grows_trans
             env lang (fun _ => True)); try (intros; exact I).
    - intros text w1. apply lookup_or_request_grows.
    - intros text n w1. apply handle_response_grows.
    - intros node s w1 _ k Hk. exact Hk. }
  intros n data Hn Hget.
  destruct (start_all_spec lang batch w Hkeys) as (tasks & w1 & E1 & _ & _ & Hm & _).
  pose proof (start_all_ready lang batch w w1 tasks E1) as Hready.
  pose proof (merge_sort_Permutation (arrives_before env) tasks) as Hperm.
  unfold run_batch, bind. rewrite E1.
  assert (Ht : exists t, In t tasks /\ task_node t = n).
  { rewrite <- Hm in Hn. apply in_map_iff in Hn as (t & <- & Ht). eauto. }
  destruct Ht as (t & Ht & <-).
  destruct (Hready t Ht) as [_ Hg]. rewrite Hget in Hg. injection Hg as ->.
  apply complete_all_caches; [exact Hok| |].
  - intros t' Ht'. apply Hready. rewrite <- !list_elem_of_In in *. by rewrite <- Hperm.
  - rewrite <- !list_elem_of_In in *. by rewrite Hperm.
Qed.

Lemma run_batches_caches (env : Env) (lang : string) (bs : list (list NodeRef))
    (w : World) :
  always_succeeds env ->
  (forall n, In n (concat bs) -> In n (NodeMap.keys (originalTexts w))) ->
  forall n data,
    In n (concat bs) -> NodeMap.get n (originalTexts w) = Some data ->
    is_Some (cache (snd (run_batches env lang bs w)) !! cacheKey (original data) lang).
Proof.
  intros Hok. revert w. induction bs as [|b bs IH]; intros w Hkeys n data; [intros []|].
  simpl in Hkeys. cbn [concat]. intros Hn Hget.
  assert (Hkb : forall n, In n b -> In n (NodeMap.keys (originalTexts w))).
  { intros n' Hn'. apply Hkeys, in_or_app. by left. }
  destruct (run_batch_frame env lang b w Hkb) as (r1 & w1 & E1 & Hp1).
  destruct (run_batch_caches env lang b w Hok Hkb) as [_ Hc1]. rewrite E1 in Hc1.
  destruct (pause_spec bs w1) as (w2 & E2 & Hp2 & _).
  assert (Hcache2 : cache w2 = cache w1).
  { destruct bs; simpl in E2; inversion E2; reflexivity. }
  assert (Ho2 : originalTexts w2 = originalTexts w).
  { destruct Hp1 as [Ho1 _], Hp2 as [Ho2 _]. congruence. }
  assert (Hgrow : cache_grows w2 (snd (run_batches env lang bs w2))).
  { apply (steps_run_batches cache_grows cache_grows_refl cache_grows_trans
             env lang (fun _ => True)); try (intros; exact I).
    - intros text w'. apply lookup_or_request_grows.
    - intros text k w'. apply handle_response_grows.
    - intros node s w' _ k Hk. exact Hk.
    - intros e w' k Hk. exact Hk. }
  assert (Hrest : In n (concat bs) ->
            is_Some (cache (snd (run_batches env lang bs w2))
                       !! cacheKey (original data) lang)).
  { intros Hn'. apply (IH w2) with (n := n); [|exact Hn'|by rewrite Ho2].
    intros n' Hin. rewrite Ho2. apply Hkeys, in_or_app. by right. }
  cbn [run_batches]. unfold bind at 1. rewrite E1. unfold bind at 1. rewrite E2.
  unfold bind.
  destruct (run_batches env lang bs w2) as [[rs|e] w3]; simpl in *;
    (apply in_app_or in Hn as [Hn|Hn]; [|by apply Hrest]);
    apply Hgrow; rewrite Hcache2; by apply (Hc1 n).
Qed.

(** After a pass answered by a service that always succeeds, the memory
    tier holds a value for every recorded text. *)
Lemma translateToLanguage_caches (env : Env) (lang : string) (w : World) :
  always_succeeds env ->
  forall node data,
    NodeMap.get node (originalTexts w) = Some data ->
    is_Some (cache (snd (translateToLanguage env lang w)) !! cacheKey (original data) lang).
Proof.
  intros Hok node data Hget. rewrite translateToLanguage_batches.
  apply run_batches_caches with (n := node); try assumption.
  - intros n. by rewrite concat_batches.
  - rewrite concat_batches. by eapply NodeMap_get_In_keys.
Qed.

Lemma only_text_refl (w : World) : only_text w w.
Proof. unfold only_text. by destruct w. Qed.

Lemma only_text_trans (w1 w2 w3 : World) :
  only_text w1 w2 -> only_text w2 w3 -> only_text w1 w3.
Proof. unfold only_text. intros -> ->. reflexivity. Qed.

Lemma only_text_same_tiers (w w' : World) : only_text w w' -> same_tiers w w'.
Proof. unfold only_text. intros ->. by repeat split. Qed.

Lemma same_tiers_trans (w1 w2 w3 : World) :
  same_tiers w1 w2 -> same_tiers w2 w3 -> same_tiers w1 w3.
Proof. unfold same_tiers. intros (?&?&?&?) (?&?&?&?). repeat split; congruence. Qed.

(** A batch whose texts are all in the memory tier only rewrites text. *)
Lemma start_all_hits (lang : string) (batch : list NodeRef) (w : World) :
  all_cached lang w ->
  (forall n, In n batch -> In n (NodeMap.keys (originalTexts w))) ->
  exists tasks,
    start_all lang batch w = (Normal tasks, w)
    /\ forall t, In t tasks -> exists v, task_lookup t = Hit v.
Proof.
  intros Hall. induction batch as [|node rest IH]; intros Hkeys.
  - exists []. split; [reflexivity|intros t []].
  - destruct (NodeMap_get_keys node (originalTexts w)) as [data Hdata];
      [apply Hkeys; by left|].
    destruct (Hall node data Hdata) as [v Hv].
    destruct IH as (tasks & E & Hhit); [intros n Hn; apply Hkeys; by right|].
    simpl. rewrite Hdata, (lookup_memory_hit _ _ _ _ Hv). unfold bind. rewrite E.
    eexists. split; [reflexivity|].
    intros t [<-|Ht]; [simpl; eauto|auto].
Qed.

Lemma complete_all_hits (env : Env) (lang : string) (ts : list Task) (w : World) :
  (forall t, In t ts -> exists v, task_lookup t = Hit v) ->
  exists res w', complete_all env lang ts w = (Normal res, w') /\ only_text w w'.
Proof.
  revert w. induction ts as [|t ts IH]; intros w Hhit.
  - exists [], w. split; [reflexivity|apply only_text_refl].
  - destruct (Hhit t (or_introl eq_refl)) as [v Hv].
    assert (H1 : exists w1, complete env lang t w = (Normal (task_node t, v), w1)
                            /\ only_text w w1).
    { unfold complete, bind. rewrite Hv. change (ret v w) with (Normal v, w).
      cbv beta iota. unfold apply_translation.
      destruct (_ && _); eexists; (split; [reflexivity|]);
        [reflexivity|apply only_text_refl]. }
    destruct H1 as (w1 & E1 & Ho1).
    destruct (IH w1) as (res & w2 & E2 & Ho2); [intros t' Ht'; apply Hhit; by right|].
    exists ((task_node t, v) :: res), w2.
    split; [simpl; unfold bind; by rewrite E1, E2|by eapply only_text_trans].
Qed.

Lemma run_batches_hits (env : Env) (lang : string) (bs : list (list NodeRef)) (w : World) :
  all_cached lang w ->
  (forall n, In n (concat bs) -> In n (NodeMap.keys (originalTexts w))) ->
  exists res w', run_batches env lang bs w = (Normal res, w') /\ same_tiers w w'.
Proof.
  revert w. induction bs as [|b bs IH]; intros w Hall Hkeys.
  - exists [], w. split; [reflexivity|by repeat split].
  - simpl in Hkeys.
    destruct (start_all_hits lang b w Hall) as (tasks & E0 & Hhit).
    { intros n Hn. apply Hkeys, in_or_app. by left. }
    destruct (complete_all_hits env lang (merge_sort (arrives_before env) tasks) w)
      as (r1 & w1 & E1 & Ho1).
    { intros t Ht. apply Hhit. rewrite <- !list_elem_of_In in *.
      by rewrite <- (merge_sort_Permutation (arrives_before env) tasks). }
    apply only_text_same_tiers in Ho1.
    destruct (pause_spec bs w1) as (w2 & E2 & _ & _).
    assert (Hs2 : same_tiers w w2).
    { eapply same_tiers_trans; [exact Ho1|].
      destruct bs; simpl in E2; inversion E2; by repeat split. }
    destruct (IH w2) as (r3 & w3 & E3 & Hs3).
    { destruct Hs2 as (Ho & Hc & _). intros node data. rewrite Ho, Hc. apply Hall. }
    { destruct Hs2 as (Ho & _). intros n Hn. rewrite Ho. apply Hkeys, in_or_app. by right. }
    exists (r1 ++ r3)%list, w3.
    split; [|by eapply same_tiers_trans].
    cbn [run_batches]. unfold bind at 1, run_batch at 1, bind at 1.
    rewrite E0, E1. unfold bind at 1. rewrite E2. unfold bind. by rewrite E3.
Qed.

Lemma translateToLanguage_hits (env : Env) (lang : string) (w : World) :
  all_cached lang w ->
  exists res w', translateToLanguage env lang w = (Normal res, w') /\ same_tiers w w'.
Proof.
  intros Hall. rewrite translateToLanguage_batches. apply run_batches_hits; [exact Hall|].
  intros n. by rewrite concat_batches.
Qed.

Lemma second_pass (env env1 env2 : Env) (lang : string) (w : World) :
  always_succeeds env ->
  isTranslating w = false ->
  lang <> currentLang w ->
  lang <> "en" ->
  all_cached lang (run (translatePage env lang) w)
  /\ requests (run (translatePage env2 lang)
                 (run (translatePage env1 "en") (run (translatePage env lang) w)))
     = requests (run (translatePage env lang) w)
  /\ cache (run (translatePage env2 lang)
              (run (translatePage env1 "en") (run (translatePage env lang) w)))
     = cache (run (translatePage env lang) w).
Proof.
  intros Hok Hbusy Hcur Hen.
  destruct (translatePage_run_switches env lang w Hbusy Hcur) as (Hc1 & _ & _ & Hi1 & _).
  destruct (translatePage_translates env lang w Hbusy Hcur Hen) as (res & wt & Et & Hp & E1).
  set (w1 := run (translatePage env lang) w) in *.
  assert (Hw1 : w1 = switched lang wt) by (unfold w1, run; by rewrite E1).
  assert (Hall1 : all_cached lang w1).
  { rewrite Hw1. intros node data Hget.
    destruct (switched_tiers lang wt) as (Hcache & _ & _ & Ho & _).
    rewrite Hcache. rewrite Ho in Hget. destruct Hp as [Ho' _]. rewrite Ho' in Hget.
    pose proof (translateToLanguage_caches env lang (entered w) Hok node data Hget) as H.
    by rewrite Et in H. }
  split; [exact Hall1|].
  assert (Hcur1 : currentLang w1 <> "en") by (rewrite Hc1; exact Hen).
  pose proof (translatePage_restores env1 w1 Hi1 Hcur1) as E2.
  set (w2 := run (translatePage env1 "en") w1) in *.
  assert (Hw2 : w2 = switched "en" (run restoreOriginal (entered w1)))
    by (unfold w2, run; by rewrite E2).
  assert (Ho2 : originalTexts w2 = originalTexts w1).
  { rewrite Hw2. destruct (restoreOriginal_spec (entered w1)) as (wr & Er & (Ho & _) & _).
    destruct (switched_tiers "en" (run restoreOriginal (entered w1))) as (_ & _ & _ & -> & _).
    unfold run. rewrite Er. simpl. exact Ho. }
  assert (Hc2 : cache w2 = cache w1 /\ requests w2 = requests w1).
  { rewrite Hw2.
    destruct (switched_tiers "en" (run restoreOriginal (entered w1))) as (-> & _ & -> & _).
    destruct (restoreOriginal_tiers (entered w1)) as (-> & _ & ->). by split. }
  destruct Hc2 as [Hc2 Hr2].
  assert (Hi2 : isTranslating w2 = false) by (by rewrite Hw2).
  assert (Hcur2 : lang <> currentLang w2) by (by rewrite Hw2).
  destruct (translatePage_translates env2 lang w2 Hi2 Hcur2 Hen)
    as (res3 & wt3 & Et3 & _ & E3).
  assert (Hall2 : all_cached lang (entered w2)).
  { intros node data Hget. change (cache (entered w2)) with (cache w2).
    change (originalTexts (entered w2)) with (originalTexts w2) in Hget.
    rewrite Hc2. rewrite Ho2 in Hget. by apply (Hall1 node). }
  destruct (translateToLanguage_hits env2 lang (entered w2) Hall2)
    as (res' & wt' & Et' & (_ & Hc3 & _ & Hr3)).
  rewrite Et3 in Et'. injection Et' as _ <-.
  unfold run at 1 2. rewrite E3. cbn [snd].
  destruct (switched_tiers lang wt3) as (-> & _ & -> & _).
  rewrite Hc3, Hr3. change (requests (entered w2)) with (requests w2).
  change (cache (entered w2)) with (cache w2). by rewrite Hr2, Hc2.
Qed.

(** X11. When a first pass to a language was answered by a service that
    succeeded every time, the memory tier holds a value for every recorded
    text, and after a return to the base language a second pass to that
    language sends no request and writes no cache entry, whatever the
    service would do then. *)
Theorem second_pass_is_served_from_memory
    (env env1 env2 : Env) (lang : string) (w : World) :
  always_succeeds env ->
  isTranslating w = false ->
  lang <> currentLang w ->
  lang <> "en" ->
  all_cached lang (run (translatePage env lang) w)
  /\ requests (run (translatePage env2 lang)
                 (run (translatePage env1 "en") (run (translatePage env lang) w)))
     = requests (run (translatePage env lang) w)
  /\ cache (run (translatePage env2 lang)
              (run (translatePage env1 "en") (run (translatePage env lang) w)))
     = cache (run (translatePage env lang) w).
Proof. apply second_pass. Qed.

Lemma second_pass_witness :
  requests (run (translatePage service_down "fr")
              (run (translatePage service_down "en")
                 (run (translatePage (service "Bonjour") "fr") nine_nodes)))
  = requests (run (translatePage (service "Bonjour") "fr") nine_nodes).
Proof.
  destruct (second_pass_is_served_from_memory (service "Bonjour") service_down service_down
              "fr" nine_nodes) as (_ & H & _).
  - intros n url. exists "Bonjour". apply success_200; [lia|discriminate].
  - reflexivity.
  - discriminate.
  - discriminate.
  - exact H.
Defined.

Lemma untouched_refl (w : World) : untouched w w.
Proof. by repeat split. Qed.

Lemma untouched_trans (w1 w2 w3 : World) :
  untouched w1 w2 -> untouched w2 w3 -> untouched w1 w3.
Proof. unfold untouched. intros (?&?&?&?) (?&?&?&?). repeat split; congruence. Qed.

Lemma none_cached_untouched (lang : string) (w w' : World) :
  untouched w w' -> none_cached lang w -> none_cached lang w'.
Proof.
  intros (Ho & Hc & Hs & _) Hnone node data. rewrite Ho. intros Hget.
  destruct (Hnone node data Hget) as [Hm Hp].
  unfold memory_miss, persisted_miss. rewrite Hc, Hs. auto.
Qed.

(** With nothing cached every callback of a batch sends its request. *)
Lemma start_all_misses (lang : string) (batch : list NodeRef) (w : World) :
  none_cached lang w ->
  (forall n, In n batch -> In n (NodeMap.keys (originalTexts w))) ->
  exists tasks w',
    start_all lang batch w = (Normal tasks, w')
    /\ untouched w w'
    /\ forall t, In t tasks -> exists n, task_lookup t = Miss n.
Proof.
  revert w. induction batch as [|node rest IH]; intros w Hnone Hkeys.
  - exists [], w. split; [reflexivity|]. split; [apply untouched_refl|intros t []].
  - destruct (NodeMap_get_keys node (originalTexts w)) as [data Hdata];
      [apply Hkeys; by left|].
    destruct (Hnone node data Hdata) as [Hm Hp].
    assert (Hu : untouched w (requesting (original data) lang w)) by (by repeat split).
    destruct (IH (requesting (original data) lang w)) as (tasks & w' & E & Hu' & Hmiss).
    { by eapply none_cached_untouched. }
    { intros n Hn. apply Hkeys. by right. }
    simpl. rewrite Hdata, (lookup_miss _ _ _ Hm Hp). unfold bind. rewrite E.
    eexists _, w'. split; [reflexivity|]. split; [by eapply untouched_trans|].
    intros t [<-|Ht]; [simpl; eauto|auto].
Qed.

(** With a service that fails every time, the callbacks that sent a
    request leave the tiers and the page as they are. *)
Lemma complete_all_fails (env : Env) (lang : string) (ts : list Task) (w : World) :
  always_fails env ->
  (forall t, In t ts -> exists n, task_lookup t = Miss n) ->
  exists res w', complete_all env lang ts w = (Normal res, w') /\ untouched w w'.
Proof.
  intros Hdown. revert w. induction ts as [|t ts IH]; intros w Hmiss.
  - exists [], w. split; [reflexivity|apply untouched_refl].
  - destruct (Hmiss t (or_introl eq_refl)) as [n Hn].
    assert (H1 : exists w1,
               complete env lang t w = (Normal (task_node t, original (task_data t)), w1)
               /\ untouched w w1).
    { unfold complete, bind. rewrite Hn.
      destruct (handle_response_failure env (original (task_data t)) lang n w
                  (Hdown n _)) as (wn & -> & _).
      cbv beta iota. unfold apply_translation.
      rewrite bool_decide_eq_true_2 by reflexivity. rewrite andb_false_r.
      eexists. split; [reflexivity|by repeat split]. }
    destruct H1 as (w1 & E1 & Hu1).
    destruct (IH w1) as (res & w2 & E2 & Hu2); [intros t' Ht'; apply Hmiss; by right|].
    eexists _, w2.
    split; [simpl; unfold bind; by rewrite E1, E2|by eapply untouched_trans].
Qed.

Lemma run_batches_fails (env : Env) (lang : string) (bs : list (list NodeRef)) (w : World) :
  always_fails env ->
  none_cached lang w ->
  (forall n, In n (concat bs) -> In n (NodeMap.keys (originalTexts w))) ->
  exists res w', run_batches env lang bs w = (Normal res, w') /\ untouched w w'.
Proof.
  intros Hdown. revert w. induction bs as [|b bs IH]; intros w Hnone Hkeys.
  - exists [], w. split; [reflexivity|apply untouched_refl].
  - simpl in Hkeys.
    destruct (start_all_misses lang b w Hnone) as (tasks & w0 & E0 & Hu0 & Hmiss).
    { intros n Hn. apply Hkeys, in_or_app. by left. }
    destruct (complete_all_fails env lang (merge_sort (arrives_before env) tasks) w0 Hdown)
      as (r1 & w1 & E1 & Hu1).
    { intros t Ht. apply Hmiss. rewrite <- !list_elem_of_In in *.
      by rewrite <- (merge_sort_Permutation (arrives_before env) tasks). }
    destruct (pause_spec bs w1) as (w2 & E2 & _ & _).
    assert (Hu2 : untouched w w2).
    { eapply untouched_trans; [exact Hu0|]. eapply untouched_trans; [exact Hu1|].
      destruct bs; simpl in E2; inversion E2; by repeat split. }
    destruct (IH w2) as (r3 & w3 & E3 & Hu3).
    { by eapply none_cached_untouched. }
    { destruct Hu2 as (Ho & _). intros n Hn. rewrite Ho. apply Hkeys, in_or_app. by right. }
    exists (r1 ++ r3)%list, w3.
    split; [|by eapply untouched_trans].
    cbn [run_batches]. unfold bind at 1, run_batch at 1, bind at 1.
    rewrite E0, E1. unfold bind at 1. rewrite E2. unfold bind. by rewrite E3.
Qed.

Lemma failed_pass (env : Env) (lang : string) (w : World) :
  always_fails env ->
  none_cached lang w ->
  isTranslating w = false ->
  lang <> currentLang w ->
  lang <> "en" ->
  textContent (run (translatePage env lang) w) = textContent w
  /\ cache (run (translatePage env lang) w) = cache w
  /\ localStorage (run (translatePage env lang) w)
     = <["site_language" := lang]> (localStorage w)
  /\ currentLang (run (translatePage env lang) w) = lang
  /\ forall env',
       translatePage env' lang (run (translatePage env lang) w)
       = (Normal tt, run (translatePage env lang) w).
Proof.
  intros Hdown Hnone Hbusy Hcur Hen.
  destruct (translatePage_translates env lang w Hbusy Hcur Hen) as (res & wt & Et & _ & E).
  destruct (run_batches_fails env lang (batches (NodeMap.keys (originalTexts (entered w))))
              (entered w) Hdown) as (res' & wt' & Et' & (_ & Hc & Hs & Ht)).
  { exact Hnone. }
  { intros n. by rewrite concat_batches. }
  rewrite <- translateToLanguage_batches, Et in Et'. injection Et' as _ <-.
  unfold run. rewrite E. cbn [snd].
  destruct (switched_tiers lang wt) as (Hc' & Hs' & _ & _ & Ht').
  split; [by rewrite Ht', Ht|]. split; [by rewrite Hc', Hc|].
  split; [by rewrite Hs', Hs|]. split; [reflexivity|].
  intros env'. apply translatePage_skips.
  rewrite bool_decide_eq_true_2 by reflexivity. apply orb_true_r.
Qed.

(** X12. When nothing is cached and the service fails every request, a
    run of [translatePage] to a language leaves the text of the page and
    the memory tier as they were and adds nothing but the preference to
    the storage; yet it makes the language current, so that asking for the
    same language again does nothing: the failed translation is not
    retried. *)
Theorem failed_pass_switches_language_without_translating
    (env : Env) (lang : string) (w : World) :
  always_fails env ->
  none_cached lang w ->
  isTranslating w = false ->
  lang <> currentLang w ->
  lang <> "en" ->
  textContent (run (translatePage env lang) w) = textContent w
  /\ cache (run (translatePage env lang) w) = cache w
  /\ localStorage (run (translatePage env lang) w)
     = <["site_language" := lang]> (localStorage w)
  /\ currentLang (run (translatePage env lang) w) = lang
  /\ forall env',
       translatePage env' lang (run (translatePage env lang) w)
       = (Normal tt, run (translatePage env lang) w).
Proof. apply failed_pass. Qed.

Lemma failed_pass_witness :
  textContent (run (translatePage service_down "fr") nine_nodes) = textContent nine_nodes
  /\ currentLang (run (translatePage service_down "fr") nine_nodes) = "fr".
Proof.
  destruct (failed_pass_switches_language_without_translating service_down "fr" nine_nodes)
    as (Ht & _ & _ & Hc & _).
  - intros n url. apply failure_http. simpl. lia.
  - intros node data _. split; [reflexivity|]. intros v Hv. discriminate Hv.
  - reflexivity.
  - discriminate.
  - discriminate.
  - split; [exact Ht|exact Hc].
Defined.

(** ** Extraction and the text restored by a round trip *)

Lemma trimStart_clean (s : string) :
  match s with "" => True | String c _ => JsString.is_space c = false end ->
  JsString.trimStart s = s.
Proof. destruct s as [|c s]; simpl; [reflexivity|]. by intros ->. Qed.

Lemma trimStart_starts_clean (s : string) :
  match JsString.trimStart s with
  | "" => True
  | String c _ => JsString.is_space c = false
  end.
Proof.
  induction s as [|c s IH]; simpl; [exact I|].
  destruct (JsString.is_space c) eqn:E; [exact IH|exact E].
Qed.

Lemma trimEnd_starts_clean (s : string) :
  match s with "" => True | String c _ => JsString.is_space c = false end ->
  match JsString.trimEnd s with
  | "" => True
  | String c _ => JsString.is_space c = false
  end.
Proof.
  destruct s as [|c s]; simpl; [auto|]. intros Hc.
  destruct (JsString.trimEnd s); [by rewrite Hc|exact Hc].
Qed.

Lemma trimEnd_idempotent (s : string) :
  JsString.trimEnd (JsString.trimEnd s) = JsString.trimEnd s.
Proof.
  induction s as [|c s IH]; [reflexivity|].
  cbn [JsString.trimEnd]. destruct (JsString.trimEnd s) as [|d u] eqn:E.
  - destruct (JsString.is_space c) eqn:Hc; [reflexivity|].
    cbn [JsString.trimEnd]. by rewrite Hc.
  - change (JsString.trimEnd (String c (String d u)))
      with (match JsString.trimEnd (String d u) with
            | "" => if JsString.is_space c then "" else String c ""
            | t => String c t
            end).
    by rewrite IH.
Qed.

(** [trim] has nothing left to remove from its own result. *)
Lemma trim_idempotent (s : string) :
  JsString.trim (JsString.trim s) = JsString.trim s.
Proof.
  unfold JsString.trim.
  rewrite (trimStart_clean (JsString.trimEnd (JsString.trimStart s))).
  - apply trimEnd_idempotent.
  - apply trimEnd_starts_clean, trimStart_starts_clean.
Qed.

(** The filter and the loop read the text of a node through [trim] only. *)
Lemma walk_same_trim (w w' : World) (n : Node) (parent : string) (optedOut : bool) :
  (forall node, JsString.trim (text_of w' node) = JsString.trim (text_of w node)) ->
  walk w' parent optedOut n = walk w parent optedOut n.
Proof.
  intros Ht. revert parent optedOut.
  induction n as [ref| |tag noTr kids IH] using Node_induction; intros parent optedOut; simpl.
  - unfold acceptNode. by rewrite Ht.
  - reflexivity.
  - induction IH as [|k kids Hk _ IHkids]; [reflexivity|]. by rewrite Hk, IHkids.
Qed.

Lemma record_nodes_same_trim (w w' : World) (nodes : list (NodeRef * string)) (index : nat)
    (m : NodeMap.t) :
  (forall node, JsString.trim (text_of w' node) = JsString.trim (text_of w node)) ->
  record_nodes w' nodes index m = record_nodes w nodes index m.
Proof.
  intros Ht. revert index m. induction nodes as [|[n p] rest IH]; intros index m; simpl.
  - reflexivity.
  - rewrite Ht. apply IH.
Qed.

Lemma extractText_same_trim (doc : Document) (w w' : World) :
  originalTexts w' = originalTexts w ->
  (forall node, JsString.trim (text_of w' node) = JsString.trim (text_of w node)) ->
  originalTexts (extractText doc w') = originalTexts (extractText doc w).
Proof.
  intros Ho Ht.
  change (record_nodes w' (walk_body w' doc) 0 (originalTexts w')
          = record_nodes w (walk_body w doc) 0 (originalTexts w)).
  unfold walk_body. rewrite Ho, (walk_same_trim w w' _ _ _ Ht).
  by apply record_nodes_same_trim.
Qed.

Lemma NodeMap_get_In (node : NodeRef) (data : TextRecord) (m : NodeMap.t) :
  NodeMap.get node m = Some data -> In (node, data) m.
Proof.
  induction m as [|[k v] m IH]; simpl; [discriminate|].
  destruct (decide (k = node)) as [->|]; [intros [= ->]; by left|right; auto].
Qed.

Lemma round_trip_same_trim (env : Env) (doc : Document) (lang : string) (w0 : World)
    (node : NodeRef) :
  originalTexts w0 = [] ->
  isTranslating w0 = false ->
  currentLang w0 = "en" ->
  lang <> "en" ->
  JsString.trim
    (text_of (run (translatePage env "en")
                (run (translatePage env lang) (extractText doc w0))) node)
  = JsString.trim (text_of w0 node).
Proof.
  intros Hfresh Hbusy Hcur Hlang.
  set (w1 := extractText doc w0).
  destruct (record_nodes_spec w0 (walk_body w0 doc) 0 []) as [Hnd Hrec];
    [apply NoDup_nil_2|].
  assert (Ho1 : originalTexts w1 = record_nodes w0 (walk_body w0 doc) 0 []).
  { unfold w1, extractText. simpl. by rewrite Hfresh. }
  destruct (translatePage_run env lang w1) as (w2 & E2 & Ho2 & Hc2 & Hi2 & _).
  { exact Hbusy. }
  { unfold w1. simpl. rewrite Hcur. exact Hlang. }
  destruct (translatePage_run env "en" w2) as (w3 & E3 & Ho3 & Hc3 & _ & Ht3).
  { exact Hi2. }
  { rewrite Hc2. congruence. }
  assert (Hw2 : run (translatePage env lang) w1 = w2) by (unfold run; by rewrite E2).
  assert (Hw3 : run (translatePage env "en") w2 = w3) by (unfold run; by rewrite E3).
  destruct (decide (node ∈ NodeMap.keys (originalTexts w1))) as [Hin|Hout].
  - apply list_elem_of_In in Hin.
    destruct (NodeMap_get_keys node (originalTexts w1) Hin) as [d Hd].
    apply NodeMap_get_In in Hd.
    rewrite Hw2, Hw3.
    assert (Hshown : text_of w3 node = original d).
    { apply (Ht3 eq_refl); rewrite Ho2; [by rewrite Ho1|exact Hd]. }
    rewrite Hshown. rewrite Ho1 in Hd.
    destruct (Hrec node d Hd) as [[]|Horig]. rewrite Horig. apply trim_idempotent.
  - rewrite list_elem_of_In in Hout.
    rewrite Hw2. rewrite translatePage_same_text by (by rewrite Ho2).
    rewrite <- Hw2. by rewrite translatePage_same_text.
Qed.

(** X13. The round trip cannot be told from the page as it was by a new
    extraction. After the extraction on a translator without records, a
    run to a language other than [en] and a run back to [en], a new
    translator put on the page as it is then records the same nodes with
    the same identifiers, originals and parent tags as the first one:
    what the restored text has lost is only the white space that the
    extraction removes anyway. *)
Theorem extraction_after_round_trip_finds_the_same_records
    (env : Env) (doc : Document) (lang : string) (w0 : World)
    (storage : gmap string string) (pageLang : string) (loading select : option bool) :
  originalTexts w0 = [] ->
  isTranslating w0 = false ->
  currentLang w0 = "en" ->
  lang <> "en" ->
  let w3 := run (translatePage env "en")
              (run (translatePage env lang) (extractText doc w0)) in
  originalTexts
    (extractText doc (new_translator (textContent w3) storage pageLang loading select))
  = originalTexts (extractText doc w0).
Proof.
  intros Hfresh Hbusy Hcur Hlang w3.
  apply extractText_same_trim; [by rewrite Hfresh|].
  intros node. by apply (round_trip_same_trim env doc lang w0 node).
Qed.

Lemma extraction_after_round_trip_witness :
  originalTexts
    (extractText hello_doc
       (new_translator
          (textContent
             (run (translatePage (service "Bonjour le monde") "en")
                (run (translatePage (service "Bonjour le monde") "fr")
                   (extractText hello_doc hello_page))))
          ∅ "en" None None))
  = originalTexts (extractText hello_doc hello_page).
Proof.
  apply (extraction_after_round_trip_finds_the_same_records
           (service "Bonjour le monde") hello_doc "fr" hello_page ∅ "en" None None).
  - reflexivity.
  - reflexivity.
  - reflexivity.
  - discriminate.
Defined.

(** ** Every outcome of a call of the client *)

(** X14. Whatever the state and whatever the service answers, a call of
    [getCachedTranslation] returns normally, and what it returns is either
    the value that the memory tier holds for the pair when the call
    returns, or the input text with both tiers left as they were. The call
    sends at most one request and touches neither the page nor the
    translator's records, language and busy flag. *)
Theorem getCachedTranslation_returns_cached_value_or_text
    (env : Env) (text lang : string) (w : World) :
  let w' := run (getCachedTranslation env text lang) w in
  (exists v,
     getCachedTranslation env text lang w = (Normal v, w')
     /\ (cache w' !! cacheKey text lang = Some v
         \/ (v = text /\ cache w' = cache w /\ localStorage w' = localStorage w)))
  /\ requests w <= requests w' <= S (requests w)
  /\ textContent w' = textContent w
  /\ originalTexts w' = originalTexts w
  /\ currentLang w' = currentLang w
  /\ isTranslating w' = isTranslating w.
Proof.
  intros w'.
  destruct (getCachedTranslation_frame env text lang w) as (Ho & Ht & Hc & Hi & _).
  split; [|split; [|by repeat split]].
  - subst w'. unfold run. rewrite getCachedTranslation_unfold.
    destruct (lookup_or_request_cases text lang w)
      as [(v & Hv & ->)|[(v & _ & _ & _ & ->)|(_ & _ & ->)]].
    + exists v. split; [reflexivity|]. by left.
    + exists v. split; [reflexivity|]. left. simpl. by rewrite lookup_insert_eq.
    + destruct (handle_response_cases env text lang (requests w) (requesting text lang w))
        as [(t & _ & ->)|(wn & _ & ->)].
      * eexists. split; [reflexivity|]. left. simpl. by rewrite lookup_insert_eq.
      * eexists. split; [reflexivity|]. right. by repeat split.
  - subst w'. unfold run. rewrite getCachedTranslation_unfold.
    destruct (lookup_or_request_cases text lang w)
      as [(v & Hv & ->)|[(v & _ & _ & _ & ->)|(_ & _ & ->)]]; simpl; [lia|lia|].
    destruct (handle_response_frame env text lang (requests w) (requesting text lang w))
      as [_ ->].
    simpl. lia.
Qed.

(** ** Page load *)

Lemma timers_fire_in_order (first second : Call) :
  merge_sort fires_before [(500, first); (1000, second)]
  = [(500, first); (1000, second)].
Proof. reflexivity. Qed.

Lemma extractText_same_page (doc : Document) (w w' : World) :
  originalTexts w' = originalTexts w ->
  textContent w' = textContent w ->
  originalTexts (extractText doc w') = originalTexts (extractText doc w).
Proof.
  intros Ho Ht. apply extractText_same_trim; [exact Ho|].
  intros node. unfold text_of. by rewrite Ht.
Qed.

Lemma page_load_translates (env : Env) (doc : Document)
    (querySelector : string -> Completion bool)
    (texts : gmap NodeRef string) (storage : gmap string string) (pageLang : string)
    (loading : option bool) (disabled found : bool) :
  savedLang storage <> "en" ->
  querySelector (option_selector (savedLang storage)) = Normal found ->
  exists w,
    onDOMContentLoaded env doc querySelector texts storage pageLang loading (Some disabled)
    = ({| outcome := Normal tt;
          timers := [(500, CallExtractText doc);
                     (1000, CallTranslatePage env (savedLang storage))];
          selectValue := if found then Some (savedLang storage) else None;
          listening := true; exposed := true |}, w)
    /\ page_after_load env doc querySelector texts storage pageLang loading (Some disabled)
       = run (translatePage env (savedLang storage)) (extractText doc w)
    /\ originalTexts w = []
    /\ textContent w = texts
    /\ currentLang w = "en"
    /\ isTranslating w = false.
Proof.
  intros Hsaved Hfound. unfold page_after_load, onDOMContentLoaded.
  rewrite Hfound, decide_False by exact Hsaved.
  eexists. split; [reflexivity|].
  cbn [timers]. rewrite timers_fire_in_order.
  split; [reflexivity|]. by destruct found.
Qed.

(** X15. When the storage holds a language other than [en] and the page
    has its select element, the page load ends, after the two timers, with
    the recorded nodes of an extraction on the page as loaded and with the
    saved language as the current one, declared by the document and kept
    in the storage, the busy flag cleared. This is so whether or not the
    select element has an option for that language; the select is given
    the saved value only when it has. *)
Theorem page_load_applies_saved_language (env : Env) (doc : Document)
    (querySelector : string -> Completion bool)
    (texts : gmap NodeRef string) (storage : gmap string string) (pageLang : string)
    (loading : option bool) (disabled found : bool) :
  savedLang storage <> "en" ->
  querySelector (option_selector (savedLang storage)) = Normal found ->
  let loaded :=
    fst (onDOMContentLoaded env doc querySelector texts storage pageLang loading
           (Some disabled)) in
  let w := page_after_load env doc querySelector texts storage pageLang loading
             (Some disabled) in
  outcome loaded = Normal tt
  /\ selectValue loaded = (if found then Some (savedLang storage) else None)
  /\ listening loaded = true
  /\ originalTexts w
     = originalTexts
         (extractText doc (new_translator texts storage pageLang loading (Some disabled)))
  /\ currentLang w = savedLang storage
  /\ htmlLang w = savedLang storage
  /\ localStorage w !! "site_language" = Some (savedLang storage)
  /\ isTranslating w = false.
Proof.
  intros Hsaved Hfound loaded w.
  destruct (page_load_translates env doc querySelector texts storage pageLang loading
              disabled found Hsaved Hfound) as (w0 & E & Ew & Ho & Ht & Hc & Hi).
  subst loaded w. rewrite E, Ew. cbn [fst outcome selectValue listening].
  destruct (translatePage_run_switches env (savedLang storage) (extractText doc w0))
    as (Hc' & Hh' & Hs' & Hi' & _).
  { exact Hi. }
  { cbn. rewrite Hc. exact Hsaved. }
  repeat split; try assumption.
  rewrite translatePage_same_records. apply extractText_same_page; [exact Ho|exact Ht].
Qed.

Lemma page_load_applies_saved_language_witness :
  let w := page_after_load (service "Bonjour le monde") hello_doc (fun _ => Normal false)
             {[ 0 := " Hello world " ]} {[ "site_language" := "fr" ]} "en"
             (Some false) (Some false) in
  currentLang w = "fr" /\ htmlLang w = "fr".
Proof.
  destruct (page_load_applies_saved_language (service "Bonjour le monde") hello_doc
              (fun _ => Normal false) {[ 0 := " Hello world " ]}
              {[ "site_language" := "fr" ]} "en" (Some false) false false)
    as (_ & _ & _ & _ & Hc & Hh & _).
  - discriminate.
  - reflexivity.
  - split; [exact Hc|exact Hh].
Defined.

Lemma page_load_extracts (env : Env) (doc : Document)
    (querySelector : string -> Completion bool)
    (texts : gmap NodeRef string) (storage : gmap string string) (pageLang : string)
    (loading select : option bool) :
  savedLang storage = "en"
  \/ (exists e, outcome (fst (onDOMContentLoaded env doc querySelector texts storage
                                pageLang loading select)) = Throw e) ->
  exists w,
    page_after_load env doc querySelector texts storage pageLang loading select
    = extractText doc w
    /\ timers (fst (onDOMContentLoaded env doc querySelector texts storage pageLang
                      loading select))
       = [(500, CallExtractText doc)]
    /\ originalTexts w = []
    /\ textContent w = texts
    /\ cache w = ∅
    /\ localStorage w = storage
    /\ currentLang w = "en"
    /\ requests w = 0
    /\ (htmlLang w = pageLang \/ htmlLang w = "en").
Proof.
  unfold page_after_load, onDOMContentLoaded. intros H.
  destruct (select) as [disabled|].
  - destruct (querySelector (option_selector (savedLang storage))) as [found|e].
    + destruct H as [Hen|[e He]]; [|discriminate He].
      rewrite Hen, decide_True by reflexivity.
      eexists. split; [reflexivity|]. destruct found; repeat split; auto.
    + eexists. split; [reflexivity|]. repeat split; auto.
  - eexists. split; [reflexivity|]. repeat split; auto.
Qed.

(** X16. When the storage holds no language, an empty one or [en], the
    page load only extracts: after the handler and its timer the records
    are those of an extraction on the page as loaded, no request has been
    sent, the text of the page, both cache tiers and the current language
    are as they were. This is so whether or not the page has its select
    element and whatever the lookup of the option does. *)
Theorem page_load_without_saved_language_only_extracts (env : Env) (doc : Document)
    (querySelector : string -> Completion bool)
    (texts : gmap NodeRef string) (storage : gmap string string) (pageLang : string)
    (loading select : option bool) :
  savedLang storage = "en" ->
  let w := page_after_load env doc querySelector texts storage pageLang loading select in
  originalTexts w
  = originalTexts (extractText doc (new_translator texts storage pageLang loading select))
  /\ requests w = 0
  /\ textContent w = texts
  /\ cache w = ∅
  /\ localStorage w = storage
  /\ currentLang w = "en".
Proof.
  intros Hen w.
  destruct (page_load_extracts env doc querySelector texts storage pageLang loading select
              (or_introl Hen)) as (w0 & E & _ & Ho & Ht & Hc & Hs & Hl & Hr & _).
  subst w. rewrite E.
  split; [by apply extractText_same_page|]. by repeat split.
Qed.

Lemma page_load_without_saved_language_witness :
  requests (page_after_load (service "Bonjour le monde") hello_doc (fun _ => Normal true)
              {[ 0 := " Hello world " ]} ∅ "en" (Some false) (Some false)) = 0.
Proof.
  destruct (page_load_without_saved_language_only_extracts (service "Bonjour le monde")
              hello_doc (fun _ => Normal true) {[ 0 := " Hello world " ]} ∅ "en"
              (Some false) (Some false)) as (_ & Hr & _).
  - reflexivity.
  - exact Hr.
Defined.

(** X17. A handler that throws drops the saved language. On a page
    without the select element the handler throws a [TypeError] on line
    169; it also throws when the lookup of the option does. In both cases
    the timer of the extraction is already set and nothing else is done:
    the [change] listener is not registered, [window.translator] is not
    set, and the saved language is not translated to, however it differs
    from [en]. After the timer the page is extracted and otherwise as
    loaded. *)
Theorem page_load_that_throws_drops_saved_language (env : Env) (doc : Document)
    (querySelector : string -> Completion bool)
    (texts : gmap NodeRef string) (storage : gmap string string) (pageLang : string)
    (loading select : option bool) :
  let loaded :=
    fst (onDOMContentLoaded env doc querySelector texts storage pageLang loading select) in
  let w := page_after_load env doc querySelector texts storage pageLang loading select in
  (select = None -> outcome loaded = Throw TypeError)
  /\ forall e,
       outcome loaded = Throw e ->
       listening loaded = false
       /\ exposed loaded = false
       /\ selectValue loaded = None
       /\ originalTexts w
          = originalTexts
              (extractText doc (new_translator texts storage pageLang loading select))
       /\ currentLang w = "en"
       /\ htmlLang w = pageLang
       /\ textContent w = texts
       /\ localStorage w = storage
       /\ requests w = 0.
Proof.
  intros loaded w. split; [by intros ->|].
  intros e He. subst loaded w. unfold page_after_load, onDOMContentLoaded in *.
  destruct (select) as [disabled|];
    [destruct (querySelector (option_selector (savedLang storage))) as [found|e'];
       [discriminate He|]|];
    (repeat split; by apply extractText_same_page).
Qed.

(** ** A later visit *)

Lemma served_refl (w : World) : served w w.
Proof. repeat split. apply cache_grows_refl. Qed.

Lemma served_trans (w1 w2 w3 : World) : served w1 w2 -> served w2 w3 -> served w1 w3.
Proof.
  intros (Ho1 & Hs1 & Hr1 & Hg1) (Ho2 & Hs2 & Hr2 & Hg2).
  repeat split; try congruence. by eapply cache_grows_trans.
Qed.

Lemma all_stored_served (lang : string) (w w' : World) :
  served w w' -> all_stored lang w -> all_stored lang w'.
Proof.
  intros (Ho & Hs & _ & Hg) Hall node data. rewrite Ho, Hs. intros Hget.
  destruct (Hall node data Hget) as [Hc|Hp]; [left; by apply Hg|by right].
Qed.

(** A lookup that finds a value in one of the tiers sends nothing. *)
Lemma lookup_stored (text lang : string) (w : World) :
  is_Some (cache w !! cacheKey text lang)
  \/ (exists v, v <> "" /\ localStorage w !! localStorageKey (cacheKey text lang) = Some v) ->
  exists v w', lookup_or_request text lang w = (Hit v, w') /\ served w w'.
Proof.
  intros H.
  destruct (lookup_or_request_cases text lang w)
    as [(v & _ & E)|[(v & _ & _ & _ & E)|(Hm & Hp & _)]].
  - exists v, w. split; [exact E|apply served_refl].
  - eexists v, _. split; [exact E|]. repeat split.
    intros k Hk. simpl. rewrite lookup_insert_is_Some.
    destruct (decide (cacheKey text lang = k)); auto.
  - exfalso. destruct H as [[v Hv]|(v & Hne & Hv)].
    + unfold memory_miss in Hm. congruence.
    + apply Hne. by apply Hp.
Qed.

Lemma start_all_stored (lang : string) (batch : list NodeRef) (w : World) :
  all_stored lang w ->
  (forall n, In n batch -> In n (NodeMap.keys (originalTexts w))) ->
  exists tasks w',
    start_all lang batch w = (Normal tasks, w')
    /\ served w w'
    /\ forall t, In t tasks -> exists v, task_lookup t = Hit v.
Proof.
  revert w. induction batch as [|node rest IH]; intros w Hall Hkeys.
  - exists [], w. split; [reflexivity|]. split; [apply served_refl|intros t []].
  - destruct (NodeMap_get_keys node (originalTexts w)) as [data Hdata];
      [apply Hkeys; by left|].
    destruct (lookup_stored (original data) lang w (Hall node data Hdata))
      as (v & w1 & E1 & Hs1).
    destruct (IH w1) as (tasks & w' & E & Hs' & Hhit).
    { by eapply all_stored_served. }
    { destruct Hs1 as (Ho & _). intros n Hn. rewrite Ho. apply Hkeys. by right. }
    simpl. rewrite Hdata, E1. unfold bind. rewrite E.
    eexists _, w'. split; [reflexivity|]. split; [by eapply served_trans|].
    intros t [<-|Ht]; [simpl; eauto|auto].
Qed.

Lemma only_text_served (w w' : World) : only_text w w' -> served w w'.
Proof. unfold only_text. intros ->. repeat split. intros k Hk. exact Hk. Qed.

Lemma run_batches_stored (env : Env) (lang : string) (bs : list (list NodeRef))
    (w : World) :
  all_stored lang w ->
  (forall n, In n (concat bs) -> In n (NodeMap.keys (originalTexts w))) ->
  exists res w', run_batches env lang bs w = (Normal res, w') /\ served w w'.
Proof.
  revert w. induction bs as [|b bs IH]; intros w Hall Hkeys.
  - exists [], w. split; [reflexivity|apply served_refl].
  - simpl in Hkeys.
    destruct (start_all_stored lang b w Hall) as (tasks & w0 & E0 & Hs0 & Hhit).
    { intros n Hn. apply Hkeys, in_or_app. by left. }
    destruct (complete_all_hits env lang (merge_sort (arrives_before env) tasks) w0)
      as (r1 & w1 & E1 & Ho1).
    { intros t Ht. apply Hhit. rewrite <- !list_elem_of_In in *.
      by rewrite <- (merge_sort_Permutation (arrives_before env) tasks). }
    apply only_text_served in Ho1.
    destruct (pause_spec bs w1) as (w2 & E2 & _ & _).
    assert (Hs2 : served w w2).
    { eapply served_trans; [exact Hs0|]. eapply served_trans; [exact Ho1|].
      destruct bs; simpl in E2; inversion E2; repeat split; intros k Hk; exact Hk. }
    destruct (IH w2) as (r3 & w3 & E3 & Hs3).
    { by eapply all_stored_served. }
    { destruct Hs2 as (Ho & _). intros n Hn. rewrite Ho. apply Hkeys, in_or_app. by right. }
    exists (r1 ++ r3)%list, w3.
    split; [|by eapply served_trans].
    cbn [run_batches]. unfold bind at 1, run_batch at 1, bind at 1.
    rewrite E0, E1. unfold bind at 1. rewrite E2. unfold bind. by rewrite E3.
Qed.

Lemma lookup_or_request_nonempty (text lang : string) (w : World) :
  nonempty_cache w -> nonempty_cache (snd (lookup_or_request text lang w)).
Proof.
  intros Hne.
  destruct (lookup_or_request_cases text lang w)
    as [(v & _ & ->)|[(v & _ & _ & Hv & ->)|(_ & _ & ->)]]; simpl; try exact Hne.
  intros k v'. simpl. rewrite lookup_insert_Some.
  intros [[_ <-]|[_ Hk]]; [exact Hv|by eapply Hne].
Qed.

Lemma handle_response_nonempty (env : Env) (text lang : string) (n : nat) (w : World) :
  never_blank env ->
  nonempty_cache w -> nonempty_cache (snd (handle_response env text lang n w)).
Proof.
  intros Hblank Hne.
  destruct (handle_response_cases env text lang n w) as [(t & Ht & ->)|(wn & _ & ->)];
    simpl; [|exact Hne].
  intros k v'. simpl. rewrite lookup_insert_Some.
  intros [[_ <-]|[_ Hk]]; [by eapply Hblank|by eapply Hne].
Qed.

Lemma translatePage_nonempty (env : Env) (lang : string) (w : World) :
  never_blank env ->
  nonempty_cache w -> nonempty_cache (run (translatePage env lang) w).
Proof.
  intros Hblank.
  apply (steps_translatePage (fun w w' => nonempty_cache w -> nonempty_cache w')
           ltac:(intros ? H; exact H)
           ltac:(intros ? ? ? H1 H2 H; exact (H2 (H1 H)))
           env lang (fun _ => True));
    try (intros; assumption); try (intros; exact I).
  - intros text w1. apply lookup_or_request_nonempty.
  - intros text n w1. by apply handle_response_nonempty.
Qed.

Lemma later_visit (env env' : Env) (doc : Document) (lang : string)
    (texts : gmap NodeRef string) (storage : gmap string string)
    (pageLang pageLang' : string) (loading select loading' select' : option bool) :
  always_succeeds env ->
  never_blank env ->
  lang <> "en" ->
  let first :=
    run (translatePage env lang)
      (extractText doc (new_translator texts storage pageLang loading select)) in
  let second :=
    run (translatePage env' lang)
      (extractText doc
         (new_translator texts (localStorage first) pageLang' loading' select')) in
  requests second = 0
  /\ localStorage second = localStorage first
  /\ originalTexts second = originalTexts first
  /\ currentLang second = lang.
Proof.
  intros Hok Hblank Hen.
  set (w1 := extractText doc (new_translator texts storage pageLang loading select)).
  intros first.
  set (v1 := extractText doc
               (new_translator texts (localStorage first) pageLang' loading' select')).
  intros second.
  assert (Hcur : lang <> "en") by exact Hen.
  assert (Hall : all_cached lang first).
  { by apply (second_pass env env env lang w1 Hok). }
  assert (Hcoh : coherent first).
  { apply translatePage_coherent. intros k v Hk. discriminate Hk. }
  assert (Hne : nonempty_cache first).
  { apply translatePage_nonempty; [exact Hblank|]. intros k v Hk. discriminate Hk. }
  assert (Hpref : localStorage first !! "site_language" = Some lang).
  { by destruct (translatePage_run_switches env lang w1 eq_refl Hcur) as (_ & _ & H & _). }
  assert (Ho1 : originalTexts first = originalTexts w1)
    by apply translatePage_same_records.
  assert (Hov : originalTexts v1 = originalTexts w1)
    by (by apply extractText_same_page).
  assert (Hstored : all_stored lang (entered v1)).
  { intros node data Hget. right.
    change (originalTexts (entered v1)) with (originalTexts v1) in Hget.
    rewrite Hov, <- Ho1 in Hget.
    destruct (Hall node data Hget) as [v Hv].
    exists v. split; [by eapply Hne|]. by apply Hcoh. }
  destruct (translatePage_translates env' lang v1 eq_refl Hcur Hen)
    as (res & wt & Et & _ & E).
  destruct (run_batches_stored env' lang
              (batches (NodeMap.keys (originalTexts (entered v1)))) (entered v1) Hstored)
    as (res' & wt' & Et' & (Ho & Hs & Hr & _)).
  { intros n. by rewrite concat_batches. }
  rewrite <- translateToLanguage_batches, Et in Et'. injection Et' as _ <-.
  subst second. unfold run at 1 2 3 4. rewrite E. cbn [snd].
  destruct (switched_tiers lang wt) as (_ & Hs' & Hr' & Ho' & _).
  split; [by rewrite Hr', Hr|].
  split; [rewrite Hs', Hs; by apply insert_id|].
  split; [rewrite Ho', Ho; by rewrite Ho1|reflexivity].
Qed.

(** X18. A later visit is served from the storage. When the first visit
    translated the page with a service that succeeded every time and gave
    no translation that is empty once normalized, a new translator on the
    same page with the storage left by the first visit translates to the
    same language without sending one request and leaves the storage as it
    found it, whatever the service would do then. *)
Theorem later_visit_is_served_from_storage (env env' : Env) (doc : Document)
    (lang : string) (texts : gmap NodeRef string) (storage : gmap string string)
    (pageLang pageLang' : string) (loading select loading' select' : option bool) :
  always_succeeds env ->
  never_blank env ->
  lang <> "en" ->
  let first :=
    run (translatePage env lang)
      (extractText doc (new_translator texts storage pageLang loading select)) in
  let second :=
    run (translatePage env' lang)
      (extractText doc
         (new_translator texts (localStorage first) pageLang' loading' select')) in
  requests second = 0
  /\ localStorage second = localStorage first
  /\ originalTexts second = originalTexts first
  /\ currentLang second = lang.
Proof. apply later_visit. Qed.

Lemma later_visit_witness :
  requests
    (run (translatePage service_down "fr")
       (extractText hello_doc
          (new_translator {[ 0 := " Hello world " ]}
             (localStorage
                (run (translatePage (service "Bonjour le monde") "fr")
                   (extractText hello_doc hello_page)))
             "en" (Some false) (Some false)))) = 0.
Proof.
  destruct (later_visit_is_served_from_storage (service "Bonjour le monde") service_down
              hello_doc "fr" {[ 0 := " Hello world " ]} ∅ "en" "en"
              (Some false) (Some false) (Some false) (Some false)) as (H & _).
  - intros n url. exists "Bonjour le monde". apply success_200; [lia|discriminate].
  - intros n url t Ht. inversion Ht; subst. discriminate.
  - discriminate.
  - exact H.
Defined.
